(** * Repository tracker: alert aggregation, risk score and ownership merge

    A shallow embedding of the sync job [scripts/sync-github-data.js]
    (the three alert fetchers, [enrichRepository], [mergeWithOwnership],
    [syncSingleOrganization], [syncRepositories], [fetchOrganizationRepos],
    [waitForRateLimit]) and of the dashboard's [calculateRiskScore],
    [calculateAverageAge] and security filters, followed by the properties
    proved of them.

    Conventions of the embedding.
    - A JavaScript number holding a count, a number of days or a time in
      milliseconds is a [Z] (the code's values stay far below 2^53).  The
      one place where binary64 rounding decides the result,
      [Math.round(baseScore * ageMultiplier)], is computed with the
      executable IEEE-754 model [SpecFloat] at precision 53.
    - A timestamp string is modelled by the value [new Date(s)] gives it,
      in milliseconds; an absent or empty timestamp is [None].
    - A property that the code reads with [||], [?.] or [typeof] is a
      [js A]: [undefined], [null] or a value.
    - An awaited call is an [outcome]: it resolves, rejects, or is still
      pending when the fuel given to a paging loop has run out.
    - The clock is read once: [thirtyDaysAgo] and [now] are parameters.
    - What [githubRequest] does below the HTTP status (tokens, retries
      after a rate-limit 403) and the file system are outside the model;
      the rate-limit wait is modelled on its own, one call at a time, and
      not threaded through the requests; the repositories of a batch are
      enriched in listing order. *)

From Stdlib Require Import ZArith Lia Ascii String List Bool.
From Stdlib Require Import Floats.SpecFloat.
From stdpp Require Import base option list strings gmap.

Local Open Scope string_scope.
Local Open Scope Z_scope.

(** ** JavaScript values *)

Inductive js (A : Type) : Type :=
  | undefined
  | null
  | val (a : A).
Arguments undefined {A}.
Arguments null {A}.
Arguments val {A} a.

Class Truthy (A : Type) := truthy : A -> bool.

#[export] Instance string_truthy : Truthy string :=
  fun s => negb (String.eqb s "").
#[export] Instance Z_truthy : Truthy Z := fun z => negb (z =? 0).
#[export] Instance bool_truthy : Truthy bool := fun b => b.

Definition js_truthy {A} `{Truthy A} (x : js A) : bool :=
  match x with
  | val a => truthy a
  | _ => false
  end.

(** [x || y] *)
Definition jsor {A} `{Truthy A} (x y : js A) : js A :=
  if js_truthy x then x else y.

(** [x || d] where [d] is a literal of the value type *)
Definition jsor_default {A} `{Truthy A} (x : js A) (d : A) : A :=
  match x with
  | val a => if truthy a then a else d
  | _ => d
  end.

(** [o?.f] *)
Definition optchain {A B} (o : js A) (f : A -> js B) : js B :=
  match o with
  | val a => f a
  | _ => undefined
  end.

(** ** Strings *)

(** [String.prototype.toLowerCase] on the ASCII letters.  Bytes above 127
    are left alone; no string with such a byte lowercases to one of the
    five severity words, so comparisons against them are unaffected. *)
Definition lower_ascii (c : ascii) : ascii :=
  let n := nat_of_ascii c in
  if (65 <=? n)%nat && (n <=? 90)%nat then ascii_of_nat (n + 32) else c.

Fixpoint toLowerCase (s : string) : string :=
  match s with
  | EmptyString => EmptyString
  | String c s' => String (lower_ascii c) (toLowerCase s')
  end.

(** [s.split(sep)] for a one-character separator *)
Fixpoint split_on (sep : ascii) (s : string) : list string :=
  match s with
  | EmptyString => [EmptyString]
  | String c s' =>
      if Ascii.eqb c sep then EmptyString :: split_on sep s'
      else match split_on sep s' with
           | [] => [String c EmptyString]
           | p :: ps => String c p :: ps
           end
  end.

(** [parts.join(sep)] *)
Fixpoint join_with (sep : string) (parts : list string) : string :=
  match parts with
  | [] => EmptyString
  | [p] => p
  | p :: ps => String.append p (String.append sep (join_with sep ps))
  end.

(** [s.includes(c)] for a one-character needle *)
Fixpoint includes_char (c : ascii) (s : string) : bool :=
  match s with
  | EmptyString => false
  | String c' s' => Ascii.eqb c' c || includes_char c s'
  end.

(** [list.includes(s)] *)
Definition includes (l : list string) (s : string) : bool :=
  existsb (String.eqb s) l.

(** ** Awaited calls *)

Record HttpError := mkHttpError {
  statusCode : option Z;   (* absent for a network failure *)
  message : string
}.

Inductive outcome (A : Type) : Type :=
  | Resolved (a : A)
  | Rejected (e : HttpError)
  | Pending.
Arguments Resolved {A} a.
Arguments Rejected {A} e.
Arguments Pending {A}.

Definition await {A B} (p : outcome A) (k : A -> outcome B) : outcome B :=
  match p with
  | Resolved a => k a
  | Rejected e => Rejected e
  | Pending => Pending
  end.

Definition try_catch {A} (p : outcome A) (handler : HttpError -> outcome A)
  : outcome A :=
  match p with
  | Rejected e => handler e
  | _ => p
  end.

Notation "'let!' x ':=' p 'in' k" := (await p (fun x => k))
  (at level 10, x name, p at level 100, k at level 200).

(** [error.statusCode === 404 || error.statusCode === 403] *)
Definition is_403_or_404 (e : HttpError) : bool :=
  match statusCode e with
  | Some c => (c =? 404) || (c =? 403)
  | None => false
  end.

(** ** Alerts *)

Record Rule := mkRule {
  security_severity_level : js string;
  rule_severity : js string
}.

Record Alert := mkAlert {
  state : string;
  created_at : option Z;
  updated_at : js string;
  closed_at : option Z;
  dismissed_at : option Z;
  fixed_at : option Z;
  resolved_at : option Z;
  rule : js Rule;                      (* code scanning *)
  advisory_severity : js string;       (* security_advisory?.severity *)
  package_ecosystem : js string;       (* dependency?.package?.ecosystem *)
  secret_type : js string
}.

(** [a || b] on two optional timestamps *)
Definition first_date (a b : option Z) : option Z :=
  match a with
  | Some _ => a
  | None => b
  end.

(** ** Alert summaries *)

Record Aging := mkAging {
  oldestAge : Z;
  averageAge : Z;
  ageBuckets : gmap string Z
}.

(** The summary object.  [severity] holds the open counts that the object
    literal writes as top-level properties named after a severity;
    [aging] and [mttr] are optional because the defaults written by
    [mergeWithOwnership] leave them out. *)
Record AlertSummary := mkSummary {
  total : Z;
  severity : gmap string Z;
  ecosystems : option (list string);
  secretTypes : option (gmap string Z);
  openedLast30Days : Z;
  closedLast30Days : Z;
  openedLast30DaysBySeverity : gmap string Z;
  closedLast30DaysBySeverity : gmap string Z;
  aging : option Aging;
  mttr : option Z;
  lastUpdated : js string;
  enabled : bool
}.

Definition SEVERITIES : list string :=
  ["critical"; "high"; "medium"; "low"; "info"].

(** [{ critical: 0, high: 0, medium: 0, low: 0, info: 0 }] *)
Definition zeroBySeverity : gmap string Z :=
  <["critical" := 0]> (<["high" := 0]> (<["medium" := 0]>
    (<["low" := 0]> (<["info" := 0]> ∅)))).

(** [{ '0-7': 0, '8-30': 0, '31-90': 0, '91-180': 0, '180+': 0 }] *)
Definition zeroAgeBuckets : gmap string Z :=
  <["0-7" := 0]> (<["8-30" := 0]> (<["31-90" := 0]>
    (<["91-180" := 0]> (<["180+" := 0]> ∅)))).

Definition AGE_BUCKETS : list string :=
  ["0-7"; "8-30"; "31-90"; "91-180"; "180+"].

(** [m[k]++] on a key that the literal initialised *)
Definition incr (k : string) (m : gmap string Z) : gmap string Z :=
  alter Z.succ k m.

Definition MS_PER_DAY : Z := 1000 * 60 * 60 * 24.

(** [Math.floor((later - earlier) / (1000 * 60 * 60 * 24))] *)
Definition daysBetween (earlier later : Z) : Z :=
  (later - earlier) / MS_PER_DAY.

(** [Math.round(p / q)] for a positive [q]: nearest integer, a half
    rounding up *)
Definition round_div (p q : Z) : Z := (2 * p + q) / (2 * q).

Definition len {A} (l : list A) : Z := Z.of_nat (length l).

(** The chain of comparisons that picks the age bucket *)
Definition ageBucket (ageDays : Z) : string :=
  if ageDays <=? 7 then "0-7"
  else if ageDays <=? 30 then "8-30"
  else if ageDays <=? 90 then "31-90"
  else if ageDays <=? 180 then "91-180"
  else "180+".

Record AgingAcc := mkAgingAcc {
  acc_oldest : Z;
  acc_total : Z;
  acc_buckets : gmap string Z
}.

(** Body of [openAlerts.forEach(alert => { if (alert.created_at) ... })] *)
Definition agingStep (now : Z) (acc : AgingAcc) (alert : Alert) : AgingAcc :=
  match created_at alert with
  | Some created =>
      let ageDays := daysBetween created now in
      {| acc_oldest := Z.max (acc_oldest acc) ageDays;
         acc_total := acc_total acc + ageDays;
         acc_buckets := incr (ageBucket ageDays) (acc_buckets acc) |}
  | None => acc
  end.

Definition agingOf (now : Z) (openAlerts : list Alert) : Aging :=
  let acc := foldl (agingStep now)
               {| acc_oldest := 0; acc_total := 0;
                  acc_buckets := zeroAgeBuckets |} openAlerts in
  {| oldestAge := acc_oldest acc;
     averageAge := if 0 <? len openAlerts
                   then round_div (acc_total acc) (len openAlerts) else 0;
     ageBuckets := acc_buckets acc |}.

(** Body of [closedAlerts.forEach] that accumulates
    [(totalRemediationTime, remediationCount)] *)
Definition mttrStep (closing : Alert -> option Z) (acc : Z * Z) (alert : Alert)
  : Z * Z :=
  match created_at alert, closing alert with
  | Some created, Some closed =>
      let daysToRemediate := daysBetween created closed in
      if 0 <=? daysToRemediate
      then (fst acc + daysToRemediate, snd acc + 1)
      else acc
  | _, _ => acc
  end.

Definition mttrOf (closing : Alert -> option Z) (closedAlerts : list Alert) : Z :=
  let acc := foldl (mttrStep closing) (0, 0) closedAlerts in
  if 0 <? snd acc then round_div (fst acc) (snd acc) else 0.

(** [['critical', ...].includes(severity) ? severity : 'medium'] *)
Definition severityKey (raw : js string) : string :=
  let severity := toLowerCase (jsor_default raw "medium") in
  if includes SEVERITIES severity then severity else "medium".

(** Body of [alerts.forEach] that fills [openedBySeverity] and
    [closedBySeverity] *)
Definition deltaStep (label : Alert -> js string) (closing : Alert -> option Z)
    (thirtyDaysAgo : Z) (acc : gmap string Z * gmap string Z) (alert : Alert)
  : gmap string Z * gmap string Z :=
  let key := severityKey (label alert) in
  let opened :=
    match created_at alert with
    | Some created =>
        if thirtyDaysAgo <=? created then incr key (fst acc) else fst acc
    | None => fst acc
    end in
  let closed :=
    match closing alert with
    | Some closedDate =>
        if thirtyDaysAgo <=? closedDate then incr key (snd acc) else snd acc
    | None => snd acc
    end in
  (opened, closed).

(** [m.critical + m.high + m.medium + m.low + m.info] *)
Definition sumBySeverity (m : gmap string Z) : Z :=
  m !!! "critical" + m !!! "high" + m !!! "medium" + m !!! "low" + m !!! "info".

(** [openAlerts.filter(a => label(a).toLowerCase() === word).length] with
    the label defaulting to the empty string *)
Definition countSeverity (label : Alert -> js string) (word : string)
    (openAlerts : list Alert) : Z :=
  len (List.filter
         (fun a => String.eqb (toLowerCase (jsor_default (label a) "")) word)
         openAlerts).

Definition stateIs (s : string) (a : Alert) : bool := String.eqb (state a) s.

(** [alerts.length > 0 ? alerts[0].updated_at : null] *)
Definition lastUpdatedOf (alerts : list Alert) : js string :=
  match alerts with
  | a :: _ => updated_at a
  | [] => null
  end.

(** ** Code scanning (static analysis) *)

(** [alert.rule?.security_severity_level || alert.rule?.severity] *)
Definition codeScanningLabel (a : Alert) : js string :=
  jsor (optchain (rule a) security_severity_level)
       (optchain (rule a) rule_severity).

(** [alert.closed_at || alert.dismissed_at] *)
Definition codeScanningClosing (a : Alert) : option Z :=
  first_date (closed_at a) (dismissed_at a).

Definition openSeverityCounts (label : Alert -> js string)
    (openAlerts : list Alert) : gmap string Z :=
  <["critical" := countSeverity label "critical" openAlerts]>
    (<["high" := countSeverity label "high" openAlerts]>
      (<["medium" := countSeverity label "medium" openAlerts]>
        (<["low" := countSeverity label "low" openAlerts]> ∅))).

Definition summarizeCodeScanning (alerts : list Alert) (thirtyDaysAgo now : Z)
  : AlertSummary :=
  let deltas := foldl (deltaStep codeScanningLabel codeScanningClosing
                         thirtyDaysAgo)
                  (zeroBySeverity, zeroBySeverity) alerts in
  let openedBySeverity := fst deltas in
  let closedBySeverity := snd deltas in
  let openAlerts := List.filter (stateIs "open") alerts in
  let closedAlerts :=
    List.filter (fun a => stateIs "closed" a || stateIs "dismissed" a) alerts in
  {| total := len openAlerts;
     severity := openSeverityCounts codeScanningLabel openAlerts;
     ecosystems := None;
     secretTypes := None;
     openedLast30Days := sumBySeverity openedBySeverity;
     closedLast30Days := sumBySeverity closedBySeverity;
     openedLast30DaysBySeverity := openedBySeverity;
     closedLast30DaysBySeverity := closedBySeverity;
     aging := Some (agingOf now openAlerts);
     mttr := Some (mttrOf codeScanningClosing closedAlerts);
     lastUpdated := lastUpdatedOf alerts;
     enabled := true |}.

(** [{ critical: 0, high: 0, medium: 0, low: 0 }] as top-level properties *)
Definition zeroOpenCounts : gmap string Z :=
  <["critical" := 0]> (<["high" := 0]> (<["medium" := 0]>
    (<["low" := 0]> ∅))).

Definition zeroAging : Aging :=
  {| oldestAge := 0; averageAge := 0; ageBuckets := zeroAgeBuckets |}.

(** The literal returned on 403/404 and used by [enrichRepository] when the
    fetch throws *)
Definition disabledCodeScanning : AlertSummary :=
  {| total := 0; severity := zeroOpenCounts;
     ecosystems := None; secretTypes := None;
     openedLast30Days := 0; closedLast30Days := 0;
     openedLast30DaysBySeverity := zeroBySeverity;
     closedLast30DaysBySeverity := zeroBySeverity;
     aging := Some zeroAging; mttr := Some 0;
     lastUpdated := null; enabled := false |}.

(** ** Dependabot (dependency findings) *)

(** [alert.security_advisory?.severity] *)
Definition dependabotLabel (a : Alert) : js string := advisory_severity a.

(** [alert.dismissed_at || alert.fixed_at] *)
Definition dependabotClosing (a : Alert) : option Z :=
  first_date (dismissed_at a) (fixed_at a).

(** [ecosystems.add(e)] followed by [Array.from]: insertion order, no
    repetition *)
Definition addEcosystem (seen : list string) (a : Alert) : list string :=
  match package_ecosystem a with
  | val e => if truthy e
             then (if includes seen e then seen else seen ++ [e])%list
             else seen
  | _ => seen
  end.

Definition summarizeDependabot (alerts : list Alert) (thirtyDaysAgo now : Z)
  : AlertSummary :=
  let deltas := foldl (deltaStep dependabotLabel dependabotClosing
                         thirtyDaysAgo)
                  (zeroBySeverity, zeroBySeverity) alerts in
  let openedBySeverity := fst deltas in
  let closedBySeverity := snd deltas in
  let openAlerts := List.filter (stateIs "open") alerts in
  let closedAlerts :=
    List.filter (fun a => stateIs "dismissed" a || stateIs "fixed" a) alerts in
  {| total := len openAlerts;
     severity := openSeverityCounts dependabotLabel openAlerts;
     ecosystems := Some (foldl addEcosystem [] openAlerts);
     secretTypes := None;
     openedLast30Days := sumBySeverity openedBySeverity;
     closedLast30Days := sumBySeverity closedBySeverity;
     openedLast30DaysBySeverity := openedBySeverity;
     closedLast30DaysBySeverity := closedBySeverity;
     aging := Some (agingOf now openAlerts);
     mttr := Some (mttrOf dependabotClosing closedAlerts);
     lastUpdated := lastUpdatedOf alerts;
     enabled := true |}.

Definition disabledDependabot : AlertSummary :=
  {| total := 0; severity := zeroOpenCounts;
     ecosystems := Some []; secretTypes := None;
     openedLast30Days := 0; closedLast30Days := 0;
     openedLast30DaysBySeverity := zeroBySeverity;
     closedLast30DaysBySeverity := zeroBySeverity;
     aging := Some zeroAging; mttr := Some 0;
     lastUpdated := null; enabled := false |}.

(** ** Secret scanning *)

(** Body of [alerts.forEach] that counts [openedLast30Days] and
    [closedLast30Days] *)
Definition secretDeltaStep (thirtyDaysAgo : Z) (acc : Z * Z) (alert : Alert)
  : Z * Z :=
  let opened :=
    match created_at alert with
    | Some created => if thirtyDaysAgo <=? created then fst acc + 1 else fst acc
    | None => fst acc
    end in
  let closed :=
    match resolved_at alert with
    | Some resolved => if thirtyDaysAgo <=? resolved then snd acc + 1 else snd acc
    | None => snd acc
    end in
  (opened, closed).

(** [secretTypes[type] = (secretTypes[type] || 0) + 1] *)
Definition addSecretType (types : gmap string Z) (a : Alert) : gmap string Z :=
  let type := jsor_default (secret_type a) "unknown" in
  <[type := default 0 (types !! type) + 1]> types.

Definition summarizeSecretScanning (alerts : list Alert) (thirtyDaysAgo now : Z)
  : AlertSummary :=
  let deltas := foldl (secretDeltaStep thirtyDaysAgo) (0, 0) alerts in
  let openAlerts := List.filter (stateIs "open") alerts in
  let closedAlerts := List.filter (stateIs "resolved") alerts in
  {| total := len openAlerts;
     severity := ∅;
     ecosystems := None;
     secretTypes := Some (foldl addSecretType ∅ openAlerts);
     openedLast30Days := fst deltas;
     closedLast30Days := snd deltas;
     openedLast30DaysBySeverity := zeroBySeverity;
     closedLast30DaysBySeverity := zeroBySeverity;
     aging := Some (agingOf now openAlerts);
     mttr := Some (mttrOf resolved_at closedAlerts);
     lastUpdated := lastUpdatedOf alerts;
     enabled := true |}.

Definition disabledSecretScanning : AlertSummary :=
  {| total := 0; severity := ∅;
     ecosystems := None; secretTypes := Some ∅;
     openedLast30Days := 0; closedLast30Days := 0;
     openedLast30DaysBySeverity := zeroBySeverity;
     closedLast30DaysBySeverity := zeroBySeverity;
     aging := Some zeroAging; mttr := Some 0;
     lastUpdated := null; enabled := false |}.

(** ** Paginated fetch *)

(** What [githubRequest] resolves to on an alert-list endpoint *)
Inductive Body :=
  | Array (items : list Alert)
  | NotArray.

(** An alert-list endpoint: the answer to the request for a lifecycle state
    and a page number, a rejection carrying the HTTP status *)
Definition Endpoint := string -> nat -> HttpError + Body.

Definition PER_PAGE : nat := 100.

(** The [while (hasMore)] loop of one state, from [page] on.  [fuel] bounds
    the number of requests; a loop that needs more is [Pending]. *)
Fixpoint fetchPages (fuel : nat) (request : nat -> HttpError + Body)
    (page : nat) (alerts : list Alert) : outcome (list Alert) :=
  match fuel with
  | O => Pending
  | S fuel' =>
      match request page with
      | inr (Array response) =>
          let alerts' := (alerts ++ response)%list in
          if Nat.eqb (length response) PER_PAGE
          then fetchPages fuel' request (S page) alerts'
          else Resolved alerts'
      | inr NotArray => Resolved alerts
      | inl error =>
          if is_403_or_404 error then Resolved alerts else Rejected error
      end
  end.

(** [for (const state of states) { page = 1; ... }] *)
Fixpoint fetchStates (fuel : nat) (endpoint : Endpoint) (states : list string)
    (alerts : list Alert) : outcome (list Alert) :=
  match states with
  | [] => Resolved alerts
  | st :: rest =>
      let! alerts' := fetchPages fuel (endpoint st) 1 alerts in
      fetchStates fuel endpoint rest alerts'
  end.

(** The outer [catch (error)] shared by the three fetchers *)
Definition onStatusDisabled (disabled : AlertSummary) (error : HttpError)
  : outcome AlertSummary :=
  if is_403_or_404 error then Resolved disabled else Rejected error.

Definition fetchCodeScanningAlerts (fuel : nat) (endpoint : Endpoint)
    (thirtyDaysAgo now : Z) : outcome AlertSummary :=
  try_catch
    (let! alerts := fetchStates fuel endpoint ["open"; "closed"; "dismissed"] [] in
     Resolved (summarizeCodeScanning alerts thirtyDaysAgo now))
    (onStatusDisabled disabledCodeScanning).

Definition fetchDependabotAlerts (fuel : nat) (endpoint : Endpoint)
    (thirtyDaysAgo now : Z) : outcome AlertSummary :=
  try_catch
    (let! alerts :=
       fetchStates fuel endpoint
         ["open"; "dismissed"; "fixed"; "auto_dismissed"] [] in
     Resolved (summarizeDependabot alerts thirtyDaysAgo now))
    (onStatusDisabled disabledDependabot).

Definition fetchSecretScanningAlerts (fuel : nat) (endpoint : Endpoint)
    (thirtyDaysAgo now : Z) : outcome AlertSummary :=
  try_catch
    (let! alerts := fetchStates fuel endpoint ["open"; "resolved"] [] in
     Resolved (summarizeSecretScanning alerts thirtyDaysAgo now))
    (onStatusDisabled disabledSecretScanning).

(** ** Repository records *)

Record VulnerabilityBundle := mkBundle {
  codeScanning : js AlertSummary;
  dependabot : js AlertSummary;
  secretScanning : js AlertSummary
}.

(** Objects are truthy *)
#[export] Instance summary_truthy : Truthy AlertSummary := fun _ => true.
#[export] Instance bundle_truthy : Truthy VulnerabilityBundle := fun _ => true.

Record RepoMetadata := mkRepoMetadata {
  stars : js Z;
  forks : js Z;
  openIssues : js Z;
  createdAt : js string;
  pushedAt : js string;
  defaultBranch : js string;
  topics : list string
}.

(** One entry of [repositories] in [data/repositories.json], and the object
    [enrichRepository] returns.  Properties outside this list that a
    hand-edited file may carry are not modelled. *)
Record RepositoryRecord := mkRecord {
  organization : string;
  repository : string;
  pod : js string;
  environmentType : js string;
  vertical : js string;
  description : js string;
  language : js string;
  status : js string;
  lastActivity : js string;
  githubUrl : js string;
  engineeringManager : js string;
  codeowners : js bool;
  vulnerabilities : js VulnerabilityBundle;
  _metadata : js RepoMetadata
}.

Definition NO_POD : string := "No Pod Selected".

(** ** What the hosting API answers for one repository *)

Record GithubRepo := mkGithubRepo {
  owner_login : string;
  name : string
}.

Record DetailedRepo := mkDetailedRepo {
  archived : bool;
  disabled : bool;
  repo_description : js string;
  repo_language : js string;
  repo_updated_at : js string;
  html_url : js string;
  stargazers_count : js Z;
  forks_count : js Z;
  open_issues_count : js Z;
  repo_created_at : js string;
  pushed_at : js string;
  default_branch : js string;
  repo_topics : js (list string);
  custom_properties : js (gmap string string)
}.

Inductive PropsBody :=
  | PropsArray (props : list (js string * js string))
  | PropsOther.

Record RepoApi := mkRepoApi {
  details : HttpError + DetailedRepo;        (* GET /repos/o/r *)
  properties : HttpError + PropsBody;        (* GET .../properties/values *)
  contents : string -> bool;                 (* GET .../contents/p succeeds *)
  codeScanningApi : Endpoint;
  dependabotApi : Endpoint;
  secretScanningApi : Endpoint
}.

Definition request {A} (answer : HttpError + A) : outcome A :=
  match answer with
  | inr a => Resolved a
  | inl e => Rejected e
  end.

(** ** Pod, environment type and vertical *)

(** [s.includes(needle)] *)
Fixpoint includes_str (needle s : string) : bool :=
  String.prefix needle s ||
  match s with
  | EmptyString => false
  | String _ s' => includes_str needle s'
  end.

Definition is_space (c : ascii) : bool :=
  let n := nat_of_ascii c in
  ((9 <=? n)%nat && (n <=? 13)%nat) || Nat.eqb n 32.

Fixpoint trimStart (s : string) : string :=
  match s with
  | String c s' => if is_space c then trimStart s' else s
  | EmptyString => EmptyString
  end.

Fixpoint trimEnd (s : string) : string :=
  match s with
  | EmptyString => EmptyString
  | String c s' =>
      let t := trimEnd s' in
      if is_space c && String.eqb t "" then EmptyString else String c t
  end.

(** [s.trim()], on ASCII white space *)
Definition trim (s : string) : string := trimEnd (trimStart s).

(** [obj.k], [undefined] when the object has no such property *)
Definition prop (obj : gmap string string) (k : string) : js string :=
  match obj !! k with
  | Some v => val v
  | None => undefined
  end.

(** [customPropsResponse.forEach(prop => { if (prop.property_name &&
    prop.value) customProperties[prop.property_name] = prop.value })] *)
Definition addProperty (obj : gmap string string) (p : js string * js string)
  : gmap string string :=
  match p with
  | (val n, val v) => if truthy n && truthy v then <[n := v]> obj else obj
  | _ => obj
  end.

Definition customPropertiesOf (answer : HttpError + PropsBody)
  : option (gmap string string) :=
  match answer with
  | inr (PropsArray props) => Some (foldl addProperty ∅ props)
  | _ => None
  end.

(** The predicate of [topics.find] *)
Definition isPodTopic (topic : string) : bool :=
  includes_str "pod:" (toLowerCase topic) ||
  (includes_char "-" topic && (5 <? String.length topic)%nat).

Definition podOfTopic (podTopic : string) : string :=
  if includes_char ":" podTopic
  then trim (nth 1 (split_on ":" podTopic) "")
  else podTopic.

(** Methods 1, 1b and 2: the pair [(pod, environmentType)] before the
    defaults are applied *)
Definition resolvePod (customProperties : option (gmap string string))
    (detailedRepo : DetailedRepo) (topicList : list string)
  : js string * js string :=
  let m1 :=
    match customProperties with
    | Some cp =>
        (jsor (jsor (jsor (prop cp "Pod") (prop cp "pod")) (prop cp "POD")) null,
         jsor (jsor (jsor (prop cp "EnvironmentType") (prop cp "environmentType"))
                (prop cp "ENVIRONMENTTYPE")) null)
    | None => (null, null)
    end in
  let m1b :=
    match custom_properties detailedRepo with
    | val cp =>
        if negb (js_truthy (fst m1)) then
          (jsor (jsor (jsor (prop cp "Pod") (prop cp "pod")) (prop cp "POD")) (fst m1),
           jsor (jsor (jsor (prop cp "EnvironmentType") (prop cp "environmentType"))
                  (prop cp "ENVIRONMENTTYPE")) (snd m1))
        else m1
    | _ => m1
    end in
  if negb (js_truthy (fst m1b)) then
    match List.find isPodTopic topicList with
    | Some podTopic =>
        if truthy podTopic then (val (podOfTopic podTopic), snd m1b) else m1b
    | None => m1b
    end
  else m1b.

(** [parts.slice(0, -1).join('-')] when the pod contains a dash *)
Definition verticalOf (pod : js string) : js string :=
  match pod with
  | val p =>
      if truthy p && includes_char "-" p
      then val (join_with "-" (removelast (split_on "-" p)))
      else null
  | _ => null
  end.

(** [detailedRepo.updated_at ? detailedRepo.updated_at.split('T')[0] : null] *)
Definition lastActivityOf (updated : js string) : js string :=
  match updated with
  | val u => if truthy u then val (nth 0 (split_on "T" u) "") else null
  | _ => null
  end.

Definition codeownersPaths : list string :=
  [".github/CODEOWNERS"; "CODEOWNERS"; "docs/CODEOWNERS"].

(** ** enrichRepository *)

(** [try { x = await fetch } catch (error) { x = fallback }] *)
Definition orFallback (fetched : outcome AlertSummary) (fallback : AlertSummary)
  : outcome AlertSummary :=
  try_catch fetched (fun _ => Resolved fallback).

Definition enrichRepository (fuel : nat) (repo : GithubRepo) (api : RepoApi)
    (thirtyDaysAgo now : Z) : outcome (option RepositoryRecord) :=
  try_catch
    (let! detailedRepo := request (details api) in
     let topicList :=
       match repo_topics detailedRepo with
       | val ts => ts
       | _ => []
       end in
     let customProperties := customPropertiesOf (properties api) in
     let resolved := resolvePod customProperties detailedRepo topicList in
     let pod0 := fst resolved in
     let environmentType0 := snd resolved in
     let vertical0 := verticalOf pod0 in
     let codeowners0 := existsb (contents api) codeownersPaths in
     if archived detailedRepo then Resolved None
     else
       let! cs := orFallback
                    (fetchCodeScanningAlerts fuel (codeScanningApi api)
                       thirtyDaysAgo now)
                    disabledCodeScanning in
       let! dep := orFallback
                     (fetchDependabotAlerts fuel (dependabotApi api)
                        thirtyDaysAgo now)
                     disabledDependabot in
       let! sec := orFallback
                     (fetchSecretScanningAlerts fuel (secretScanningApi api)
                        thirtyDaysAgo now)
                     disabledSecretScanning in
       Resolved (Some
         {| organization := owner_login repo;
            repository := name repo;
            pod := val (jsor_default pod0 NO_POD);
            environmentType := val (jsor_default environmentType0 "");
            vertical := val (jsor_default vertical0 "");
            description := val (jsor_default (repo_description detailedRepo) "");
            language := val (jsor_default (repo_language detailedRepo) "");
            status := val (if disabled detailedRepo then "deprecated"
                           else "active");
            lastActivity := lastActivityOf (repo_updated_at detailedRepo);
            githubUrl := html_url detailedRepo;
            engineeringManager := undefined;
            codeowners := val codeowners0;
            vulnerabilities :=
              val {| codeScanning := val cs;
                     dependabot := val dep;
                     secretScanning := val sec |};
            _metadata :=
              val {| stars := stargazers_count detailedRepo;
                     forks := forks_count detailedRepo;
                     openIssues := open_issues_count detailedRepo;
                     createdAt := repo_created_at detailedRepo;
                     pushedAt := pushed_at detailedRepo;
                     defaultBranch := default_branch detailedRepo;
                     topics := topicList |} |}))
    (fun _ => Resolved None).

(** ** mergeWithOwnership *)

(** The four-property summaries written as the last resort for a record
    without a [vulnerabilities] value: no [aging], no [mttr] *)
Definition defaultCodeScanning : AlertSummary :=
  {| total := 0; severity := zeroOpenCounts;
     ecosystems := None; secretTypes := None;
     openedLast30Days := 0; closedLast30Days := 0;
     openedLast30DaysBySeverity := zeroBySeverity;
     closedLast30DaysBySeverity := zeroBySeverity;
     aging := None; mttr := None;
     lastUpdated := null; enabled := false |}.

Definition defaultDependabot : AlertSummary :=
  {| total := 0; severity := zeroOpenCounts;
     ecosystems := Some []; secretTypes := None;
     openedLast30Days := 0; closedLast30Days := 0;
     openedLast30DaysBySeverity := zeroBySeverity;
     closedLast30DaysBySeverity := zeroBySeverity;
     aging := None; mttr := None;
     lastUpdated := null; enabled := false |}.

Definition defaultSecretScanning : AlertSummary :=
  {| total := 0; severity := ∅;
     ecosystems := None; secretTypes := Some ∅;
     openedLast30Days := 0; closedLast30Days := 0;
     openedLast30DaysBySeverity := zeroBySeverity;
     closedLast30DaysBySeverity := zeroBySeverity;
     aging := None; mttr := None;
     lastUpdated := null; enabled := false |}.

Definition defaultVulnerabilities : VulnerabilityBundle :=
  {| codeScanning := val defaultCodeScanning;
     dependabot := val defaultDependabot;
     secretScanning := val defaultSecretScanning |}.

(** [`${repo.organization}/${repo.repository}`] *)
Definition repoKey (r : RepositoryRecord) : string :=
  String.append (organization r) (String.append "/" (repository r)).

(** [existingRepos.forEach(repo => existingMap.set(key, repo))] *)
Definition existingMapOf (existingRepos : list RepositoryRecord)
  : gmap string RepositoryRecord :=
  foldl (fun m repo => <[repoKey repo := repo]> m) ∅ existingRepos.

(** [x !== s] for a string literal [s] *)
Definition js_differs (x : js string) (s : string) : bool :=
  match x with
  | val a => negb (String.eqb a s)
  | _ => true
  end.

(** [typeof x === 'boolean' ? x : d] *)
Definition boolean_or (x : js bool) (d : bool) : bool :=
  match x with
  | val b => b
  | _ => d
  end.

(** The branch [if (existing)]: the spread of [existing] with the listed
    properties replaced *)
Definition mergeExisting (repo existing : RepositoryRecord) : RepositoryRecord :=
  {| organization := organization existing;
     repository := repository existing;
     pod := if js_truthy (pod repo) && js_differs (pod repo) NO_POD
            then pod repo
            else val (jsor_default (pod existing) NO_POD);
     environmentType :=
       val (jsor_default (jsor (environmentType repo) (environmentType existing)) "");
     vertical := val (jsor_default (jsor (vertical repo) (vertical existing)) "");
     description := jsor (description repo) (description existing);
     language := jsor (language repo) (language existing);
     status := jsor (status repo) (status existing);
     lastActivity := jsor (lastActivity repo) (lastActivity existing);
     githubUrl := jsor (githubUrl repo) (githubUrl existing);
     engineeringManager := val (jsor_default (engineeringManager existing) "");
     codeowners :=
       val (boolean_or (codeowners repo) (jsor_default (codeowners existing) false));
     vulnerabilities :=
       val (jsor_default (jsor (vulnerabilities repo) (vulnerabilities existing))
              defaultVulnerabilities);
     _metadata := _metadata existing |}.

(** The branch for a repository without a persisted record: the spread of
    [repo] with four properties replaced *)
Definition mergeNew (repo : RepositoryRecord) : RepositoryRecord :=
  {| organization := organization repo;
     repository := repository repo;
     pod := val (jsor_default (pod repo) NO_POD);
     environmentType := environmentType repo;
     vertical := vertical repo;
     description := description repo;
     language := language repo;
     status := status repo;
     lastActivity := lastActivity repo;
     githubUrl := githubUrl repo;
     engineeringManager := val (jsor_default (engineeringManager repo) "");
     codeowners := val (boolean_or (codeowners repo) false);
     vulnerabilities :=
       val (jsor_default (vulnerabilities repo) defaultVulnerabilities);
     _metadata := _metadata repo |}.

Definition mergeOne (existingMap : gmap string RepositoryRecord)
    (repo : RepositoryRecord) : RepositoryRecord :=
  match existingMap !! repoKey repo with
  | Some existing => mergeExisting repo existing
  | None => mergeNew repo
  end.

Definition mergeWithOwnership (githubData existingRepos : list RepositoryRecord)
  : list RepositoryRecord :=
  let existingMap := existingMapOf existingRepos in
  map (mergeOne existingMap) githubData.

(** ** De-duplication: [Array.from(new Map(entries).values())] *)

(** [Map.prototype.set] on a map kept in insertion order: a key already
    present keeps its position and takes the new value *)
Fixpoint mapSet {A} (k : string) (v : A) (m : list (string * A))
  : list (string * A) :=
  match m with
  | [] => [(k, v)]
  | (k', v') :: m' =>
      if String.eqb k' k then (k', v) :: m' else (k', v') :: mapSet k v m'
  end.

Definition uniqueReposOf (mergedRepos : list RepositoryRecord)
  : list RepositoryRecord :=
  map snd (foldl (fun m repo => mapSet (repoKey repo) repo m) [] mergedRepos).

(** ** syncSingleOrganization and syncRepositories *)

Record SyncStats := mkStats {
  updated : Z;
  skipped : Z;
  errors : Z
}.

Record OrgResult := mkOrgResult {
  repos : list RepositoryRecord;
  stats : SyncStats
}.

(** One configured organization: its name, and either the rejection of the
    authentication or of the repository listing, or the listed repositories
    each with what the API answers for it *)
Record OrgApi := mkOrgApi {
  org_name : string;
  listing : HttpError + list (GithubRepo * RepoApi)
}.

(** Body of the callback of [batch.map]; the repositories of a batch are
    taken in listing order *)
Definition enrichStep (fuel : nat) (thirtyDaysAgo now : Z)
    (acc : outcome OrgResult) (entry : GithubRepo * RepoApi)
  : outcome OrgResult :=
  let! r := acc in
  let st := stats r in
  match enrichRepository fuel (fst entry) (snd entry) thirtyDaysAgo now with
  | Resolved (Some enriched) =>
      Resolved {| repos := (repos r ++ [enriched])%list;
                  stats := {| updated := updated st + 1;
                              skipped := skipped st;
                              errors := errors st |} |}
  | Resolved None =>
      Resolved {| repos := repos r;
                  stats := {| updated := updated st;
                              skipped := skipped st + 1;
                              errors := errors st |} |}
  | Rejected _ =>
      Resolved {| repos := repos r;
                  stats := {| updated := updated st;
                              skipped := skipped st;
                              errors := errors st + 1 |} |}
  | Pending => Pending
  end.

Definition syncSingleOrganization (fuel : nat) (orgConfig : OrgApi)
    (thirtyDaysAgo now : Z) : outcome OrgResult :=
  let! githubRepos := request (listing orgConfig) in
  foldl (enrichStep fuel thirtyDaysAgo now)
    (Resolved {| repos := [];
                 stats := {| updated := 0; skipped := 0; errors := 0 |} |})
    githubRepos.

Record SyncOutput := mkOutput {
  organizations : list string;
  totalRepos : Z;
  totalUpdated : Z;
  totalSkipped : Z;
  totalErrors : Z;
  orgStats : list SyncStats;
  repositories : list RepositoryRecord
}.

(** Body of [for (const orgConfig of orgConfigs) { try ... catch ... }] *)
Definition orgStep (fuel : nat) (thirtyDaysAgo now : Z)
    (acc : outcome (list RepositoryRecord * list SyncStats)) (orgConfig : OrgApi)
  : outcome (list RepositoryRecord * list SyncStats) :=
  let! a := acc in
  match syncSingleOrganization fuel orgConfig thirtyDaysAgo now with
  | Resolved result =>
      Resolved ((fst a ++ repos result)%list, (snd a ++ [stats result])%list)
  | Rejected _ =>
      Resolved (fst a,
                (snd a ++ [{| updated := 0; skipped := 0; errors := 1 |}])%list)
  | Pending => Pending
  end.

Definition sumStats (f : SyncStats -> Z) (l : list SyncStats) : Z :=
  foldl (fun acc st => acc + f st) 0 l.

Definition syncRepositories (fuel : nat) (orgConfigs : list OrgApi)
    (existingRepos : list RepositoryRecord) (thirtyDaysAgo now : Z)
  : outcome SyncOutput :=
  let! synced := foldl (orgStep fuel thirtyDaysAgo now) (Resolved ([], []))
                   orgConfigs in
  let allEnrichedRepos := fst synced in
  let mergedRepos := mergeWithOwnership allEnrichedRepos existingRepos in
  let uniqueRepos := uniqueReposOf mergedRepos in
  Resolved {| organizations := map org_name orgConfigs;
              totalRepos := len uniqueRepos;
              totalUpdated := sumStats updated (snd synced);
              totalSkipped := sumStats skipped (snd synced);
              totalErrors := sumStats errors (snd synced);
              orgStats := snd synced;
              repositories := uniqueRepos |}.

(** ** Binary64 arithmetic *)

Module Double.
Definition prec : Z := 53.
Definition emax : Z := 1024.

(** The double nearest to an integer *)
Definition of_Z (z : Z) : spec_float := binary_normalize prec emax z 0 false.

Definition add : spec_float -> spec_float -> spec_float := SFadd prec emax.
Definition mul : spec_float -> spec_float -> spec_float := SFmul prec emax.
Definition div : spec_float -> spec_float -> spec_float := SFdiv prec emax.

(** [Math.min(x, y)] on two numbers that are not NaN *)
Definition min (x y : spec_float) : spec_float := if SFltb y x then y else x.

(** [Math.round(x)]: the integer nearest to [x], a half rounding towards
    positive infinity; zeros, infinities and NaN are returned as they
    are, and so is a number without fractional bits *)
Definition round (x : spec_float) : spec_float :=
  match x with
  | S754_finite s m e =>
      if 0 <=? e then x
      else
        let n := if s then Z.neg m else Z.pos m in
        let r := (2 * n + 2 ^ (- e)) / 2 ^ (1 - e) in
        if (r =? 0) && s then S754_zero true else of_Z r
  | _ => x
  end.
End Double.

(** ** calculateRiskScore (dashboard) *)

(** [summary?.k || 0] for a severity property [k] *)
Definition severityCount (summary : js AlertSummary) (k : string) : Z :=
  match summary with
  | val s => default 0 (severity s !! k)
  | _ => 0
  end.

(** [summary?.total || 0] *)
Definition totalOf (summary : js AlertSummary) : Z :=
  match summary with
  | val s => total s
  | _ => 0
  end.

(** [summary?.aging?.averageAge || 0] *)
Definition averageAgeOf (summary : js AlertSummary) : Z :=
  match summary with
  | val s => match aging s with
             | Some a => averageAge a
             | None => 0
             end
  | _ => 0
  end.

Definition baseScoreOf (vulns : VulnerabilityBundle) : Z :=
  let cs := codeScanning vulns in
  let dep := dependabot vulns in
  let critical := severityCount cs "critical" + severityCount dep "critical" in
  let high := severityCount cs "high" + severityCount dep "high" in
  let medium := severityCount cs "medium" + severityCount dep "medium" in
  let low := severityCount cs "low" + severityCount dep "low" in
  let info := severityCount cs "info" + severityCount dep "info" in
  let secrets := totalOf (secretScanning vulns) in
  critical * 10 + high * 7 + medium * 4 + low * 2 + info * 1 + secrets * 5.

(** [Math.max(sastAge, scaAge, secretsAge)] *)
Definition maxAgeOf (vulns : VulnerabilityBundle) : Z :=
  Z.max (Z.max (averageAgeOf (codeScanning vulns))
               (averageAgeOf (dependabot vulns)))
        (averageAgeOf (secretScanning vulns)).

(** [1.0 + (maxAge / 60)] capped by [Math.min(_, 3.0)] *)
Definition scaledAge (maxAge : Z) : spec_float :=
  Double.min
    (Double.add (Double.of_Z 1) (Double.div (Double.of_Z maxAge) (Double.of_Z 60)))
    (Double.of_Z 3).

Definition ageMultiplierOf (maxAge : Z) : spec_float :=
  if 0 <? maxAge then scaledAge maxAge else Double.of_Z 1.

Definition calculateRiskScore (repo : RepositoryRecord) : spec_float :=
  match vulnerabilities repo with
  | val vulns =>
      Double.round
        (Double.mul (Double.of_Z (baseScoreOf vulns))
                    (ageMultiplierOf (maxAgeOf vulns)))
  | _ => Double.of_Z 0
  end.

(** ** Predicates and devices used in the statements and proofs *)

(** The alert has a creation date and its age in days at [now] falls in
    bucket [b] *)
Definition agedIn (now : Z) (b : string) (a : Alert) : bool :=
  match created_at a with
  | Some created => String.eqb (ageBucket (daysBetween created now)) b
  | None => false
  end.

(** The label of an open alert is missing, empty, or not one of the five
    severity words once lowercased *)
Definition unrecognised (raw : js string) : bool :=
  negb (includes SEVERITIES (toLowerCase (jsor_default raw ""))).

(** The four severity properties the summary objects are written with *)
Definition OPEN_SEVERITIES : list string := ["critical"; "high"; "medium"; "low"].

(** The shape shared by the summaries of the two kinds that carry a
    severity *)
Definition wellShaped (s : AlertSummary) : Prop :=
  Forall (fun k => is_Some (severity s !! k)) OPEN_SEVERITIES /\
  severity s !! "info" = None /\
  Forall (fun k => is_Some (openedLast30DaysBySeverity s !! k)) SEVERITIES /\
  Forall (fun k => is_Some (closedLast30DaysBySeverity s !! k)) SEVERITIES /\
  (exists a, aging s = Some a /\
             Forall (fun b => is_Some (ageBuckets a !! b)) AGE_BUCKETS) /\
  is_Some (mttr s) /\
  enabled s = true.

(** The answer to the request for page [p] ends the paging loop: it is not
    an array of exactly [PER_PAGE] alerts *)
Definition lastPage (request : nat -> HttpError + Body) (p : nat) : bool :=
  match request p with
  | inr (Array response) => negb (Nat.eqb (length response) PER_PAGE)
  | _ => true
  end.

(** For each of the states, one of the first [fuel] pages ends the loop *)
Definition settlesWithin (fuel : nat) (endpoint : Endpoint)
    (states : list string) : Prop :=
  Forall (fun st => exists n, (n < fuel)%nat /\
                              lastPage (endpoint st) (1 + n) = true) states.

(** The record writes [environmentType] and [vertical] as strings, as
    every record built by [enrichRepository] does *)
Definition stringFields (r : RepositoryRecord) : Prop :=
  (exists e, environmentType r = val e) /\ (exists v, vertical r = val v).

(** The repositories a run persists: merge, then de-duplication *)
Definition persisted (githubData existingRepos : list RepositoryRecord)
  : list RepositoryRecord :=
  uniqueReposOf (mergeWithOwnership githubData existingRepos).

(** The last record of a list that has key [k]: what [existingMap.get(k)]
    returns after the [forEach] has run over the list *)
Fixpoint lastByKey (k : string) (l : list RepositoryRecord)
  : option RepositoryRecord :=
  match l with
  | [] => None
  | r :: l' =>
      match lastByKey k l' with
      | Some x => Some x
      | None => if String.eqb (repoKey r) k then Some r else None
      end
  end.

(** The keys of a [Map] after [set(k, _)] *)
Fixpoint setKey (k : string) (ks : list string) : list string :=
  match ks with
  | [] => [k]
  | k' :: ks' => if String.eqb k' k then k' :: ks' else k' :: setKey k ks'
  end.

(** ** The risk score as the specification words it *)

(** [critical×10 + high×7 + medium×4 + low×2 + info×1] of one summary *)
Definition weightedSeverity (summary : js AlertSummary) : Z :=
  severityCount summary "critical" * 10 + severityCount summary "high" * 7 +
  severityCount summary "medium" * 4 + severityCount summary "low" * 2 +
  severityCount summary "info" * 1.

Definition specBaseScore (vulns : VulnerabilityBundle) : Z :=
  weightedSeverity (codeScanning vulns) + weightedSeverity (dependabot vulns) +
  totalOf (secretScanning vulns) * 5.

(** [round(baseScore × min(1.0 + max(averageAge)/60, 3.0))], for every
    bundle *)
Definition specRiskScore (vulns : VulnerabilityBundle) : spec_float :=
  Double.round
    (Double.mul (Double.of_Z (specBaseScore vulns)) (scaledAge (maxAgeOf vulns))).

(** ** Sample data *)

Definition noDates (st : string) (r : js Rule) (adv : js string) : Alert :=
  {| state := st; created_at := None; updated_at := undefined;
     closed_at := None; dismissed_at := None; fixed_at := None;
     resolved_at := None; rule := r; advisory_severity := adv;
     package_ecosystem := undefined; secret_type := undefined |}.

(** An open code-scanning alert without a rule, and one whose rule carries
    the tool's own level *)
Definition unlabelledAlert : Alert := noDates "open" undefined undefined.
Definition warningAlert : Alert :=
  noDates "open"
    (val {| security_severity_level := null; rule_severity := val "warning" |})
    (val "moderate").

Definition httpError (c : Z) : HttpError :=
  {| statusCode := Some c; message := "GitHub API error" |}.

(** An endpoint that rejects every request with one error, and one that
    has no alert in any state *)
Definition answering (e : HttpError) : Endpoint := fun _ _ => inl e.
Definition noAlerts : Endpoint := fun _ _ => inr (Array []).

Definition sampleRepo : GithubRepo :=
  {| owner_login := "engineering"; name := "api-service" |}.

Definition detailedSample (isArchived : bool) : DetailedRepo :=
  {| archived := isArchived; disabled := false;
     repo_description := val "API service"; repo_language := val "Go";
     repo_updated_at := val "2024-01-15T10:00:00Z";
     html_url := val "https://github.com/engineering/api-service";
     stargazers_count := val 3; forks_count := val 1;
     open_issues_count := val 0;
     repo_created_at := val "2020-05-01T08:00:00Z";
     pushed_at := val "2024-01-14T09:00:00Z";
     default_branch := val "main";
     repo_topics := val []; custom_properties := undefined |}.

(** What the API answers for [sampleRepo]: [d] on the metadata request,
    no custom properties, no CODEOWNERS file, and the three alert
    endpoints all behaving as [alertsEndpoint] *)
Definition apiSample (d : HttpError + DetailedRepo) (alertsEndpoint : Endpoint)
  : RepoApi :=
  {| details := d; properties := inl (httpError 404);
     contents := fun _ => false;
     codeScanningApi := alertsEndpoint;
     dependabotApi := alertsEndpoint;
     secretScanningApi := alertsEndpoint |}.

(** A dependency summary with five critical open alerts *)
Definition fiveCritical : AlertSummary :=
  {| total := 5;
     severity := <["critical" := 5]> zeroOpenCounts;
     ecosystems := Some ["npm"]; secretTypes := None;
     openedLast30Days := 0; closedLast30Days := 0;
     openedLast30DaysBySeverity := zeroBySeverity;
     closedLast30DaysBySeverity := zeroBySeverity;
     aging := Some {| oldestAge := 40; averageAge := 40;
                      ageBuckets := <["31-90" := 5]> zeroAgeBuckets |};
     mttr := Some 0; lastUpdated := val "2024-01-10T00:00:00Z";
     enabled := true |}.

Definition priorBundle : VulnerabilityBundle :=
  {| codeScanning := val disabledCodeScanning;
     dependabot := val fiveCritical;
     secretScanning := val disabledSecretScanning |}.

(** The persisted record of [sampleRepo], with curated ownership *)
Definition priorRecord : RepositoryRecord :=
  {| organization := "engineering"; repository := "api-service";
     pod := val "Core-Backend"; environmentType := val "Prod";
     vertical := val "Core";
     description := val "Old description"; language := val "Go";
     status := val "active"; lastActivity := val "2023-12-01";
     githubUrl := val "https://github.com/engineering/api-service";
     engineeringManager := val "John";
     codeowners := val true;
     vulnerabilities := val priorBundle;
     _metadata := undefined |}.

Definition disabledBundle : VulnerabilityBundle :=
  {| codeScanning := val disabledCodeScanning;
     dependabot := val disabledDependabot;
     secretScanning := val disabledSecretScanning |}.

Definition orgSample (api : RepoApi) : OrgApi :=
  {| org_name := "engineering"; listing := inr [(sampleRepo, api)] |}.

(** The record enrichment builds for [sampleRepo] when its metadata is
    [detailedSample false], no alert exists, and the pod found is [p] with
    vertical [v] *)
Definition freshWithPod (p v : string) : RepositoryRecord :=
  {| organization := "engineering"; repository := "api-service";
     pod := val p; environmentType := val ""; vertical := val v;
     description := val "API service"; language := val "Go";
     status := val "active"; lastActivity := val "2024-01-15";
     githubUrl := val "https://github.com/engineering/api-service";
     engineeringManager := undefined;
     codeowners := val false;
     vulnerabilities :=
       val {| codeScanning := val (summarizeCodeScanning [] 0 0);
              dependabot := val (summarizeDependabot [] 0 0);
              secretScanning := val (summarizeSecretScanning [] 0 0) |};
     _metadata :=
       val {| stars := val 3; forks := val 1; openIssues := val 0;
              createdAt := val "2020-05-01T08:00:00Z";
              pushedAt := val "2024-01-14T09:00:00Z";
              defaultBranch := val "main"; topics := [] |} |}.

(** No pod found *)
Definition freshSample : RepositoryRecord := freshWithPod NO_POD "".

(** The same repository seen with a pod set *)
Definition freshAssigned : RepositoryRecord := freshWithPod "Core-Backend" "Core".

(** The API answers for [sampleRepo] with the custom property Pod set *)
Definition apiWithPod : RepoApi :=
  {| details := inr (detailedSample false);
     properties := inr (PropsArray [(val "Pod", val "Core-Backend")]);
     contents := fun _ => false;
     codeScanningApi := noAlerts;
     dependabotApi := noAlerts;
     secretScanningApi := noAlerts |}.

(** A summary with one critical open alert whose recorded average age is
    [age] days *)
Definition oneCritical (age : Z) : AlertSummary :=
  {| total := 1;
     severity := <["critical" := 1]> zeroOpenCounts;
     ecosystems := None; secretTypes := None;
     openedLast30Days := 1; closedLast30Days := 0;
     openedLast30DaysBySeverity := <["critical" := 1]> zeroBySeverity;
     closedLast30DaysBySeverity := zeroBySeverity;
     aging := Some {| oldestAge := 0; averageAge := age;
                      ageBuckets := <["0-7" := 1]> zeroAgeBuckets |};
     mttr := Some 0; lastUpdated := null; enabled := true |}.

(** A summary without open alerts whose recorded average age is [age] *)
Definition noneOpen (age : Z) : AlertSummary :=
  {| total := 0; severity := ∅;
     ecosystems := None; secretTypes := None;
     openedLast30Days := 0; closedLast30Days := 0;
     openedLast30DaysBySeverity := zeroBySeverity;
     closedLast30DaysBySeverity := zeroBySeverity;
     aging := Some {| oldestAge := 0; averageAge := age;
                      ageBuckets := zeroAgeBuckets |};
     mttr := Some 0; lastUpdated := null; enabled := true |}.

(** Every average age is 30 days in the future *)
Definition skewedBundle : VulnerabilityBundle :=
  {| codeScanning := val (oneCritical (-30));
     dependabot := val (noneOpen (-30));
     secretScanning := val (noneOpen (-30)) |}.

Definition skewedRecord : RepositoryRecord :=
  {| organization := "engineering"; repository := "api-service";
     pod := val "Core-Backend"; environmentType := val "Prod";
     vertical := val "Core";
     description := val ""; language := val "Go";
     status := val "active"; lastActivity := null;
     githubUrl := undefined; engineeringManager := val "John";
     codeowners := val true;
     vulnerabilities := val skewedBundle;
     _metadata := undefined |}.

(** A dependency alert in state [st], created at [created], dismissed at
    [closed], with advisory severity [label] *)
Definition alertAt (st : string) (created : Z) (closed : option Z)
    (label : string) : Alert :=
  {| state := st; created_at := Some created;
     updated_at := val "2024-03-01T00:00:00Z";
     closed_at := None; dismissed_at := closed; fixed_at := None;
     resolved_at := None; rule := undefined; advisory_severity := val label;
     package_ecosystem := val "npm"; secret_type := undefined |}.

(** A clock reading, in milliseconds, and the instant [d] days and [ms]
    milliseconds before it *)
Definition sampleNow : Z := 1709251200000.
Definition daysAgo (d ms : Z) : Z := sampleNow - d * MS_PER_DAY - ms.

(** An endpoint with 101 open alerts: a full first page, one alert on the
    second *)
Definition twoPages : Endpoint :=
  fun st page =>
    if String.eqb st "open" then
      match page with
      | 1%nat => inr (Array (repeat (alertAt "open" (daysAgo 3 0) None "high") 100))
      | 2%nat => inr (Array [alertAt "open" (daysAgo 40 0) None "LOW"])
      | _ => inr (Array [])
      end
    else inr (Array []).

(** ** Devices of the further properties *)

(** The answer of a hosting API that holds the alerts [l] of one state and
    serves them [PER_PAGE] at a time: page [p] starts at position
    [(p - 1) * PER_PAGE] *)
Definition pageOf (l : list Alert) (p : nat) : HttpError + Body :=
  inr (Array (take PER_PAGE (drop ((p - 1) * PER_PAGE) l))).

(** An endpoint that serves, for each state, the alerts [byState] gives *)
Definition serving (byState : string -> list Alert) : Endpoint :=
  fun st p => pageOf (byState st) p.

(** The alerts [l] under state 'open', none under the other states *)
Definition openOnly (l : list Alert) : string -> list Alert :=
  fun st => if String.eqb st "open" then l else [].

Definition manyOpen : list Alert :=
  repeat (alertAt "open" (daysAgo 3 0) None "high") 101.




(** The lowercased label of the alert is the word [w]; it is none of the
    four words the open counts are taken for *)
Definition labelled (label : Alert -> js string) (w : string) (a : Alert) : bool :=
  String.eqb (toLowerCase (jsor_default (label a) "")) w.

Definition outsideFour (label : Alert -> js string) (a : Alert) : bool :=
  negb (includes OPEN_SEVERITIES (toLowerCase (jsor_default (label a) ""))).

(** The alert carries no creation date *)
Definition undated (a : Alert) : bool :=
  match created_at a with
  | Some _ => false
  | None => true
  end.

(** The recorded closing date of the alert lies before its creation date *)
Definition skewed (closing : Alert -> option Z) (a : Alert) : bool :=
  match created_at a, closing a with
  | Some created, Some closed => closed <? created
  | _, _ => false
  end.

(** The secret type under which the alert is counted is [t] *)
Definition secretTyped (t : string) (a : Alert) : bool :=
  String.eqb (jsor_default (secret_type a) "unknown") t.

(** Two summaries agree on every number: on all fields but [lastUpdated]
    and the order of [ecosystems] *)
Definition sameNumbers (s s' : AlertSummary) : Prop :=
  total s = total s' /\ severity s = severity s' /\
  secretTypes s = secretTypes s' /\
  openedLast30Days s = openedLast30Days s' /\
  closedLast30Days s = closedLast30Days s' /\
  openedLast30DaysBySeverity s = openedLast30DaysBySeverity s' /\
  closedLast30DaysBySeverity s = closedLast30DaysBySeverity s' /\
  aging s = aging s' /\ mttr s = mttr s' /\ enabled s = enabled s'.

(** An organization whose authentication or repository listing fails *)
Definition failingOrg (e : HttpError) : OrgApi :=
  {| org_name := "platform"; listing := inl e |}.

(** The store [new Map(entries)] builds from the records of a list *)
Definition storeOf (mergedRepos : list RepositoryRecord)
  : list (string * RepositoryRecord) :=
  foldl (fun m repo => mapSet (repoKey repo) repo m) [] mergedRepos.

(** ** calculateAverageAge and the security filters (dashboard) *)

(** [if (summary?.aging?.averageAge) ages.push(summary.aging.averageAge)] *)
Definition pushAge (summary : js AlertSummary) (ages : list Z) : list Z :=
  if truthy (averageAgeOf summary)
  then (ages ++ [averageAgeOf summary])%list
  else ages.

(** [ages.reduce((a, b) => a + b, 0)] *)
Definition sumAges (ages : list Z) : Z := foldl Z.add 0 ages.

Definition agesOf (vulns : VulnerabilityBundle) : list Z :=
  pushAge (secretScanning vulns)
    (pushAge (dependabot vulns) (pushAge (codeScanning vulns) [])).

Definition calculateAverageAge (repo : RepositoryRecord) : js Z :=
  match vulnerabilities repo with
  | val vulns =>
      let ages := agesOf vulns in
      if len ages =? 0 then null
      else val (round_div (sumAges ages) (len ages))
  | _ => null
  end.

(** [this.activeFilters.securityFilters] *)
Module Filters.
Record t := mk {
  critical : bool;
  high : bool;
  medium : bool;
  codeql : bool;
  dependabot : bool;
  secrets : bool;
  secure : bool
}.
End Filters.

(** The predicate of the filters [critical], [high] and [medium]:
    [((codeScanning.k || 0) + (dependabot.k || 0)) > 0] *)
Definition hasSeverity (k : string) (r : RepositoryRecord) : bool :=
  match vulnerabilities r with
  | val vulns =>
      0 <? severityCount (codeScanning vulns) k + severityCount (dependabot vulns) k
  | _ => false
  end.

(** The predicate of the filters [codeql], [dependabot] and [secrets]:
    [if (!vulns || !vulns.kind) return false; return (vulns.kind.total || 0) > 0] *)
Definition hasAlerts (kind : VulnerabilityBundle -> js AlertSummary)
    (r : RepositoryRecord) : bool :=
  match vulnerabilities r with
  | val vulns => js_truthy (kind vulns) && (0 <? totalOf (kind vulns))
  | _ => false
  end.

(** The predicate of the filter [secure] *)
Definition isSecure (r : RepositoryRecord) : bool :=
  match vulnerabilities r with
  | val vulns =>
      (totalOf (codeScanning vulns) =? 0) &&
      (totalOf (dependabot vulns) =? 0) &&
      (totalOf (secretScanning vulns) =? 0)
  | _ => true
  end.

(** [if (on) filtered = filtered.filter(p)] *)
Definition keepIf (on : bool) (p : RepositoryRecord -> bool)
    (filtered : list RepositoryRecord) : list RepositoryRecord :=
  if on then List.filter p filtered else filtered.

(** The security filters of [applyFilters], in the order of the code *)
Definition applySecurityFilters (f : Filters.t)
    (filtered : list RepositoryRecord) : list RepositoryRecord :=
  let filtered := keepIf (Filters.critical f) (hasSeverity "critical") filtered in
  let filtered := keepIf (Filters.high f) (hasSeverity "high") filtered in
  let filtered := keepIf (Filters.medium f) (hasSeverity "medium") filtered in
  let filtered := keepIf (Filters.codeql f) (hasAlerts codeScanning) filtered in
  let filtered := keepIf (Filters.dependabot f) (hasAlerts dependabot) filtered in
  let filtered := keepIf (Filters.secrets f) (hasAlerts secretScanning) filtered in
  keepIf (Filters.secure f) isSecure filtered.

(** A record passes every filter that is switched on *)
Definition passes (f : Filters.t) (r : RepositoryRecord) : bool :=
  implb (Filters.critical f) (hasSeverity "critical" r) &&
  implb (Filters.high f) (hasSeverity "high" r) &&
  implb (Filters.medium f) (hasSeverity "medium" r) &&
  implb (Filters.codeql f) (hasAlerts codeScanning r) &&
  implb (Filters.dependabot f) (hasAlerts dependabot r) &&
  implb (Filters.secrets f) (hasAlerts secretScanning r) &&
  implb (Filters.secure f) (isSecure r).

(** Only the filters [codeql] and [secure] switched on *)
Definition codeqlAndSecure : Filters.t :=
  {| Filters.critical := false; Filters.high := false; Filters.medium := false;
     Filters.codeql := true; Filters.dependabot := false;
     Filters.secrets := false; Filters.secure := true |}.

(** In a summary no severity count is negative or larger than the total *)
Definition countsWithinTotal (s : AlertSummary) : Prop :=
  forall k, 0 <= severityCount (val s) k <= total s.

(** ** fetchOrganizationRepos and waitForRateLimit *)

(** What the request for one page of an organization's repositories gives:
    a parsed body with the response's [link] header, or the message of the
    error it rejects with ([GitHub API error: <status>], or that of the
    JSON parser or of the socket) *)
Inductive ListingBody (A : Type) :=
  | ReposPage (response : list A) (link : js string)
  | NotRepos.
Arguments ReposPage {A}.
Arguments NotRepos {A}.

Definition dquote : ascii := ascii_of_nat 34.

(** The text [rel=] followed by the word next in double quotes *)
Definition REL_NEXT : string :=
  String.append "rel=" (String dquote (String.append "next" (String dquote ""))).

(** The [while (hasMore)] loop, from [page] on, [repos] holding what the
    pages before gave.  The errors built here carry a message only. *)
Fixpoint fetchOrganizationRepos {A} (fuel : nat)
    (request : nat -> string + ListingBody A) (page : nat) (repos : list A)
  : outcome (list A) :=
  match fuel with
  | O => Pending
  | S fuel' =>
      match request page with
      | inr (ReposPage response link) =>
          let repos' := (repos ++ response)%list in
          if includes_str REL_NEXT (jsor_default link "")
          then fetchOrganizationRepos fuel' request (S page) repos'
          else Resolved repos'
      | inr NotRepos => Resolved repos
      | inl msg =>
          if includes_str "404" msg then Resolved repos
          else Rejected {| statusCode := None; message := msg |}
      end
  end.

Record RateLimitState := mkRateLimitState {
  remaining : Z;
  resetAt : Z;
  requestsThisMinute : Z;
  lastRequestTime : Z
}.

Definition requestsPerMinute : Z := 200.
Definition minDelayBetweenRequests : Z := 200.

(** One call of [waitForRateLimit] that no other call interleaves with:
    [now] is the first reading of the clock and [later] the one stored at
    the end.  Returns the durations slept, in order, and the state left. *)
Definition waitForRateLimit (st : RateLimitState) (now later : Z)
  : list Z * RateLimitState :=
  let count1 :=
    if 60000 <? now - lastRequestTime st then 0 else requestsThisMinute st in
  let waitTime := 60000 - (now - (lastRequestTime st - 60000)) in
  let minuteWait := (requestsPerMinute <=? count1) && (0 <? waitTime) in
  let count2 := if minuteWait then 0 else count1 in
  let timeSinceLastRequest := now - lastRequestTime st in
  let sleeps :=
    ((if minuteWait then [waitTime] else []) ++
     (if timeSinceLastRequest <? minDelayBetweenRequests
      then [minDelayBetweenRequests - timeSinceLastRequest] else []))%list in
  (sleeps,
   {| remaining := remaining st;
      resetAt := resetAt st;
      requestsThisMinute := count2 + 1;
      lastRequestTime := later |}).

(** A listing that serves the pages [pages] from page [start] on, each
    with a link to the next, and then answers [after] *)
Definition listingOf {A} (start : nat) (pages : list (list A))
    (after : string + ListingBody A)
  : nat -> string + ListingBody A :=
  fun page =>
    match pages !! (page - start)%nat with
    | Some items =>
        if (start <=? page)%nat then inr (ReposPage items (val REL_NEXT))
        else after
    | None => after
    end.

(** * Properties *)

(** ** Age buckets *)

Lemma agingStep_buckets now acc a b :
  acc_buckets (agingStep now acc a) !! b =
  (fun n => if agedIn now b a then Z.succ n else n) <$> acc_buckets acc !! b.
Proof.
  unfold agingStep, agedIn, incr.
  destruct (created_at a) as [created|]; cbn.
  - rewrite lookup_alter.
    destruct (String.eqb_spec (ageBucket (daysBetween created now)) b) as [->|Hne].
    + rewrite decide_True by done. done.
    + rewrite decide_False by done. by destruct (acc_buckets acc !! b).
  - by destruct (acc_buckets acc !! b).
Qed.

Lemma aging_fold_buckets now alerts : forall acc b,
  acc_buckets (foldl (agingStep now) acc alerts) !! b =
  (fun n => n + len (List.filter (agedIn now b) alerts)) <$> acc_buckets acc !! b.
Proof.
  induction alerts as [|a alerts IH]; intros acc b; cbn [foldl List.filter].
  - destruct (acc_buckets acc !! b); cbn; [f_equal; unfold len; cbn; lia | done].
  - rewrite IH, agingStep_buckets.
    destruct (acc_buckets acc !! b) as [n|]; cbn; [|done].
    f_equal. destruct (agedIn now b a); unfold len; cbn [length]; lia.
Qed.

Lemma zeroAgeBuckets_lookup b :
  b ∈ AGE_BUCKETS -> zeroAgeBuckets !! b = Some 0.
Proof.
  unfold AGE_BUCKETS. rewrite !elem_of_cons, elem_of_nil.
  intros [->|[->|[->|[->|[->|[]]]]]]; reflexivity.
Qed.

Lemma agingOf_bucket_count now alerts b :
  b ∈ AGE_BUCKETS ->
  ageBuckets (agingOf now alerts) !! b =
  Some (len (List.filter (agedIn now b) alerts)).
Proof.
  intros Hb. unfold agingOf. cbn [ageBuckets].
  rewrite aging_fold_buckets. cbn [acc_buckets].
  rewrite (zeroAgeBuckets_lookup b Hb). cbn. f_equal.
Qed.

(** C9. An age of exactly 7, 30, 90 or 180 days selects '0-7', '8-30',
    '31-90', '91-180'; every age within a bucket's bounds selects that
    bucket and every age from 181 days on selects '180+'.  In the summary
    of each alert kind the count stored under a bucket is the number of
    open alerts with a creation date whose age selects that bucket. *)
Theorem age_bucket_boundaries :
  ageBucket 7 = "0-7" /\ ageBucket 30 = "8-30" /\
  ageBucket 90 = "31-90" /\ ageBucket 180 = "91-180" /\
  ageBucket 8 = "8-30" /\ ageBucket 31 = "31-90" /\
  ageBucket 91 = "91-180" /\ ageBucket 181 = "180+" /\
  (forall n : nat, ageBucket (7 - Z.of_nat n) = "0-7") /\
  (forall n : nat, ageBucket (181 + Z.of_nat n) = "180+") /\
  Forall (fun d => ageBucket d = "8-30") (seqZ 8 23) /\
  Forall (fun d => ageBucket d = "31-90") (seqZ 31 60) /\
  Forall (fun d => ageBucket d = "91-180") (seqZ 91 90) /\
  forall (alerts : list Alert) (thirtyDaysAgo now : Z),
    Forall (fun summary =>
      exists a, aging summary = Some a /\
        Forall (fun b =>
          ageBuckets a !! b =
          Some (len (List.filter (agedIn now b)
                       (List.filter (stateIs "open") alerts))))
          AGE_BUCKETS)
      [summarizeCodeScanning alerts thirtyDaysAgo now;
       summarizeDependabot alerts thirtyDaysAgo now;
       summarizeSecretScanning alerts thirtyDaysAgo now].
Proof.
  repeat split; try reflexivity.
  - intros n. unfold ageBucket.
    destruct (Z.leb_spec (7 - Z.of_nat n) 7); [done | lia].
  - intros n. unfold ageBucket.
    repeat match goal with
           | |- context [?x <=? ?y] => destruct (Z.leb_spec x y); [lia|]
           end.
    done.
  - by vm_compute; repeat constructor.
  - by vm_compute; repeat constructor.
  - by vm_compute; repeat constructor.
  - intros alerts thirtyDaysAgo now.
    repeat apply Forall_cons_2; try apply Forall_nil_2;
      (eexists; split; [reflexivity|]);
      apply Forall_forall; intros b Hb; by apply agingOf_bucket_count.
Qed.

(** ** Shape of the summaries *)

Lemma deltaStep_keys label closing t30 acc a k :
  (is_Some (fst (deltaStep label closing t30 acc a) !! k) <-> is_Some (fst acc !! k)) /\
  (is_Some (snd (deltaStep label closing t30 acc a) !! k) <-> is_Some (snd acc !! k)).
Proof.
  unfold deltaStep, incr; cbn [fst snd]. split.
  - destruct (created_at a) as [c|]; [|done].
    destruct (t30 <=? c); [apply lookup_alter_is_Some | done].
  - destruct (closing a) as [c|]; [|done].
    destruct (t30 <=? c); [apply lookup_alter_is_Some | done].
Qed.

Lemma delta_fold_keys label closing t30 alerts : forall acc k,
  (is_Some (fst (foldl (deltaStep label closing t30) acc alerts) !! k)
     <-> is_Some (fst acc !! k)) /\
  (is_Some (snd (foldl (deltaStep label closing t30) acc alerts) !! k)
     <-> is_Some (snd acc !! k)).
Proof.
  induction alerts as [|a alerts IH]; intros acc k; cbn [foldl]; [done|].
  destruct (IH (deltaStep label closing t30 acc a) k) as [H1 H2].
  destruct (deltaStep_keys label closing t30 acc a k) as [H3 H4].
  split; etrans; eauto.
Qed.

Lemma zeroBySeverity_keys k : k ∈ SEVERITIES -> is_Some (zeroBySeverity !! k).
Proof.
  unfold SEVERITIES. rewrite !elem_of_cons, elem_of_nil.
  intros [->|[->|[->|[->|[->|[]]]]]]; by eexists.
Qed.

Lemma openSeverityCounts_keys label openAlerts k :
  k ∈ OPEN_SEVERITIES -> is_Some (openSeverityCounts label openAlerts !! k).
Proof.
  unfold OPEN_SEVERITIES. rewrite !elem_of_cons, elem_of_nil.
  intros [->|[->|[->|[->|[]]]]]; by eexists.
Qed.

Lemma openSeverityCounts_info label openAlerts :
  openSeverityCounts label openAlerts !! "info" = None.
Proof. reflexivity. Qed.

Lemma agingOf_keys now alerts b :
  b ∈ AGE_BUCKETS -> is_Some (ageBuckets (agingOf now alerts) !! b).
Proof. intros Hb. rewrite agingOf_bucket_count by done. by eexists. Qed.

Lemma summarizeCodeScanning_shape alerts t30 now :
  wellShaped (summarizeCodeScanning alerts t30 now).
Proof.
  unfold wellShaped, summarizeCodeScanning; cbn.
  split_and!; try done.
  - apply Forall_forall; intros k Hk. by apply openSeverityCounts_keys.
  - apply Forall_forall; intros k Hk.
    apply delta_fold_keys. by apply zeroBySeverity_keys.
  - apply Forall_forall; intros k Hk.
    apply delta_fold_keys. by apply zeroBySeverity_keys.
  - eexists; split; [reflexivity|].
    apply Forall_forall; intros b Hb. by apply agingOf_keys.
Qed.

Lemma summarizeDependabot_shape alerts t30 now :
  wellShaped (summarizeDependabot alerts t30 now).
Proof.
  unfold wellShaped, summarizeDependabot; cbn.
  split_and!; try done.
  - apply Forall_forall; intros k Hk. by apply openSeverityCounts_keys.
  - apply Forall_forall; intros k Hk.
    apply delta_fold_keys. by apply zeroBySeverity_keys.
  - apply Forall_forall; intros k Hk.
    apply delta_fold_keys. by apply zeroBySeverity_keys.
  - eexists; split; [reflexivity|].
    apply Forall_forall; intros b Hb. by apply agingOf_keys.
Qed.

(** C6, as stated, fails: the summary of the empty code-scanning list has
    no count under 'info' among its severity properties. *)
Lemma zero_fill_info_absent :
  ~ Forall (fun k => is_Some (severity (summarizeCodeScanning [] 0 0) !! k))
      SEVERITIES.
Proof.
  intros H. rewrite Forall_forall in H.
  destruct (H "info") as [x Hx]; [unfold SEVERITIES; set_solver|].
  unfold summarizeCodeScanning in Hx; cbn [severity] in Hx.
  rewrite openSeverityCounts_info in Hx. discriminate.
Qed.

(** C6, amended. For every alert list the summary of a kind that carries a
    severity holds the open counts 'critical', 'high', 'medium' and 'low'
    and no 'info' count; its two 30-day maps hold all five severities and
    its age map all five buckets; it is enabled.  The summary of the empty
    list has every number at 0 and every map zero-filled. *)
Theorem zero_fill_completeness :
  forall (alerts : list Alert) (thirtyDaysAgo now : Z),
    wellShaped (summarizeCodeScanning alerts thirtyDaysAgo now) /\
    wellShaped (summarizeDependabot alerts thirtyDaysAgo now) /\
    summarizeCodeScanning [] thirtyDaysAgo now =
      {| total := 0; severity := zeroOpenCounts;
         ecosystems := None; secretTypes := None;
         openedLast30Days := 0; closedLast30Days := 0;
         openedLast30DaysBySeverity := zeroBySeverity;
         closedLast30DaysBySeverity := zeroBySeverity;
         aging := Some zeroAging; mttr := Some 0;
         lastUpdated := null; enabled := true |} /\
    summarizeDependabot [] thirtyDaysAgo now =
      {| total := 0; severity := zeroOpenCounts;
         ecosystems := Some []; secretTypes := None;
         openedLast30Days := 0; closedLast30Days := 0;
         openedLast30DaysBySeverity := zeroBySeverity;
         closedLast30DaysBySeverity := zeroBySeverity;
         aging := Some zeroAging; mttr := Some 0;
         lastUpdated := null; enabled := true |}.
Proof.
  intros alerts thirtyDaysAgo now.
  split; [apply summarizeCodeScanning_shape|].
  split; [apply summarizeDependabot_shape|].
  split; reflexivity.
Qed.

(** ** Open alerts with a missing or unknown severity *)

Lemma unrecognised_not_word raw w :
  unrecognised raw = true -> w ∈ SEVERITIES ->
  String.eqb (toLowerCase (jsor_default raw "")) w = false.
Proof.
  unfold unrecognised, includes. intros Hun Hw.
  apply negb_true_iff in Hun.
  destruct (String.eqb_spec (toLowerCase (jsor_default raw "")) w) as [Heq|]; [|done].
  rewrite <- Hun. symmetry. apply existsb_exists.
  exists w. split; [by apply list_elem_of_In|]. by apply String.eqb_eq.
Qed.

Lemma countSeverity_skip label w l1 l2 a :
  unrecognised (label a) = true -> w ∈ SEVERITIES ->
  countSeverity label w (l1 ++ a :: l2) = countSeverity label w (l1 ++ l2).
Proof.
  intros Hun Hw. unfold countSeverity.
  rewrite !List.filter_app. cbn [List.filter].
  by rewrite (unrecognised_not_word _ _ Hun Hw).
Qed.

Lemma openSeverityCounts_skip label l1 l2 a :
  unrecognised (label a) = true ->
  openSeverityCounts label (l1 ++ a :: l2) = openSeverityCounts label (l1 ++ l2).
Proof.
  intros Hun. unfold openSeverityCounts.
  rewrite !(countSeverity_skip label _ l1 l2 a Hun); [done|..];
    unfold SEVERITIES; set_solver.
Qed.

Lemma severityKey_unrecognised raw :
  unrecognised raw = true -> severityKey raw = "medium".
Proof.
  unfold unrecognised, severityKey. intros Hun. apply negb_true_iff in Hun.
  destruct raw as [| |s]; cbn in *; try reflexivity.
  unfold truthy, string_truthy in *.
  destruct (String.eqb s "") eqn:Hs; cbn in *; [reflexivity|].
  by rewrite Hun.
Qed.

Lemma filter_open_insert l1 l2 a :
  state a = "open" ->
  List.filter (stateIs "open") (l1 ++ a :: l2) =
  (List.filter (stateIs "open") l1 ++ a :: List.filter (stateIs "open") l2)%list.
Proof.
  intros Hopen. rewrite List.filter_app. cbn [List.filter].
  unfold stateIs at 2. by rewrite Hopen.
Qed.

(** C7, as stated, fails: two open code-scanning alerts, one without a
    rule and one labelled 'warning', leave the 'medium' count at 0 while
    the total is 2. *)
Lemma unknown_severity_not_medium :
  let s := summarizeCodeScanning [unlabelledAlert; warningAlert] 0 0 in
  total s = 2 /\ severity s !! "medium" = Some 0 /\
  let d := summarizeDependabot [unlabelledAlert; warningAlert] 0 0 in
  total d = 2 /\ severity d !! "medium" = Some 0.
Proof. repeat split; reflexivity. Qed.

(** C7, amended. An open alert of a kind that carries a severity whose
    label is missing or not one of the five words adds one to [total] and
    changes none of the open severity counts; the default to 'medium' is
    the key under which the alert enters the 30-day maps. *)
Theorem unknown_severity_uncounted :
  forall (l1 l2 : list Alert) (a : Alert) (thirtyDaysAgo now : Z),
    state a = "open" ->
    (unrecognised (codeScanningLabel a) = true ->
     let s' := summarizeCodeScanning (l1 ++ a :: l2) thirtyDaysAgo now in
     let s := summarizeCodeScanning (l1 ++ l2) thirtyDaysAgo now in
     severity s' = severity s /\ total s' = total s + 1 /\
     severityKey (codeScanningLabel a) = "medium") /\
    (unrecognised (dependabotLabel a) = true ->
     let s' := summarizeDependabot (l1 ++ a :: l2) thirtyDaysAgo now in
     let s := summarizeDependabot (l1 ++ l2) thirtyDaysAgo now in
     severity s' = severity s /\ total s' = total s + 1 /\
     severityKey (dependabotLabel a) = "medium").
Proof.
  intros l1 l2 a thirtyDaysAgo now Hopen.
  split; intros Hun; cbn zeta;
    unfold summarizeCodeScanning, summarizeDependabot; cbn [severity total];
    rewrite filter_open_insert by done;
    rewrite List.filter_app;
    (split; [by apply openSeverityCounts_skip|]);
    (split; [|by apply severityKey_unrecognised]);
    unfold len; rewrite !length_app; cbn [length]; lia.
Qed.

Lemma unknown_severity_uncounted_witness :
  state unlabelledAlert = "open" /\
  unrecognised (codeScanningLabel unlabelledAlert) = true /\
  unrecognised (dependabotLabel unlabelledAlert) = true /\
  severity (summarizeCodeScanning [warningAlert; unlabelledAlert] 0 0) =
    severity (summarizeCodeScanning [warningAlert] 0 0) /\
  total (summarizeDependabot [warningAlert; unlabelledAlert] 0 0) =
    total (summarizeDependabot [warningAlert] 0 0) + 1.
Proof.
  pose proof (unknown_severity_uncounted [warningAlert] [] unlabelledAlert 0 0
                eq_refl) as [Hcs Hdep].
  split; [reflexivity|]. split; [reflexivity|]. split; [reflexivity|].
  split.
  - exact (proj1 (Hcs eq_refl)).
  - exact (proj1 (proj2 (Hdep eq_refl))).
Defined.

(** ** The alert fetchers *)

Lemma fetchPages_rejected fuel request : forall page alerts e,
  fetchPages fuel request page alerts = Rejected e -> is_403_or_404 e = false.
Proof.
  induction fuel as [|fuel IH]; intros page alerts e; cbn; [done|].
  destruct (request page) as [err|[response|]]; [| |done].
  - destruct (is_403_or_404 err) eqn:Hs; [done|]. by intros [= <-].
  - destruct (Nat.eqb (length response) PER_PAGE); [apply IH | done].
Qed.

Lemma fetchStates_rejected fuel endpoint states : forall alerts e,
  fetchStates fuel endpoint states alerts = Rejected e -> is_403_or_404 e = false.
Proof.
  induction states as [|st states IH]; intros alerts e; cbn; [done|].
  destruct (fetchPages fuel (endpoint st) 1 alerts) as [alerts'|err|] eqn:Hp; cbn.
  - apply IH.
  - intros [= <-]. by eapply fetchPages_rejected.
  - done.
Qed.

(** The paging loops end when the endpoint has a last page within the
    fuel. *)
Lemma fetchPages_settles n : forall fuel request page alerts,
  lastPage request (page + n) = true -> (n < fuel)%nat ->
  fetchPages fuel request page alerts <> Pending.
Proof.
  induction n as [|n IH]; intros [|fuel] request page alerts Hlast Hn;
    try lia; cbn; unfold lastPage in Hlast.
  - rewrite Nat.add_0_r in Hlast.
    destruct (request page) as [err|[response|]]; [| |done].
    + by destruct (is_403_or_404 err).
    + apply negb_true_iff in Hlast. by rewrite Hlast.
  - destruct (request page) as [err|[response|]] eqn:Hreq; [| |done].
    + by destruct (is_403_or_404 err).
    + destruct (Nat.eqb (length response) PER_PAGE); [|done].
      apply IH; [|lia]. unfold lastPage.
      by replace (S page + n)%nat with (page + S n)%nat by lia.
Qed.

Lemma fetchStates_settles fuel endpoint states : forall alerts,
  settlesWithin fuel endpoint states ->
  fetchStates fuel endpoint states alerts <> Pending.
Proof.
  induction states as [|st states IH]; intros alerts Hs; cbn; [done|].
  apply Forall_cons in Hs as [(n & Hn & Hlast) Hs].
  pose proof (fetchPages_settles n fuel (endpoint st) 1 alerts Hlast Hn) as Hp.
  destruct (fetchPages fuel (endpoint st) 1 alerts); cbn; [by apply IH|done|done].
Qed.

Lemma fetchers_settle fuel endpoint t30 now :
  settlesWithin fuel endpoint
    ["open"; "closed"; "dismissed"; "fixed"; "auto_dismissed"; "resolved"] ->
  fetchCodeScanningAlerts fuel endpoint t30 now <> Pending /\
  fetchDependabotAlerts fuel endpoint t30 now <> Pending /\
  fetchSecretScanningAlerts fuel endpoint t30 now <> Pending.
Proof.
  intros Hs. unfold settlesWithin in Hs. rewrite Forall_forall in Hs.
  unfold fetchCodeScanningAlerts, fetchDependabotAlerts,
    fetchSecretScanningAlerts.
  split_and!;
    match goal with
    | |- context [fetchStates ?f ?e ?sts ?acc] =>
        assert (Hp : fetchStates f e sts acc <> Pending)
          by (apply fetchStates_settles, Forall_forall;
              intros st Hst; apply Hs; revert Hst;
              rewrite !elem_of_cons, !elem_of_nil; tauto);
        destruct (fetchStates f e sts acc) as [?|err|]; cbn; [done| |done];
        unfold onStatusDisabled; by destruct (is_403_or_404 err)
    end.
Qed.

(** The handler for 403/404 of the outer [catch] is never taken: whatever
    the endpoint answers, a fetcher that resolves resolves with a summary
    computed from the alerts it collected, which is enabled. *)
Lemma fetchers_resolve_enabled fuel endpoint t30 now s :
  fetchCodeScanningAlerts fuel endpoint t30 now = Resolved s \/
  fetchDependabotAlerts fuel endpoint t30 now = Resolved s \/
  fetchSecretScanningAlerts fuel endpoint t30 now = Resolved s ->
  enabled s = true.
Proof.
  unfold fetchCodeScanningAlerts, fetchDependabotAlerts,
    fetchSecretScanningAlerts.
  intros [H|[H|H]];
    match type of H with
    | context [fetchStates ?f ?e ?sts ?acc] =>
        pose proof (fetchStates_rejected f e sts acc) as Hrej;
        destruct (fetchStates f e sts acc) as [alerts|err|]; cbn in H
    end;
    try discriminate;
    try (injection H as <-; reflexivity);
    unfold onStatusDisabled in H; rewrite (Hrej err eq_refl) in H; discriminate.
Qed.

(** C1 (code defect). When the alert-list endpoint answers every request
    with 403, or with 404, each fetcher resolves with the summary of the
    empty alert list: every number is 0 but [enabled] is true, not the
    disabled summary that the outer handler was written to return. *)
Theorem forbidden_endpoint_summary_enabled :
  forall (fuel : nat) (thirtyDaysAgo now : Z),
    Forall (fun e =>
      fetchCodeScanningAlerts (S fuel) (answering e) thirtyDaysAgo now =
        Resolved (summarizeCodeScanning [] thirtyDaysAgo now) /\
      fetchDependabotAlerts (S fuel) (answering e) thirtyDaysAgo now =
        Resolved (summarizeDependabot [] thirtyDaysAgo now) /\
      fetchSecretScanningAlerts (S fuel) (answering e) thirtyDaysAgo now =
        Resolved (summarizeSecretScanning [] thirtyDaysAgo now))
      [httpError 403; httpError 404] /\
    enabled (summarizeCodeScanning [] thirtyDaysAgo now) = true /\
    enabled (summarizeDependabot [] thirtyDaysAgo now) = true /\
    enabled (summarizeSecretScanning [] thirtyDaysAgo now) = true /\
    enabled disabledCodeScanning = false.
Proof.
  intros fuel thirtyDaysAgo now.
  split; [|by repeat split].
  repeat apply Forall_cons_2; try apply Forall_nil_2; by repeat split.
Qed.

(** ** enrichRepository *)

Lemma orFallback_settles fetched fallback :
  fetched <> Pending ->
  exists s, orFallback fetched fallback = Resolved s.
Proof. intros Hp. destruct fetched as [s0|e|]; cbn; [by eexists|by eexists|done]. Qed.

(** What a record returned by [enrichRepository] looks like *)
Lemma enrichRepository_Some fuel repo api t30 now fresh :
  enrichRepository fuel repo api t30 now = Resolved (Some fresh) ->
  exists d cs dep sec,
    details api = inr d /\ archived d = false /\
    orFallback (fetchCodeScanningAlerts fuel (codeScanningApi api) t30 now)
      disabledCodeScanning = Resolved cs /\
    orFallback (fetchDependabotAlerts fuel (dependabotApi api) t30 now)
      disabledDependabot = Resolved dep /\
    orFallback (fetchSecretScanningAlerts fuel (secretScanningApi api) t30 now)
      disabledSecretScanning = Resolved sec /\
    organization fresh = owner_login repo /\
    repository fresh = name repo /\
    status fresh = val (if disabled d then "deprecated" else "active") /\
    engineeringManager fresh = undefined /\
    vulnerabilities fresh =
      val {| codeScanning := val cs; dependabot := val dep;
             secretScanning := val sec |} /\
    (exists p, pod fresh = val p /\ p <> "") /\
    (exists e, environmentType fresh = val e) /\
    (exists v, vertical fresh = val v) /\
    (exists b, codeowners fresh = val b).
Proof.
  unfold enrichRepository.
  destruct (details api) as [err|d]; cbn; [done|].
  destruct (archived d) eqn:Harch; cbn; [done|].
  destruct (orFallback (fetchCodeScanningAlerts _ _ _ _) _) as [cs|?|]; cbn;
    [|done|done].
  destruct (orFallback (fetchDependabotAlerts _ _ _ _) _) as [dep|?|]; cbn;
    [|done|done].
  destruct (orFallback (fetchSecretScanningAlerts _ _ _ _) _) as [sec|?|]; cbn;
    [|done|done].
  intros [= <-]. exists d, cs, dep, sec. cbn.
  split_and!; try done; try (by eexists).
  eexists; split; [reflexivity|].
  destruct (fst (resolvePod _ _ _)) as [| |p]; cbn; try done.
  unfold truthy, string_truthy.
  destruct (String.eqb_spec p ""); cbn; done.
Qed.

Lemma enrichRepository_not_rejected fuel repo api t30 now e :
  enrichRepository fuel repo api t30 now <> Rejected e.
Proof.
  unfold enrichRepository, try_catch.
  destruct (await _ _); congruence.
Qed.

(** Enrichment settles, and never by throwing, when each alert endpoint
    has a last page within the fuel. *)
Lemma enrichRepository_settles fuel repo api t30 now :
  let states :=
    ["open"; "closed"; "dismissed"; "fixed"; "auto_dismissed"; "resolved"] in
  settlesWithin fuel (codeScanningApi api) states ->
  settlesWithin fuel (dependabotApi api) states ->
  settlesWithin fuel (secretScanningApi api) states ->
  exists result, enrichRepository fuel repo api t30 now = Resolved result.
Proof.
  intros states Hcs Hdep Hsec. unfold enrichRepository.
  destruct (details api) as [err|d]; cbn; [by eexists|].
  destruct (archived d); cbn; [by eexists|].
  destruct (fetchers_settle fuel _ t30 now Hcs) as (H1 & _ & _).
  destruct (fetchers_settle fuel _ t30 now Hdep) as (_ & H2 & _).
  destruct (fetchers_settle fuel _ t30 now Hsec) as (_ & _ & H3).
  destruct (orFallback_settles _ disabledCodeScanning H1) as [cs ->].
  destruct (orFallback_settles _ disabledDependabot H2) as [dep ->].
  destruct (orFallback_settles _ disabledSecretScanning H3) as [sec ->].
  cbn. by eexists.
Qed.

Lemma enrichRepository_archived fuel repo api t30 now d :
  details api = inr d -> archived d = true ->
  enrichRepository fuel repo api t30 now = Resolved None.
Proof. intros H Ha. unfold enrichRepository. rewrite H; cbn. by rewrite Ha. Qed.

Lemma enrichStep_Resolved fuel t30 now acc entry r1 :
  enrichStep fuel t30 now acc entry = Resolved r1 ->
  exists r0, acc = Resolved r0 /\
    ((exists fresh,
        enrichRepository fuel (fst entry) (snd entry) t30 now
          = Resolved (Some fresh) /\
        repos r1 = (repos r0 ++ [fresh])%list /\
        updated (stats r1) = updated (stats r0) + 1 /\
        skipped (stats r1) = skipped (stats r0)) \/
     (enrichRepository fuel (fst entry) (snd entry) t30 now = Resolved None /\
      repos r1 = repos r0 /\
      updated (stats r1) = updated (stats r0) /\
      skipped (stats r1) = skipped (stats r0) + 1)).
Proof.
  unfold enrichStep. destruct acc as [r0|?|]; cbn; [|done|done].
  destruct (enrichRepository _ _ _ _ _) as [[fresh|]|e|] eqn:He; [| | |done].
  - intros [= <-]. exists r0. split; [done|]. left. by exists fresh.
  - intros [= <-]. exists r0. split; [done|]. by right.
  - by apply enrichRepository_not_rejected in He.
Qed.

(** Every record collected for an organization is the record
    [enrichRepository] resolved with for one of the listed repositories. *)
Lemma enrich_fold_repos fuel t30 now entries : forall acc result,
  foldl (enrichStep fuel t30 now) acc entries = Resolved result ->
  exists r0, acc = Resolved r0 /\
    forall r, r ∈ repos result ->
      r ∈ repos r0 \/
      exists entry, entry ∈ entries /\
        enrichRepository fuel (fst entry) (snd entry) t30 now = Resolved (Some r).
Proof.
  induction entries as [|entry entries IH]; intros acc result; cbn [foldl].
  - intros ->. exists result. split; [done|]. by left.
  - intros H. apply IH in H as (r1 & Hstep & Hin).
    apply enrichStep_Resolved in Hstep as (r0 & -> & Hcase).
    exists r0. split; [done|]. intros r Hr.
    destruct (Hin r Hr) as [Hr1|(e & He & Henr)].
    + destruct Hcase as [(fresh & Hf & Hrepos & _)|(_ & Hrepos & _)].
      * rewrite Hrepos in Hr1. apply elem_of_app in Hr1 as [?|Hr1]; [by left|].
        apply list_elem_of_singleton in Hr1 as ->.
        right. exists entry. split; [left | done].
      * rewrite Hrepos in Hr1. by left.
    + right. exists e. split; [by right | done].
Qed.

Lemma syncSingleOrganization_repos fuel orgConfig t30 now result r :
  syncSingleOrganization fuel orgConfig t30 now = Resolved result ->
  r ∈ repos result ->
  exists entries entry,
    listing orgConfig = inr entries /\ entry ∈ entries /\
    enrichRepository fuel (fst entry) (snd entry) t30 now = Resolved (Some r).
Proof.
  unfold syncSingleOrganization.
  destruct (listing orgConfig) as [e|entries]; cbn; [done|].
  intros H Hr. apply enrich_fold_repos in H as (r0 & [= <-] & Hin).
  destruct (Hin r Hr) as [Hnil|(entry & He & Henr)]; [by apply elem_of_nil in Hnil|].
  by exists entries, entry.
Qed.

(** C10. Enrichment of a repository whose metadata marks it archived
    resolves with null, whatever the fuel; a record that enrichment
    resolves with comes from metadata that is not archived and has status
    'active' or 'deprecated'; so no record collected for an organization
    comes from an archived repository or has status 'archived'. *)
Theorem archived_repository_skipped :
  forall (fuel : nat) (thirtyDaysAgo now : Z),
    (forall repo api d,
       details api = inr d -> archived d = true ->
       enrichRepository fuel repo api thirtyDaysAgo now = Resolved None) /\
    (forall repo api fresh,
       enrichRepository fuel repo api thirtyDaysAgo now = Resolved (Some fresh) ->
       (exists d, details api = inr d /\ archived d = false) /\
       (status fresh = val "active" \/ status fresh = val "deprecated") /\
       status fresh <> val "archived") /\
    (forall orgConfig result,
       syncSingleOrganization fuel orgConfig thirtyDaysAgo now = Resolved result ->
       Forall (fun r =>
         status r <> val "archived" /\
         exists entries entry d,
           listing orgConfig = inr entries /\ entry ∈ entries /\
           details (snd entry) = inr d /\ archived d = false /\
           enrichRepository fuel (fst entry) (snd entry) thirtyDaysAgo now
             = Resolved (Some r))
         (repos result)).
Proof.
  intros fuel thirtyDaysAgo now.
  assert (Hsome : forall repo api fresh,
    enrichRepository fuel repo api thirtyDaysAgo now = Resolved (Some fresh) ->
    (exists d, details api = inr d /\ archived d = false) /\
    (status fresh = val "active" \/ status fresh = val "deprecated") /\
    status fresh <> val "archived").
  { intros repo api fresh H.
    apply enrichRepository_Some in H
      as (d & cs & dep & sec & Hd & Ha & _ & _ & _ & _ & _ & Hst & _).
    split; [by exists d|]. rewrite Hst.
    destruct (disabled d); split; (by left) || (by right) || done. }
  split_and!; [|exact Hsome|].
  - intros repo api d Hd Ha. by eapply enrichRepository_archived.
  - intros orgConfig result Hsync. apply Forall_forall. intros r Hr.
    destruct (syncSingleOrganization_repos _ _ _ _ _ _ Hsync Hr)
      as (entries & entry & Hl & He & Henr).
    destruct (Hsome _ _ _ Henr) as ((d & Hd & Ha) & _ & Hne).
    split; [done|]. by exists entries, entry, d.
Qed.

Lemma archived_repository_skipped_witness :
  details (apiSample (inr (detailedSample true)) noAlerts)
    = inr (detailedSample true) /\
  archived (detailedSample true) = true /\
  enrichRepository 0 sampleRepo (apiSample (inr (detailedSample true)) noAlerts)
    0 0 = Resolved None /\
  (exists fresh,
     enrichRepository 1 sampleRepo (apiSample (inr (detailedSample false)) noAlerts)
       0 0 = Resolved (Some fresh) /\
     status fresh = val "active") /\
  exists result,
    syncSingleOrganization 1
      (orgSample (apiSample (inr (detailedSample false)) noAlerts)) 0 0
      = Resolved result /\
    Forall (fun r => status r <> val "archived") (repos result).
Proof.
  destruct (archived_repository_skipped 0 0 0) as (Harch & _ & _).
  destruct (archived_repository_skipped 1 0 0) as (_ & Hsome & Hsync).
  split; [reflexivity|]. split; [reflexivity|].
  split; [exact (Harch sampleRepo (apiSample (inr (detailedSample true)) noAlerts)
                  (detailedSample true) eq_refl eq_refl)|].
  split.
  - eexists. split; [reflexivity|]. reflexivity.
  - eexists. split; [reflexivity|].
    eapply Forall_impl;
      [apply (Hsync (orgSample (apiSample (inr (detailedSample false)) noAlerts)));
       reflexivity|].
    cbn. intros r [Hne _]. exact Hne.
Defined.

(** ** The vulnerabilities bundle through the merge *)

Lemma first_request_rejected fuel endpoint t30 now e :
  endpoint "open" 1%nat = inl e -> is_403_or_404 e = false ->
  fetchCodeScanningAlerts (S fuel) endpoint t30 now = Rejected e /\
  fetchDependabotAlerts (S fuel) endpoint t30 now = Rejected e /\
  fetchSecretScanningAlerts (S fuel) endpoint t30 now = Rejected e.
Proof.
  intros Hreq Hs.
  unfold fetchCodeScanningAlerts, fetchDependabotAlerts,
    fetchSecretScanningAlerts, onStatusDisabled.
  cbn. rewrite Hreq, Hs. cbn. by rewrite Hs.
Qed.

Lemma mergeOne_in githubData existingRepos repo :
  repo ∈ githubData ->
  mergeOne (existingMapOf existingRepos) repo
    ∈ mergeWithOwnership githubData existingRepos.
Proof.
  intros Hin. unfold mergeWithOwnership.
  apply list_elem_of_In, in_map, list_elem_of_In, Hin.
Qed.

(** C3, as stated, fails: the three alert endpoints of a repository answer
    500, so the whole vulnerability fetch stage fails; the record merged
    with the persisted one carries the all-zero, disabled bundle and not
    the prior bundle with its five critical dependency alerts. *)
Lemma failed_fetch_resets_bundle :
  let api := apiSample (inr (detailedSample false)) (answering (httpError 500)) in
  fetchCodeScanningAlerts 1 (codeScanningApi api) 0 0 = Rejected (httpError 500) /\
  fetchDependabotAlerts 1 (dependabotApi api) 0 0 = Rejected (httpError 500) /\
  fetchSecretScanningAlerts 1 (secretScanningApi api) 0 0
    = Rejected (httpError 500) /\
  exists fresh merged,
    enrichRepository 1 sampleRepo api 0 0 = Resolved (Some fresh) /\
    mergeWithOwnership [fresh] [priorRecord] = [merged] /\
    vulnerabilities merged = val disabledBundle /\
    vulnerabilities merged <> vulnerabilities priorRecord.
Proof.
  cbn zeta. split_and!; try reflexivity.
  eexists _, _. split_and!; try reflexivity.
  vm_compute. discriminate.
Qed.

(** C3, amended. The merged record of a repository with a prior record
    carries the bundle of the fresh record whenever the fresh record has
    one, and the prior bundle (or the default) only when it has none.
    Enrichment always supplies a bundle: per kind the fetched summary, or
    the zero/disabled summary when that fetch threw.  When the fetches of
    all three kinds fail, enrichment still resolves, with the all-zero,
    disabled bundle, and that bundle replaces the prior one. *)
Theorem fresh_bundle_replaces_prior :
  forall (fuel : nat) (repo : GithubRepo) (api : RepoApi) (thirtyDaysAgo now : Z),
    (forall fresh existing b,
       vulnerabilities fresh = val b ->
       vulnerabilities (mergeExisting fresh existing) = val b) /\
    (forall fresh existing,
       js_truthy (vulnerabilities fresh) = false ->
       vulnerabilities (mergeExisting fresh existing) =
       val (jsor_default (vulnerabilities existing) defaultVulnerabilities)) /\
    (forall fresh,
       enrichRepository fuel repo api thirtyDaysAgo now = Resolved (Some fresh) ->
       exists cs dep sec,
         vulnerabilities fresh =
           val {| codeScanning := val cs; dependabot := val dep;
                  secretScanning := val sec |} /\
         orFallback (fetchCodeScanningAlerts fuel (codeScanningApi api)
                       thirtyDaysAgo now) disabledCodeScanning = Resolved cs /\
         orFallback (fetchDependabotAlerts fuel (dependabotApi api)
                       thirtyDaysAgo now) disabledDependabot = Resolved dep /\
         orFallback (fetchSecretScanningAlerts fuel (secretScanningApi api)
                       thirtyDaysAgo now) disabledSecretScanning = Resolved sec) /\
    (forall d e1 e2 e3,
       details api = inr d -> archived d = false ->
       codeScanningApi api "open" 1%nat = inl e1 -> is_403_or_404 e1 = false ->
       dependabotApi api "open" 1%nat = inl e2 -> is_403_or_404 e2 = false ->
       secretScanningApi api "open" 1%nat = inl e3 -> is_403_or_404 e3 = false ->
       exists fresh,
         enrichRepository (S fuel) repo api thirtyDaysAgo now
           = Resolved (Some fresh) /\
         vulnerabilities fresh = val disabledBundle /\
         forall existingRepos existing,
           existingMapOf existingRepos !! repoKey fresh = Some existing ->
           exists merged,
             mergeWithOwnership [fresh] existingRepos = [merged] /\
             vulnerabilities merged = val disabledBundle).
Proof.
  intros fuel repo api thirtyDaysAgo now. split_and!.
  - intros fresh existing b Hb. unfold mergeExisting; cbn. by rewrite Hb.
  - intros fresh existing Hf. unfold mergeExisting; cbn.
    unfold jsor. by rewrite Hf.
  - intros fresh H.
    apply enrichRepository_Some in H
      as (d & cs & dep & sec & _ & _ & Hcs & Hdep & Hsec & _ & _ & _ & _ & Hv & _).
    by exists cs, dep, sec.
  - intros d e1 e2 e3 Hd Ha H1 Hs1 H2 Hs2 H3 Hs3.
    destruct (first_request_rejected fuel _ thirtyDaysAgo now _ H1 Hs1) as (Hcs & _ & _).
    destruct (first_request_rejected fuel _ thirtyDaysAgo now _ H2 Hs2) as (_ & Hdep & _).
    destruct (first_request_rejected fuel _ thirtyDaysAgo now _ H3 Hs3) as (_ & _ & Hsec).
    unfold enrichRepository. rewrite Hd; cbn [request await try_catch].
    rewrite Ha, Hcs, Hdep, Hsec. cbn [orFallback try_catch await].
    eexists. split; [reflexivity|]. split; [reflexivity|].
    intros existingRepos existing Hex.
    unfold mergeWithOwnership, mergeOne. cbn [map]. rewrite Hex.
    eexists. split; reflexivity.
Qed.

Lemma fresh_bundle_replaces_prior_witness :
  let api := apiSample (inr (detailedSample false)) (answering (httpError 500)) in
  vulnerabilities
    {| organization := "engineering"; repository := "api-service";
       pod := val NO_POD; environmentType := val ""; vertical := val "";
       description := val ""; language := val ""; status := val "active";
       lastActivity := null; githubUrl := undefined;
       engineeringManager := undefined; codeowners := val false;
       vulnerabilities := val disabledBundle; _metadata := undefined |}
    = val disabledBundle /\
  js_truthy (vulnerabilities
    {| organization := "engineering"; repository := "api-service";
       pod := val NO_POD; environmentType := val ""; vertical := val "";
       description := val ""; language := val ""; status := val "active";
       lastActivity := null; githubUrl := undefined;
       engineeringManager := undefined; codeowners := val false;
       vulnerabilities := undefined; _metadata := undefined |}) = false /\
  details api = inr (detailedSample false) /\
  archived (detailedSample false) = false /\
  codeScanningApi api "open" 1%nat = inl (httpError 500) /\
  is_403_or_404 (httpError 500) = false /\
  exists fresh,
    enrichRepository 1 sampleRepo api 0 0 = Resolved (Some fresh) /\
    vulnerabilities fresh = val disabledBundle.
Proof.
  cbn zeta.
  destruct (fresh_bundle_replaces_prior 0 sampleRepo
              (apiSample (inr (detailedSample false)) (answering (httpError 500)))
              0 0) as (_ & _ & _ & Hall).
  destruct (Hall (detailedSample false) (httpError 500) (httpError 500)
              (httpError 500) eq_refl eq_refl eq_refl eq_refl eq_refl eq_refl
              eq_refl eq_refl) as (fresh & Henr & Hv & _).
  split_and!; try reflexivity.
  exists fresh. by split.
Defined.

(** ** A repository whose metadata request fails *)

(** C2 (code defect). The metadata request of the one listed repository
    is rejected with an error [e] (500, say).  Enrichment resolves with
    null and the repository is counted as skipped, not updated; but the
    persisted output then holds no record at all: the record that the
    repository had in the previous dataset is not carried over. *)
Theorem failed_repository_record_dropped :
  forall (fuel : nat) (e : HttpError) (alertsEndpoint : Endpoint)
         (existingRepos : list RepositoryRecord) (thirtyDaysAgo now : Z),
    let api := apiSample (inl e) alertsEndpoint in
    enrichRepository fuel sampleRepo api thirtyDaysAgo now = Resolved None /\
    syncRepositories fuel [orgSample api] (priorRecord :: existingRepos)
      thirtyDaysAgo now =
    Resolved {| organizations := ["engineering"];
                totalRepos := 0; totalUpdated := 0; totalSkipped := 1;
                totalErrors := 0;
                orgStats := [{| updated := 0; skipped := 1; errors := 0 |}];
                repositories := [] |} /\
    priorRecord ∈ priorRecord :: existingRepos /\
    repoKey priorRecord =
      String.append (owner_login sampleRepo)
        (String.append "/" (name sampleRepo)).
Proof.
  intros fuel e alertsEndpoint existingRepos thirtyDaysAgo now.
  cbn zeta. split_and!; try reflexivity. by left.
Qed.

(** ** Curated fields *)

Lemma jsor_default_truthy (x : js string) (d : string) :
  js_truthy x = true -> val (jsor_default x d) = x.
Proof. destruct x as [| |s]; cbn; try done. by intros ->. Qed.

Lemma jsor_falsy_l {A} `{Truthy A} (x y : js A) :
  js_truthy x = false -> jsor x y = y.
Proof. unfold jsor. by intros ->. Qed.

Lemma pod_not_taken (x : js string) :
  js_truthy x = false \/ x = val NO_POD ->
  js_truthy x && js_differs x NO_POD = false.
Proof. intros [->| ->]; reflexivity. Qed.

(** C4. When the persisted record of a repository has a non-empty pod,
    vertical and engineering manager, and the fresh record has an empty or
    'No Pod Selected' pod and an empty vertical, the merged record has the
    persisted pod, vertical and engineering manager.  The engineering
    manager of a merged record never comes from enrichment: it is the
    persisted one, or the empty string when that is empty or when the
    repository has no persisted record. *)
Theorem curated_fields_preserved :
  forall (githubData existingRepos : list RepositoryRecord),
    (forall fresh prior,
       fresh ∈ githubData ->
       existingMapOf existingRepos !! repoKey fresh = Some prior ->
       js_truthy (pod prior) = true ->
       js_truthy (vertical prior) = true ->
       js_truthy (engineeringManager prior) = true ->
       js_truthy (pod fresh) = false \/ pod fresh = val NO_POD ->
       js_truthy (vertical fresh) = false ->
       exists merged,
         merged ∈ mergeWithOwnership githubData existingRepos /\
         merged = mergeOne (existingMapOf existingRepos) fresh /\
         pod merged = pod prior /\
         vertical merged = vertical prior /\
         engineeringManager merged = engineeringManager prior) /\
    (forall fresh prior,
       existingMapOf existingRepos !! repoKey fresh = Some prior ->
       engineeringManager (mergeOne (existingMapOf existingRepos) fresh) =
       val (jsor_default (engineeringManager prior) "")) /\
    (forall fuel repo api thirtyDaysAgo now fresh,
       enrichRepository fuel repo api thirtyDaysAgo now = Resolved (Some fresh) ->
       engineeringManager (mergeOne (existingMapOf existingRepos) fresh) =
       match existingMapOf existingRepos !! repoKey fresh with
       | Some prior => val (jsor_default (engineeringManager prior) "")
       | None => val ""
       end).
Proof.
  intros githubData existingRepos. split_and!.
  - intros fresh prior Hin Hex Hpod Hvert Hem Hfpod Hfvert.
    eexists. split; [by apply mergeOne_in|]. split; [reflexivity|].
    unfold mergeOne. rewrite Hex. unfold mergeExisting; cbn.
    rewrite (pod_not_taken _ Hfpod), (jsor_falsy_l _ _ Hfvert).
    by rewrite !jsor_default_truthy.
  - intros fresh prior Hex. unfold mergeOne. by rewrite Hex.
  - intros fuel repo api thirtyDaysAgo now fresh Henr.
    apply enrichRepository_Some in Henr
      as (d & cs & dep & sec & _ & _ & _ & _ & _ & _ & _ & _ & Hem & _).
    unfold mergeOne.
    destruct (existingMapOf existingRepos !! repoKey fresh); cbn; [done|].
    by rewrite Hem.
Qed.

Lemma curated_fields_preserved_witness :
  freshSample ∈ [freshSample] /\
  existingMapOf [priorRecord] !! repoKey freshSample = Some priorRecord /\
  js_truthy (pod priorRecord) = true /\
  js_truthy (vertical priorRecord) = true /\
  js_truthy (engineeringManager priorRecord) = true /\
  pod freshSample = val NO_POD /\
  js_truthy (vertical freshSample) = false /\
  enrichRepository 1 sampleRepo (apiSample (inr (detailedSample false)) noAlerts)
    0 0 = Resolved (Some freshSample) /\
  (exists merged,
     merged ∈ mergeWithOwnership [freshSample] [priorRecord] /\
     pod merged = val "Core-Backend" /\
     vertical merged = val "Core" /\
     engineeringManager merged = val "John") /\
  engineeringManager (mergeOne (existingMapOf []) freshSample) = val "".
Proof.
  destruct (curated_fields_preserved [freshSample] [priorRecord])
    as (Hkeep & _ & _).
  destruct (curated_fields_preserved [freshSample] [])
    as (_ & _ & Hnew).
  assert (Hin : freshSample ∈ [freshSample]) by (left; reflexivity).
  destruct (Hkeep freshSample priorRecord Hin eq_refl eq_refl eq_refl eq_refl
              (or_intror eq_refl) eq_refl)
    as (merged & Hm & _ & Hp & Hv & He).
  split; [exact Hin|].
  do 7 (split; [reflexivity|]).
  split.
  - exists merged. split_and!; assumption.
  - exact (Hnew 1%nat sampleRepo
             (apiSample (inr (detailedSample false)) noAlerts) 0 0 freshSample
             eq_refl).
Defined.

(** ** Idempotence of the merge *)

(** Reduce the projections of a record literal, and nothing else *)
Ltac simpl_record :=
  cbn [organization repository pod environmentType vertical description
       language status lastActivity githubUrl engineeringManager codeowners
       vulnerabilities _metadata].

Lemma lastByKey_Some k l r :
  lastByKey k l = Some r -> repoKey r = k /\ r ∈ l.
Proof.
  induction l as [|x l IH]; cbn; [done|].
  destruct (lastByKey k l) as [y|].
  - intros [= <-]. destruct (IH eq_refl) as [Hk Hin]. split; [done | by right].
  - destruct (String.eqb_spec (repoKey x) k) as [Hk|]; [|done].
    intros [= <-]. split; [done | by left].
Qed.

Lemma lastByKey_elem k l r :
  r ∈ l -> repoKey r = k -> is_Some (lastByKey k l).
Proof.
  induction l as [|x l IH]; cbn; [by intros ?%elem_of_nil|].
  intros [->|Hin]%elem_of_cons Hk.
  - destruct (lastByKey k l); [by eexists|].
    rewrite Hk, String.eqb_refl. by eexists.
  - destruct (IH Hin Hk) as [y ->]. by eexists.
Qed.

Lemma lastByKey_map (f : RepositoryRecord -> RepositoryRecord) k l :
  (forall r, repoKey (f r) = repoKey r) ->
  lastByKey k (map f l) = f <$> lastByKey k l.
Proof.
  intros Hf. induction l as [|x l IH]; cbn; [done|].
  rewrite IH. destruct (lastByKey k l); cbn; [done|].
  rewrite Hf. by destruct (String.eqb (repoKey x) k).
Qed.

Lemma existingMap_fold_lookup l : forall (M : gmap string RepositoryRecord) k,
  foldl (fun m repo => <[repoKey repo := repo]> m) M l !! k =
  match lastByKey k l with
  | Some x => Some x
  | None => M !! k
  end.
Proof.
  induction l as [|r l IH]; intros M k; cbn; [done|].
  rewrite IH. destruct (lastByKey k l); [done|].
  rewrite lookup_insert.
  destruct (String.eqb_spec (repoKey r) k);
    [by rewrite decide_True | by rewrite decide_False].
Qed.

Lemma existingMapOf_lookup l k : existingMapOf l !! k = lastByKey k l.
Proof.
  unfold existingMapOf. rewrite existingMap_fold_lookup.
  destruct (lastByKey k l); [done | apply lookup_empty].
Qed.

Lemma mergeOne_key l r : repoKey (mergeOne (existingMapOf l) r) = repoKey r.
Proof.
  unfold mergeOne.
  destruct (existingMapOf l !! repoKey r) as [e|] eqn:He; [|done].
  rewrite existingMapOf_lookup in He. by apply lastByKey_Some in He as [? _].
Qed.

Lemma jsor_default_again {A} `{Truthy A} (y : js A) (d : A) :
  jsor_default (val (jsor_default y d)) d = jsor_default y d.
Proof.
  destruct y as [| |a]; cbn; try (by destruct (truthy d)).
  destruct (truthy a) eqn:Ha; [by rewrite Ha | by destruct (truthy d)].
Qed.

Lemma jsor_default_jsor_again {A} `{Truthy A} (x y : js A) (d : A) :
  jsor_default (jsor x (val (jsor_default (jsor x y) d))) d =
  jsor_default (jsor x y) d.
Proof.
  unfold jsor. destruct (js_truthy x); [done | apply jsor_default_again].
Qed.

Lemma jsor_again {A} `{Truthy A} (x y : js A) : jsor x (jsor x y) = jsor x y.
Proof. unfold jsor. by destruct (js_truthy x) eqn:Hx; rewrite ?Hx. Qed.

Lemma jsor_self {A} `{Truthy A} (x : js A) : jsor x x = x.
Proof. unfold jsor. by destruct (js_truthy x). Qed.

Lemma boolean_or_again (x y : js bool) :
  boolean_or x (jsor_default (val (boolean_or x (jsor_default y false))) false) =
  boolean_or x (jsor_default y false).
Proof. destruct x; cbn; try done; by destruct (jsor_default y false). Qed.

Lemma pod_again (x y : js string) :
  (if js_truthy x && js_differs x NO_POD then x
   else val (jsor_default
               (if js_truthy x && js_differs x NO_POD then x
                else val (jsor_default y NO_POD)) NO_POD)) =
  (if js_truthy x && js_differs x NO_POD then x
   else val (jsor_default y NO_POD)).
Proof.
  destruct (js_truthy x && js_differs x NO_POD); [done|].
  by rewrite jsor_default_again.
Qed.

(** Merging a fresh record with the result of its own merge changes
    nothing. *)
Lemma mergeExisting_idem r e :
  mergeExisting r (mergeExisting r e) = mergeExisting r e.
Proof.
  unfold mergeExisting; simpl_record.
  rewrite pod_again, !jsor_default_jsor_again, !jsor_again,
    jsor_default_again, boolean_or_again.
  reflexivity.
Qed.

Lemma mergeExisting_new r :
  stringFields r -> mergeExisting r (mergeNew r) = mergeNew r.
Proof.
  intros [[e He] [v Hv]]. unfold mergeExisting, mergeNew; simpl_record.
  rewrite He, Hv, !jsor_self, !jsor_default_again.
  f_equal.
  - destruct (pod r) as [| |p]; cbn; try done.
    unfold truthy, string_truthy. destruct (String.eqb p "") eqn:Hp; cbn; [done|].
    destruct (String.eqb p NO_POD) eqn:Hn; cbn; [|done].
    by apply String.eqb_eq in Hn as ->.
  - cbn. unfold truthy, string_truthy.
    destruct (String.eqb_spec e ""); cbn; congruence.
  - cbn. unfold truthy, string_truthy.
    destruct (String.eqb_spec v ""); cbn; congruence.
  - destruct (codeowners r) as [| |b]; cbn; try done.
  - destruct (vulnerabilities r) as [| |b]; cbn; done.
Qed.

Lemma mergeOne_again M r :
  stringFields r -> mergeExisting r (mergeOne M r) = mergeOne M r.
Proof.
  intros Hs. unfold mergeOne.
  destruct (M !! repoKey r); [apply mergeExisting_idem | by apply mergeExisting_new].
Qed.

Lemma enrichRepository_stringFields fuel repo api t30 now fresh :
  enrichRepository fuel repo api t30 now = Resolved (Some fresh) ->
  stringFields fresh.
Proof.
  intros H. apply enrichRepository_Some in H
    as (d & cs & dep & sec & _ & _ & _ & _ & _ & _ & _ & _ & _ & _ & _ & He & Hv & _).
  by split.
Qed.

(** A second merge of a fresh record finds the result of the first merge
    of the last fresh record with the same key. *)
Lemma second_merge_lookup fresh prior r :
  existingMapOf (mergeWithOwnership fresh prior) !! repoKey r =
  mergeOne (existingMapOf prior) <$> lastByKey (repoKey r) fresh.
Proof.
  unfold mergeWithOwnership. rewrite existingMapOf_lookup.
  apply lastByKey_map. intros x. apply mergeOne_key.
Qed.

Lemma lastByKey_of_identity l r :
  (forall r1 r2, r1 ∈ l -> r2 ∈ l -> repoKey r1 = repoKey r2 -> r1 = r2) ->
  r ∈ l -> lastByKey (repoKey r) l = Some r.
Proof.
  intros Hid Hin.
  destruct (lastByKey_elem (repoKey r) l r Hin eq_refl) as [x Hx].
  rewrite Hx. f_equal.
  apply lastByKey_Some in Hx as [Hk Hxin]. by apply Hid.
Qed.

Lemma merge_twice_identity fresh prior :
  Forall stringFields fresh ->
  (forall r1 r2, r1 ∈ fresh -> r2 ∈ fresh -> repoKey r1 = repoKey r2 -> r1 = r2) ->
  mergeWithOwnership fresh (mergeWithOwnership fresh prior) =
  mergeWithOwnership fresh prior.
Proof.
  intros Hshape Hid.
  unfold mergeWithOwnership at 1 3.
  apply map_ext_in. intros r Hin%list_elem_of_In.
  unfold mergeOne at 1.
  rewrite second_merge_lookup, (lastByKey_of_identity _ _ Hid Hin). cbn.
  apply mergeOne_again. rewrite Forall_forall in Hshape. by apply Hshape.
Qed.

(** ** De-duplication *)

Lemma setKey_elem k ks x : x ∈ setKey k ks <-> x = k \/ x ∈ ks.
Proof.
  induction ks as [|k' ks IH]; cbn.
  - rewrite list_elem_of_singleton, elem_of_nil. tauto.
  - destruct (String.eqb_spec k' k) as [->|Hne].
    + rewrite elem_of_cons. tauto.
    + rewrite !elem_of_cons, IH. tauto.
Qed.

Lemma setKey_NoDup k ks : NoDup ks -> NoDup (setKey k ks).
Proof.
  induction ks as [|k' ks IH]; cbn; intros Hnd.
  - apply NoDup_singleton.
  - destruct (String.eqb_spec k' k) as [->|Hne]; [done|].
    apply NoDup_cons in Hnd as [Hnin Hnd].
    apply NoDup_cons. split; [|by apply IH].
    rewrite setKey_elem. intros [->|?]; done.
Qed.

Lemma mapSet_keys {A} k (v : A) m : map fst (mapSet k v m) = setKey k (map fst m).
Proof.
  induction m as [|[k' v'] m IH]; cbn; [done|].
  destruct (String.eqb k' k); cbn; [done | by rewrite IH].
Qed.

Lemma mapSet_elem {A} k (v : A) m k' v' :
  NoDup (map fst m) ->
  (k', v') ∈ mapSet k v m ->
  (k' = k /\ v' = v) \/ (k' <> k /\ (k', v') ∈ m).
Proof.
  induction m as [|[k0 v0] m IH]; cbn; intros Hnd.
  - intros [= -> ->]%list_elem_of_singleton. by left.
  - apply NoDup_cons in Hnd as [Hnin Hnd].
    destruct (String.eqb_spec k0 k) as [->|Hne].
    + intros [[= -> ->]|Hin]%elem_of_cons; [by left|].
      right. split; [|by right].
      intros ->. apply Hnin, list_elem_of_In, in_map_iff.
      exists (k, v'). split; [done | by apply list_elem_of_In].
    + intros [[= -> ->]|Hin]%elem_of_cons.
      * right. split; [done | by left].
      * destruct (IH Hnd Hin) as [?|[? ?]]; [by left|].
        right. split; [done | by right].
Qed.

Lemma store_fold_keys l : forall m : list (string * RepositoryRecord),
  map fst (foldl (fun m repo => mapSet (repoKey repo) repo m) m l) =
  foldl (fun ks k => setKey k ks) (map fst m) (map repoKey l).
Proof.
  induction l as [|r l IH]; intros m; cbn; [done|].
  by rewrite IH, mapSet_keys.
Qed.

Lemma setKey_fold_elem kl : forall ks x,
  x ∈ foldl (fun ks k => setKey k ks) ks kl <-> x ∈ ks \/ x ∈ kl.
Proof.
  induction kl as [|k kl IH]; intros ks x; cbn.
  - rewrite elem_of_nil. tauto.
  - rewrite IH, setKey_elem, elem_of_cons. tauto.
Qed.

Lemma store_fold_elem l : forall (m : list (string * RepositoryRecord)) k v,
  NoDup (map fst m) ->
  (k, v) ∈ foldl (fun m repo => mapSet (repoKey repo) repo m) m l ->
  lastByKey k l = Some v \/ (lastByKey k l = None /\ (k, v) ∈ m).
Proof.
  induction l as [|r l IH]; intros m k v Hnd; cbn [foldl lastByKey].
  - by right.
  - intros Hin.
    assert (Hnd' : NoDup (map fst (mapSet (repoKey r) r m)))
      by (rewrite mapSet_keys; by apply setKey_NoDup).
    destruct (IH _ k v Hnd' Hin) as [->|[-> Hm]]; [by left|].
    destruct (mapSet_elem _ _ _ _ _ Hnd Hm) as [[-> ->]|[Hne Hm']].
    + left. by rewrite String.eqb_refl.
    + destruct (String.eqb_spec (repoKey r) k); [congruence|]. by right.
Qed.

Lemma assoc_eq {A} (X Y : list (string * A)) :
  map fst X = map fst Y ->
  (forall k v v', (k, v) ∈ X -> (k, v') ∈ Y -> v = v') ->
  X = Y.
Proof.
  revert Y. induction X as [|[k v] X IH]; intros [|[k' v'] Y]; cbn; try done.
  intros [= <- Hk] Hv. f_equal.
  - f_equal. apply (Hv k); by left.
  - apply IH; [done|]. intros k0 v0 v0' H1 H2. apply (Hv k0); by right.
Qed.

(** What is kept depends on the keys in order and, for each key, on the
    last record that has it. *)
Lemma uniqueReposOf_map (f g : RepositoryRecord -> RepositoryRecord) l :
  (forall r, repoKey (f r) = repoKey r) ->
  (forall r, repoKey (g r) = repoKey r) ->
  (forall r, r ∈ l -> lastByKey (repoKey r) l = Some r -> f r = g r) ->
  uniqueReposOf (map f l) = uniqueReposOf (map g l).
Proof.
  intros Hf Hg Hlast. unfold uniqueReposOf. f_equal.
  apply assoc_eq.
  - rewrite !store_fold_keys, !map_map. f_equal.
    apply map_ext. intros r. by rewrite Hf, Hg.
  - intros k v v' Hv Hv'.
    apply store_fold_elem in Hv as [Hv|[_ []%elem_of_nil]]; [|apply NoDup_nil_2].
    apply store_fold_elem in Hv' as [Hv'|[_ []%elem_of_nil]]; [|apply NoDup_nil_2].
    rewrite lastByKey_map in Hv, Hv' by done.
    destruct (lastByKey k l) as [r|] eqn:Hr; [|done].
    cbn in Hv, Hv'. injection Hv as <-. injection Hv' as <-.
    destruct (lastByKey_Some _ _ _ Hr) as [<- Hin]. by apply Hlast.
Qed.

(** Reading the persisted list back gives the same map as reading the
    merged list before de-duplication. *)
Lemma lastByKey_unique k l : lastByKey k (uniqueReposOf l) = lastByKey k l.
Proof.
  unfold uniqueReposOf.
  set (A := foldl (fun m repo => mapSet (repoKey repo) repo m) [] l).
  assert (HA : forall k' v, (k', v) ∈ A -> lastByKey k' l = Some v).
  { intros k' v Hin.
    apply store_fold_elem in Hin as [?|[_ []%elem_of_nil]]; [done|apply NoDup_nil_2]. }
  destruct (lastByKey k (map snd A)) as [v|] eqn:Hv.
  - apply lastByKey_Some in Hv as [Hk Hin].
    apply list_elem_of_In, in_map_iff in Hin as ([k' v'] & [= ->] & Hin).
    apply list_elem_of_In, HA in Hin.
    destruct (lastByKey_Some _ _ _ Hin) as [Hk' _]. by rewrite <- Hk, Hk' at 1.
  - destruct (lastByKey k l) as [r|] eqn:Hr; [|done]. exfalso.
    apply lastByKey_Some in Hr as [Hk Hin].
    assert (Hkey : k ∈ map fst A).
    { unfold A. rewrite store_fold_keys, setKey_fold_elem. right.
      rewrite <- Hk. apply list_elem_of_In, in_map, list_elem_of_In, Hin. }
    apply list_elem_of_In, in_map_iff in Hkey as ([k' v] & [= ->] & Hv').
    apply list_elem_of_In in Hv'. pose proof (HA _ _ Hv') as Hl.
    apply lastByKey_Some in Hl as [Hkv _].
    assert (Hs : is_Some (lastByKey k (map snd A))).
    { apply (lastByKey_elem k _ v); [|done].
      apply list_elem_of_In, in_map_iff. exists (k, v).
      split; [done | by apply list_elem_of_In]. }
    rewrite Hv in Hs. by destruct Hs.
Qed.

Lemma existingMapOf_unique l : existingMapOf (uniqueReposOf l) = existingMapOf l.
Proof. apply map_eq. intros k. by rewrite !existingMapOf_lookup, lastByKey_unique. Qed.

Lemma persisted_again fresh prior :
  Forall stringFields fresh ->
  persisted fresh (persisted fresh prior) = persisted fresh prior.
Proof.
  intros Hshape. unfold persisted at 1 3.
  unfold mergeWithOwnership at 1 2.
  unfold persisted. rewrite existingMapOf_unique.
  apply uniqueReposOf_map.
  - intros r. apply mergeOne_key.
  - intros r. apply mergeOne_key.
  - intros r Hin Hlast. unfold mergeOne at 1.
    rewrite second_merge_lookup, Hlast. cbn.
    apply mergeOne_again. rewrite Forall_forall in Hshape. by apply Hshape.
Qed.

(** The persisted output holds records of repositories enriched in this
    run only: each has the identity key of a fresh record. *)
Lemma persisted_keys fresh prior r :
  r ∈ persisted fresh prior -> exists f, f ∈ fresh /\ repoKey r = repoKey f.
Proof.
  unfold persisted, uniqueReposOf, mergeWithOwnership.
  intros ([k v] & [= ->] & Hin)%list_elem_of_In%in_map_iff.
  apply list_elem_of_In in Hin.
  apply store_fold_elem in Hin as [Hl|[_ []%elem_of_nil]]; [|apply NoDup_nil_2].
  apply lastByKey_Some in Hl as [_ Hv].
  apply list_elem_of_In, in_map_iff in Hv as (f & <- & Hf).
  exists f. split; [by apply list_elem_of_In | apply mergeOne_key].
Qed.

(** C5, as stated, fails: the same repository is enriched twice in one
    run, once without and once with a pod.  Merged against no prior data
    the first record says 'No Pod Selected'; merged again against that
    result it takes the pod of the second record. *)
Lemma merge_twice_differs_on_duplicates :
  let fresh := [freshSample; freshAssigned] in
  enrichRepository 1 sampleRepo (apiSample (inr (detailedSample false)) noAlerts)
    0 0 = Resolved (Some freshSample) /\
  enrichRepository 1 sampleRepo apiWithPod 0 0 = Resolved (Some freshAssigned) /\
  exists once twice,
    mergeWithOwnership fresh [] !! 0%nat = Some once /\
    mergeWithOwnership fresh (mergeWithOwnership fresh []) !! 0%nat = Some twice /\
    pod once = val NO_POD /\
    pod twice = val "Core-Backend".
Proof.
  cbn zeta. split; [reflexivity|]. split; [reflexivity|].
  eexists _, _. split_and!; reflexivity.
Qed.

(** C5, amended. For every fresh dataset whose records are as enrichment
    builds them and every prior collection, a second run on the same fresh
    data, reading what the first run persisted, persists the same record
    set: merge followed by de-duplication is idempotent.  Before
    de-duplication the second merge returns the list of the first, record
    for record, when fresh records with the same identity key are equal. *)
Theorem sync_twice_idempotent :
  forall (fresh prior : list RepositoryRecord),
    Forall stringFields fresh ->
    persisted fresh (persisted fresh prior) = persisted fresh prior /\
    ((forall r1 r2,
        r1 ∈ fresh -> r2 ∈ fresh -> repoKey r1 = repoKey r2 -> r1 = r2) ->
     mergeWithOwnership fresh (mergeWithOwnership fresh prior) =
       mergeWithOwnership fresh prior /\
     mergeWithOwnership fresh (persisted fresh prior) =
       mergeWithOwnership fresh prior) /\
    (forall fuel repo api thirtyDaysAgo now r,
       enrichRepository fuel repo api thirtyDaysAgo now = Resolved (Some r) ->
       stringFields r).
Proof.
  intros fresh prior Hshape. split_and!.
  - by apply persisted_again.
  - intros Hid.
    assert (Hm := merge_twice_identity fresh prior Hshape Hid).
    split; [done|].
    unfold persisted, mergeWithOwnership at 1.
    rewrite existingMapOf_unique. exact Hm.
  - intros fuel repo api thirtyDaysAgo now r. apply enrichRepository_stringFields.
Qed.

Lemma sync_twice_idempotent_witness :
  Forall stringFields [freshSample; freshAssigned] /\
  persisted [freshSample; freshAssigned]
    (persisted [freshSample; freshAssigned] [priorRecord]) =
  persisted [freshSample; freshAssigned] [priorRecord] /\
  mergeWithOwnership [freshSample] (mergeWithOwnership [freshSample] [priorRecord])
    = mergeWithOwnership [freshSample] [priorRecord].
Proof.
  assert (Hs : forall p v, stringFields (freshWithPod p v)).
  { intros p v. split; eexists; reflexivity. }
  assert (H2 : Forall stringFields [freshSample; freshAssigned]).
  { repeat constructor; apply Hs. }
  assert (H1 : Forall stringFields [freshSample]).
  { repeat constructor; apply Hs. }
  split; [exact H2|]. split.
  - exact (proj1 (sync_twice_idempotent _ [priorRecord] H2)).
  - apply (proj1 (proj2 (sync_twice_idempotent [freshSample] [priorRecord] H1))).
    intros r1 r2 Hr1 Hr2 _.
    apply list_elem_of_singleton in Hr1. apply list_elem_of_singleton in Hr2.
    congruence.
Defined.

(** ** The risk score *)

Lemma baseScore_spec vulns : baseScoreOf vulns = specBaseScore vulns.
Proof. unfold baseScoreOf, specBaseScore, weightedSeverity. lia. Qed.

Lemma scaledAge_zero : scaledAge 0 = Double.of_Z 1.
Proof. vm_compute. reflexivity. Qed.

(** C8, as stated, fails: when the three average ages are all negative
    the code keeps the multiplier at 1.0 and scores one critical alert 10,
    where the stated multiplier min(1.0 + (-30)/60, 3.0) = 0.5 gives 5. *)
Lemma negative_age_score_differs :
  vulnerabilities skewedRecord = val skewedBundle /\
  maxAgeOf skewedBundle = -30 /\
  calculateRiskScore skewedRecord = Double.of_Z 10 /\
  specRiskScore skewedBundle = Double.of_Z 5 /\
  calculateRiskScore skewedRecord <> specRiskScore skewedBundle.
Proof. split_and!; try (vm_compute; reflexivity). vm_compute. discriminate. Qed.

(** C8, amended. For every repository record with a vulnerabilities bundle
    the risk score is round(baseScore × ageMultiplier), where baseScore is
    the weighted severity sum of the code-scanning and dependabot
    summaries plus five times the secret-scanning total, and ageMultiplier
    is min(1.0 + m/60, 3.0) when the largest of the three average ages m
    is positive and 1.0 otherwise; so it is the stated formula whenever m
    is not negative.  The score is a function of the record alone. *)
Theorem risk_score_formula :
  forall (repo : RepositoryRecord) (vulns : VulnerabilityBundle),
    vulnerabilities repo = val vulns ->
    calculateRiskScore repo =
      Double.round
        (Double.mul (Double.of_Z (specBaseScore vulns))
           (if 0 <? maxAgeOf vulns then scaledAge (maxAgeOf vulns)
            else Double.of_Z 1)) /\
    (0 <= maxAgeOf vulns -> calculateRiskScore repo = specRiskScore vulns).
Proof.
  intros repo vulns Hv. unfold calculateRiskScore, specRiskScore, ageMultiplierOf.
  rewrite Hv, baseScore_spec. split; [reflexivity|].
  intros Hage. destruct (Z.ltb_spec 0 (maxAgeOf vulns)) as [|Hle]; [reflexivity|].
  assert (Hz : maxAgeOf vulns = 0) by lia.
  by rewrite Hz, scaledAge_zero.
Qed.

Lemma risk_score_formula_witness :
  vulnerabilities priorRecord = val priorBundle /\
  0 <= maxAgeOf priorBundle /\
  calculateRiskScore priorRecord = specRiskScore priorBundle /\
  specRiskScore priorBundle = Double.of_Z 83.
Proof.
  split; [reflexivity|]. split; [vm_compute; discriminate|].
  split.
  - apply (proj2 (risk_score_formula priorRecord priorBundle eq_refl)).
    vm_compute. discriminate.
  - vm_compute. reflexivity.
Defined.

(** ** The model on concrete inputs *)

Example severity_words :
  toLowerCase "HIGH" = "high" /\
  severityKey (val "Critical") = "critical" /\
  severityKey (val "error") = "medium" /\
  severityKey undefined = "medium".
Proof. repeat split. Qed.

Example pod_split :
  verticalOf (val "Vertical3-Pod2") = val "Vertical3" /\
  verticalOf (val "A-B-C") = val "A-B" /\
  verticalOf (val "Platform") = null /\
  lastActivityOf (val "2024-01-15T10:00:00Z") = val "2024-01-15" /\
  podOfTopic "pod: core-api " = "core-api" /\
  isPodTopic "Pod:x" = true /\ isPodTopic "go" = false.
Proof. repeat split. Qed.

(** The paging loop reads a second page after a full one, and needs fuel
    for both requests. *)
Example paging_two_pages :
  fetchPages 1 (twoPages "open") 1 [] = Pending /\
  (exists s, fetchDependabotAlerts 2 twoPages (daysAgo 30 0) sampleNow
               = Resolved s /\
             total s = 101 /\
             severity s !! "high" = Some 100 /\
             severity s !! "low" = Some 1 /\
             openedLast30Days s = 100 /\
             (exists a, aging s = Some a /\
                        ageBuckets a !! "0-7" = Some 100 /\
                        ageBuckets a !! "31-90" = Some 1 /\
                        oldestAge a = 40 /\ averageAge a = 3)).
Proof.
  split; [reflexivity|].
  eexists. split; [reflexivity|]. vm_compute.
  repeat split. eexists. repeat split.
Qed.

(** An alert created exactly thirty days before the clock reading counts
    as opened in the last 30 days, one created a millisecond earlier does
    not; a closing date before the creation date gives no remediation
    time. *)
Example thirty_days_and_mttr :
  let alerts :=
    [alertAt "open" (daysAgo 30 0) None "high";
     alertAt "open" (daysAgo 30 1) None "high";
     alertAt "dismissed" (daysAgo 10 0) (Some (daysAgo 4 0)) "medium";
     alertAt "dismissed" (daysAgo 10 0) (Some (daysAgo 5 0)) "medium";
     alertAt "dismissed" (daysAgo 2 0) (Some (daysAgo 9 0)) "low"] in
  let s := summarizeDependabot alerts (daysAgo 30 0) sampleNow in
  openedLast30DaysBySeverity s !! "high" = Some 1 /\
  openedLast30Days s = 4 /\
  closedLast30Days s = 3 /\
  mttr s = Some 6 /\
  total s = 2 /\
  ecosystems s = Some ["npm"].
Proof. vm_compute. repeat split. Qed.

(** Ages of 7 days, of 7 days and some hours, and of 8 days *)
Example age_of_open_alert :
  ageBucket (daysBetween (daysAgo 7 0) sampleNow) = "0-7" /\
  ageBucket (daysBetween (daysAgo 7 86399999) sampleNow) = "0-7" /\
  ageBucket (daysBetween (daysAgo 8 0) sampleNow) = "8-30" /\
  ageBucket (daysBetween (daysAgo 180 86399999) sampleNow) = "91-180" /\
  ageBucket (daysBetween (daysAgo 181 0) sampleNow) = "180+".
Proof. repeat split. Qed.

Example rounding :
  round_div 7 2 = 4 /\ round_div 5 2 = 3 /\ round_div (-5) 2 = -2 /\
  Double.round (Double.div (Double.of_Z 5) (Double.of_Z 2)) = Double.of_Z 3 /\
  Double.round (Double.div (Double.of_Z (-5)) (Double.of_Z 2)) = Double.of_Z (-2) /\
  Double.round (Double.div (Double.of_Z 7) (Double.of_Z 5)) = Double.of_Z 1 /\
  Double.round (Double.div (Double.of_Z (-1)) (Double.of_Z 5)) = S754_zero true.
Proof. vm_compute. repeat split. Qed.

(** The last record with a key wins, at the position of the first. *)
Example dedup_last_wins :
  uniqueReposOf [freshSample; priorRecord; freshAssigned] = [freshAssigned] /\
  existingMapOf [freshSample; freshAssigned] !! repoKey priorRecord
    = Some freshAssigned.
Proof. split; reflexivity. Qed.

(** A new repository keeps the pod that enrichment found and gets an empty
    engineering manager. *)
Example merge_new_repository :
  exists merged,
    mergeWithOwnership [freshAssigned] [] = [merged] /\
    pod merged = val "Core-Backend" /\
    engineeringManager merged = val "".
Proof. eexists. repeat split. Qed.

(** * Further properties *)

(** ** Pagination *)

Lemma fetchPages_pageOf fuel : forall l k acc,
  (length (drop (k * PER_PAGE) l) / PER_PAGE < fuel)%nat ->
  fetchPages fuel (pageOf l) (S k) acc =
  Resolved (acc ++ drop (k * PER_PAGE) l)%list.
Proof.
  induction fuel as [|fuel IH]; intros l k acc Hfuel; [lia|].
  cbn [fetchPages]. unfold pageOf at 1.
  replace (S k - 1)%nat with k by lia.
  set (rest := drop (k * PER_PAGE) l) in *.
  destruct (Nat.eqb_spec (length (take PER_PAGE rest)) PER_PAGE) as [Hfull|Hshort].
  - rewrite length_take in Hfull.
    assert (Hlen : (PER_PAGE <= length rest)%nat) by lia.
    assert (Hd : drop (S k * PER_PAGE) l = drop PER_PAGE rest).
    { unfold rest. rewrite drop_drop. f_equal. lia. }
    rewrite IH; rewrite Hd.
    + f_equal. rewrite <- app_assoc. f_equal. apply take_drop.
    + rewrite length_drop. unfold PER_PAGE in *.
      replace (length rest) with ((length rest - 100) + 1 * 100)%nat in Hfuel
        by lia.
      rewrite Nat.div_add in Hfuel by lia. lia.
  - rewrite length_take in Hshort.
    rewrite take_ge by lia. reflexivity.
Qed.

(** X1. When the API holds a list of alerts per state and serves them a
    hundred at a time, the paging loop collects every alert of the list
    once and in order, and each fetcher summarises the concatenation of
    its states' lists in the order it queries them. *)
Theorem paging_collects_all :
  forall (fuel : nat) (byState : string -> list Alert) (thirtyDaysAgo now : Z),
    (forall st, (length (byState st) / PER_PAGE < fuel)%nat) ->
    (forall st acc,
       fetchPages fuel (serving byState st) 1 acc =
       Resolved (acc ++ byState st)%list) /\
    fetchCodeScanningAlerts fuel (serving byState) thirtyDaysAgo now =
      Resolved (summarizeCodeScanning
                  (byState "open" ++ byState "closed" ++ byState "dismissed")%list
                  thirtyDaysAgo now) /\
    fetchDependabotAlerts fuel (serving byState) thirtyDaysAgo now =
      Resolved (summarizeDependabot
                  (byState "open" ++ byState "dismissed" ++ byState "fixed" ++
                   byState "auto_dismissed")%list
                  thirtyDaysAgo now) /\
    fetchSecretScanningAlerts fuel (serving byState) thirtyDaysAgo now =
      Resolved (summarizeSecretScanning (byState "open" ++ byState "resolved")%list
                  thirtyDaysAgo now).
Proof.
  intros fuel byState thirtyDaysAgo now Hfuel.
  assert (Hpages : forall st acc,
    fetchPages fuel (serving byState st) 1 acc = Resolved (acc ++ byState st)%list).
  { intros st acc.
    pose proof (fetchPages_pageOf fuel (byState st) 0%nat acc) as H.
    cbn [Nat.mul drop] in H. apply H, Hfuel. }
  split; [exact Hpages|].
  unfold fetchCodeScanningAlerts, fetchDependabotAlerts,
    fetchSecretScanningAlerts.
  cbn [fetchStates].
  repeat (rewrite !Hpages; cbn [await try_catch app]).
  rewrite <- !app_assoc. done.
Qed.

Lemma paging_collects_all_witness :
  (forall st, (length (openOnly manyOpen st) / PER_PAGE < 2)%nat) /\
  fetchPages 2 (serving (openOnly manyOpen) "open") 1 [] = Resolved manyOpen /\
  fetchPages 1 (serving (openOnly manyOpen) "open") 1 [] = Pending.
Proof.
  assert (H : forall st, (length (openOnly manyOpen st) / PER_PAGE < 2)%nat).
  { intros st. unfold openOnly. destruct (String.eqb st "open"); vm_compute; lia. }
  split; [exact H|]. split; [|reflexivity].
  exact (proj1 (paging_collects_all 2 (openOnly manyOpen) 0 0 H) "open" []).
Defined.

Lemma fetchPages_rejected_source fuel request : forall page alerts e,
  fetchPages fuel request page alerts = Rejected e ->
  exists p, request p = inl e.
Proof.
  induction fuel as [|fuel IH]; intros page alerts e; cbn; [done|].
  destruct (request page) as [err|[response|]] eqn:Hreq; [| |done].
  - destruct (is_403_or_404 err); [done|]. intros [= <-]. by exists page.
  - destruct (Nat.eqb (length response) PER_PAGE); [apply IH | done].
Qed.

Lemma fetchStates_rejected_source fuel endpoint states : forall alerts e,
  fetchStates fuel endpoint states alerts = Rejected e ->
  exists st page, st ∈ states /\ endpoint st page = inl e.
Proof.
  induction states as [|st states IH]; intros alerts e; cbn; [done|].
  destruct (fetchPages fuel (endpoint st) 1 alerts) as [alerts'|err|] eqn:Hp; cbn.
  - intros (st' & page & Hin & Hreq)%IH. exists st', page. split; [by right|done].
  - intros [= <-]. apply fetchPages_rejected_source in Hp as [page Hreq].
    exists st, page. split; [by left|done].
  - done.
Qed.

(** X2. A fetcher never makes up or rewrites an error: when it rejects, it
    rejects with the very error that the endpoint answered to one of its
    requests, and that error is neither a 403 nor a 404. *)
Theorem fetcher_rejects_with_endpoint_error :
  forall (fuel : nat) (endpoint : Endpoint) (thirtyDaysAgo now : Z) (e : HttpError),
    fetchCodeScanningAlerts fuel endpoint thirtyDaysAgo now = Rejected e \/
    fetchDependabotAlerts fuel endpoint thirtyDaysAgo now = Rejected e \/
    fetchSecretScanningAlerts fuel endpoint thirtyDaysAgo now = Rejected e ->
    is_403_or_404 e = false /\
    exists st page, endpoint st page = inl e.
Proof.
  intros fuel endpoint thirtyDaysAgo now e.
  unfold fetchCodeScanningAlerts, fetchDependabotAlerts,
    fetchSecretScanningAlerts.
  intros [H|[H|H]];
    match type of H with
    | context [fetchStates ?f ?ep ?sts ?acc] =>
        pose proof (fetchStates_rejected f ep sts acc) as Hrej;
        pose proof (fetchStates_rejected_source f ep sts acc) as Hsrc;
        destruct (fetchStates f ep sts acc) as [alerts|err|]; cbn in H
    end;
    try discriminate;
    unfold onStatusDisabled in H; rewrite (Hrej err eq_refl) in H;
    injection H as <-;
    (split; [by apply Hrej|]);
    destruct (Hsrc err eq_refl) as (st & page & _ & Hreq); by exists st, page.
Qed.

Lemma fetcher_rejects_with_endpoint_error_witness :
  fetchDependabotAlerts 1 (answering (httpError 500)) 0 0
    = Rejected (httpError 500) /\
  is_403_or_404 (httpError 500) = false /\
  exists st page, answering (httpError 500) st page = inl (httpError 500).
Proof.
  split; [reflexivity|].
  exact (fetcher_rejects_with_endpoint_error 1 (answering (httpError 500)) 0 0
           (httpError 500) (or_intror (or_introl eq_refl))).
Defined.

(** ** The 30-day counts *)









(** ** Open counts, ages and remediation time *)

Lemma labelled_partition label openAlerts :
  len openAlerts =
  countSeverity label "critical" openAlerts + countSeverity label "high" openAlerts +
  countSeverity label "medium" openAlerts + countSeverity label "low" openAlerts +
  len (List.filter (outsideFour label) openAlerts).
Proof.
  unfold countSeverity, outsideFour, includes, OPEN_SEVERITIES.
  induction openAlerts as [|a l IH]; cbn [List.filter]; [reflexivity|].
  generalize (toLowerCase (jsor_default (label a) "")). intros w.
  cbn [existsb] in *.
  destruct (String.eqb_spec w "critical") as [->|H1];
    [|destruct (String.eqb_spec w "high") as [->|H2];
      [|destruct (String.eqb_spec w "medium") as [->|H3];
        [|destruct (String.eqb_spec w "low") as [->|H4]]]];
    cbn [String.eqb Ascii.eqb Bool.eqb orb negb andb];
    unfold len in *; cbn [length]; lia.
Qed.

(** X4. In the summary of a kind that carries a severity, the four open
    counts and the number of open alerts whose label is none of the four
    words add up to [total]; so critical + high + medium + low never
    exceeds [total], and falls short of it by exactly the open alerts that
    are labelled 'info', unlabelled, or labelled otherwise. *)
Theorem open_counts_add_up :
  forall (alerts : list Alert) (thirtyDaysAgo now : Z),
    let openAlerts := List.filter (stateIs "open") alerts in
    let cs := summarizeCodeScanning alerts thirtyDaysAgo now in
    let dep := summarizeDependabot alerts thirtyDaysAgo now in
    severity cs !!! "critical" + severity cs !!! "high" +
      severity cs !!! "medium" + severity cs !!! "low" +
      len (List.filter (outsideFour codeScanningLabel) openAlerts) = total cs /\
    severity dep !!! "critical" + severity dep !!! "high" +
      severity dep !!! "medium" + severity dep !!! "low" +
      len (List.filter (outsideFour dependabotLabel) openAlerts) = total dep /\
    Forall (fun k => 0 <= severity cs !!! k <= total cs /\
                     0 <= severity dep !!! k <= total dep) OPEN_SEVERITIES.
Proof.
  intros alerts thirtyDaysAgo now. cbn zeta.
  unfold summarizeCodeScanning, summarizeDependabot. cbn [severity total].
  set (openAlerts := List.filter (stateIs "open") alerts).
  pose proof (labelled_partition codeScanningLabel openAlerts) as Hcs.
  pose proof (labelled_partition dependabotLabel openAlerts) as Hdep.
  assert (Hnn : forall label w, 0 <= countSeverity label w openAlerts)
    by (intros; unfold countSeverity, len; lia).
  assert (Hnf : forall label,
    0 <= len (List.filter (outsideFour label) openAlerts)) by (intros; unfold len; lia).
  assert (Hl : forall label,
    openSeverityCounts label openAlerts !!! "critical"
      = countSeverity label "critical" openAlerts /\
    openSeverityCounts label openAlerts !!! "high"
      = countSeverity label "high" openAlerts /\
    openSeverityCounts label openAlerts !!! "medium"
      = countSeverity label "medium" openAlerts /\
    openSeverityCounts label openAlerts !!! "low"
      = countSeverity label "low" openAlerts).
  { intros label. unfold openSeverityCounts. rewrite !lookup_total_alt.
    split_and!; reflexivity. }
  destruct (Hl codeScanningLabel) as (C1 & C2 & C3 & C4).
  destruct (Hl dependabotLabel) as (D1 & D2 & D3 & D4).
  pose proof (Hnf codeScanningLabel). pose proof (Hnf dependabotLabel).
  pose proof (Hnn codeScanningLabel "critical").
  pose proof (Hnn codeScanningLabel "high").
  pose proof (Hnn codeScanningLabel "medium").
  pose proof (Hnn codeScanningLabel "low").
  pose proof (Hnn dependabotLabel "critical").
  pose proof (Hnn dependabotLabel "high").
  pose proof (Hnn dependabotLabel "medium").
  pose proof (Hnn dependabotLabel "low").
  split_and!; [rewrite C1, C2, C3, C4; lia | rewrite D1, D2, D3, D4; lia |].
  unfold OPEN_SEVERITIES.
  repeat apply Forall_cons_2; try apply Forall_nil_2;
    rewrite ?C1, ?C2, ?C3, ?C4, ?D1, ?D2, ?D3, ?D4; lia.
Qed.

Lemma ageBucket_in d : ageBucket d ∈ AGE_BUCKETS.
Proof.
  unfold ageBucket, AGE_BUCKETS.
  repeat match goal with
         | |- context [?x <=? ?y] => destruct (x <=? y)
         end; set_solver.
Qed.

Lemma aged_partition now openAlerts :
  len openAlerts =
  len (List.filter (agedIn now "0-7") openAlerts) +
  len (List.filter (agedIn now "8-30") openAlerts) +
  len (List.filter (agedIn now "31-90") openAlerts) +
  len (List.filter (agedIn now "91-180") openAlerts) +
  len (List.filter (agedIn now "180+") openAlerts) +
  len (List.filter undated openAlerts).
Proof.
  induction openAlerts as [|a l IH]; cbn [List.filter]; [reflexivity|].
  unfold agedIn, undated in *.
  destruct (created_at a) as [created|];
    [|unfold len in *; cbn [length]; lia].
  pose proof (ageBucket_in (daysBetween created now)) as Hb.
  unfold AGE_BUCKETS in Hb. rewrite !elem_of_cons, elem_of_nil in Hb.
  destruct Hb as [Hb|[Hb|[Hb|[Hb|[Hb|[]]]]]]; rewrite Hb;
    cbn [String.eqb Ascii.eqb Bool.eqb]; unfold len in *; cbn [length]; lia.
Qed.

(** X5. In the summary of each kind the five age-bucket counts and the
    number of open alerts without a creation date add up to [total]: every
    dated open alert sits in exactly one bucket. *)
Theorem age_buckets_add_up :
  forall (alerts : list Alert) (thirtyDaysAgo now : Z),
    Forall (fun summary =>
      exists a, aging summary = Some a /\
        ageBuckets a !!! "0-7" + ageBuckets a !!! "8-30" +
        ageBuckets a !!! "31-90" + ageBuckets a !!! "91-180" +
        ageBuckets a !!! "180+" +
        len (List.filter undated (List.filter (stateIs "open") alerts))
        = total summary)
      [summarizeCodeScanning alerts thirtyDaysAgo now;
       summarizeDependabot alerts thirtyDaysAgo now;
       summarizeSecretScanning alerts thirtyDaysAgo now].
Proof.
  intros alerts thirtyDaysAgo now.
  set (openAlerts := List.filter (stateIs "open") alerts).
  assert (H : ageBuckets (agingOf now openAlerts) !!! "0-7" +
              ageBuckets (agingOf now openAlerts) !!! "8-30" +
              ageBuckets (agingOf now openAlerts) !!! "31-90" +
              ageBuckets (agingOf now openAlerts) !!! "91-180" +
              ageBuckets (agingOf now openAlerts) !!! "180+" +
              len (List.filter undated openAlerts) = len openAlerts).
  { rewrite !lookup_total_alt.
    rewrite !agingOf_bucket_count by (unfold AGE_BUCKETS; set_solver).
    cbn [default]. symmetry. apply aged_partition. }
  repeat apply Forall_cons_2; try apply Forall_nil_2;
    (eexists; split; [reflexivity|]); exact H.
Qed.





Lemma round_div_nonneg p q : 0 <= p -> 0 < q -> 0 <= round_div p q.
Proof. intros Hp Hq. unfold round_div. apply Z.div_pos; lia. Qed.

Lemma mttr_fold_nonneg closing alerts : forall acc,
  0 <= fst acc -> 0 <= snd acc ->
  0 <= fst (foldl (mttrStep closing) acc alerts) /\
  0 <= snd (foldl (mttrStep closing) acc alerts).
Proof.
  induction alerts as [|a l IH]; intros acc H1 H2; cbn [foldl]; [done|].
  apply IH; unfold mttrStep;
    destruct (created_at a), (closing a); try done;
    destruct (Z.leb_spec 0 (daysBetween z z0)); cbn; lia.
Qed.

Lemma mttrOf_nonneg closing closedAlerts : 0 <= mttrOf closing closedAlerts.
Proof.
  unfold mttrOf.
  destruct (mttr_fold_nonneg closing closedAlerts (0, 0)) as [H1 H2]; [done..|].
  destruct (Z.ltb_spec 0 (snd (foldl (mttrStep closing) (0, 0) closedAlerts)));
    [by apply round_div_nonneg | done].
Qed.

Lemma daysBetween_negative earlier later :
  later < earlier -> daysBetween earlier later < 0.
Proof.
  intros H. unfold daysBetween, MS_PER_DAY.
  apply Z.div_lt_upper_bound; lia.
Qed.

Lemma mttrStep_skewed closing acc a :
  skewed closing a = true -> mttrStep closing acc a = acc.
Proof.
  unfold skewed, mttrStep.
  destruct (created_at a) as [c|], (closing a) as [d|]; try done.
  intros H%Z.ltb_lt. apply daysBetween_negative in H.
  destruct (Z.leb_spec 0 (daysBetween c d)); [lia | done].
Qed.

Lemma mttrOf_skip_skewed closing (keep : Alert -> bool) l1 l2 a :
  skewed closing a = true ->
  mttrOf closing (List.filter keep (l1 ++ a :: l2)) =
  mttrOf closing (List.filter keep (l1 ++ l2)).
Proof.
  intros Hs. unfold mttrOf.
  rewrite !List.filter_app. cbn [List.filter].
  destruct (keep a); [|done].
  rewrite !foldl_app. cbn [foldl]. by rewrite mttrStep_skewed.
Qed.

(** X7. The mean time to remediate of a summary is never negative, and an
    alert whose closing date lies before its creation date changes it in
    no way: such an alert is left out of the mean, not counted as a
    negative or zero duration. *)
Theorem mttr_ignores_clock_skew :
  forall (l1 l2 : list Alert) (a : Alert) (thirtyDaysAgo now : Z),
    (exists m, mttr (summarizeCodeScanning (l1 ++ a :: l2) thirtyDaysAgo now)
                 = Some m /\ 0 <= m) /\
    (exists m, mttr (summarizeDependabot (l1 ++ a :: l2) thirtyDaysAgo now)
                 = Some m /\ 0 <= m) /\
    (exists m, mttr (summarizeSecretScanning (l1 ++ a :: l2) thirtyDaysAgo now)
                 = Some m /\ 0 <= m) /\
    (skewed codeScanningClosing a = true ->
     mttr (summarizeCodeScanning (l1 ++ a :: l2) thirtyDaysAgo now) =
     mttr (summarizeCodeScanning (l1 ++ l2) thirtyDaysAgo now)) /\
    (skewed dependabotClosing a = true ->
     mttr (summarizeDependabot (l1 ++ a :: l2) thirtyDaysAgo now) =
     mttr (summarizeDependabot (l1 ++ l2) thirtyDaysAgo now)) /\
    (skewed resolved_at a = true ->
     mttr (summarizeSecretScanning (l1 ++ a :: l2) thirtyDaysAgo now) =
     mttr (summarizeSecretScanning (l1 ++ l2) thirtyDaysAgo now)).
Proof.
  intros l1 l2 a thirtyDaysAgo now.
  unfold summarizeCodeScanning, summarizeDependabot, summarizeSecretScanning.
  cbn [mttr].
  split_and!; try (eexists; split; [reflexivity | apply mttrOf_nonneg]);
    intros Hs; f_equal; by apply mttrOf_skip_skewed.
Qed.

(** ** Ecosystems and secret types *)

Lemma includes_elem l s : includes l s = true <-> s ∈ l.
Proof.
  unfold includes. rewrite existsb_exists. split.
  - intros (w & Hin & ->%String.eqb_eq). by apply list_elem_of_In.
  - intros Hin. exists s. split; [by apply list_elem_of_In | apply String.eqb_refl].
Qed.

Lemma ecosystems_fold openAlerts : forall seen,
  NoDup seen ->
  NoDup (foldl addEcosystem seen openAlerts) /\
  forall e, e ∈ foldl addEcosystem seen openAlerts <->
            e ∈ seen \/
            exists a, a ∈ openAlerts /\ package_ecosystem a = val e /\ e <> "".
Proof.
  induction openAlerts as [|a l IH]; intros seen Hnd; cbn [foldl].
  - split; [done|]. intros e. split; [by left|].
    intros [?|(a & []%elem_of_nil & _)]; done.
  - assert (Hstep : NoDup (addEcosystem seen a) /\
      forall e, e ∈ addEcosystem seen a <->
                e ∈ seen \/ (package_ecosystem a = val e /\ e <> "")).
    { unfold addEcosystem.
      destruct (package_ecosystem a) as [| |x];
        try (split; [done|]; intros e; split; [by left | by intros [?|[? _]]]).
      unfold truthy, string_truthy.
      destruct (String.eqb_spec x "") as [->|Hx]; cbn [negb].
      { split; [done|]. intros e. split; [by left|].
        intros [?|[Heq ?]]; [done|]. by injection Heq as <-. }
      destruct (includes seen x) eqn:Hinc.
      - apply includes_elem in Hinc. split; [done|]. intros e. split; [by left|].
        intros [?|[Heq ?]]; [done|]. by injection Heq as <-.
      - assert (x ∉ seen) by (intros ?%includes_elem; congruence).
        split.
        + apply NoDup_app. split_and!; [done| |apply NoDup_singleton].
          intros y Hy ->%list_elem_of_singleton. done.
        + intros e. rewrite elem_of_app, list_elem_of_singleton. split.
          * intros [?| ->]; [by left | by right].
          * intros [?|[Heq ?]]; [by left|]. injection Heq as <-. by right. }
    destruct Hstep as [Hnd' Hmem].
    destruct (IH (addEcosystem seen a) Hnd') as [Hnd'' Hmem''].
    split; [done|]. intros e. rewrite Hmem'', Hmem. split.
    + intros [[?|[? ?]]|(b & Hb & ? & ?)]; [by left| |].
      * right. exists a. split; [by left | done].
      * right. exists b. split; [by right | done].
    + intros [?|(b & [->|Hb]%elem_of_cons & ? & ?)].
      * by left; left.
      * by left; right.
      * right. by exists b.
Qed.

(** X8. The [ecosystems] of a dependency summary lists each non-empty
    package ecosystem of an open alert exactly once, and nothing else. *)
Theorem ecosystems_of_open_alerts :
  forall (alerts : list Alert) (thirtyDaysAgo now : Z),
  exists es,
    ecosystems (summarizeDependabot alerts thirtyDaysAgo now) = Some es /\
    NoDup es /\
    forall e, e ∈ es <->
              exists a, a ∈ alerts /\ state a = "open" /\
                        package_ecosystem a = val e /\ e <> "".
Proof.
  intros alerts thirtyDaysAgo now. eexists. split; [reflexivity|].
  destruct (ecosystems_fold (List.filter (stateIs "open") alerts) [])
    as [Hnd Hmem]; [apply NoDup_nil_2|].
  split; [done|]. intros e. rewrite Hmem. split.
  - intros [[]%elem_of_nil|(a & Ha & He & Hne)].
    apply list_elem_of_In, filter_In in Ha as [Ha Hs].
    exists a. split_and!; try done; [by apply list_elem_of_In|].
    by apply String.eqb_eq.
  - intros (a & Ha & Hs & He & Hne). right. exists a. split; [|done].
    apply list_elem_of_In, filter_In. split; [by apply list_elem_of_In|].
    unfold stateIs. rewrite Hs. apply String.eqb_refl.
Qed.

Lemma secretTypes_fold t openAlerts : forall types : gmap string Z,
  foldl addSecretType types openAlerts !! t =
  match types !! t with
  | Some n => Some (n + len (List.filter (secretTyped t) openAlerts))
  | None => if len (List.filter (secretTyped t) openAlerts) =? 0 then None
            else Some (len (List.filter (secretTyped t) openAlerts))
  end.
Proof.
  induction openAlerts as [|a l IH]; intros types; cbn [foldl List.filter].
  - unfold len; cbn [length Z.of_nat]. cbn [Z.eqb].
    destruct (types !! t); [f_equal; lia|done].
  - rewrite IH. unfold addSecretType.
    assert (Hhead : secretTyped t a =
                    String.eqb (jsor_default (secret_type a) "unknown") t)
      by reflexivity.
    rewrite Hhead. clear Hhead.
    generalize (jsor_default (secret_type a) "unknown"). intros ty.
    rewrite lookup_insert.
    destruct (String.eqb_spec ty t) as [->|Hne].
    + rewrite decide_True by done. unfold len. cbn [length].
      destruct (types !! t); cbn [default id]; [f_equal; lia|].
      destruct (Z.eqb_spec (Z.of_nat (S (length (List.filter (secretTyped t) l)))) 0);
        [lia|].
      f_equal. lia.
    + rewrite decide_False by done. done.
Qed.


Lemma mttr_ignores_clock_skew_witness :
  let a := alertAt "dismissed" (daysAgo 2 0) (Some (daysAgo 9 0)) "low" in
  let b := alertAt "dismissed" (daysAgo 10 0) (Some (daysAgo 4 0)) "medium" in
  skewed dependabotClosing a = true /\
  mttr (summarizeDependabot [b; a] (daysAgo 30 0) sampleNow) =
  mttr (summarizeDependabot [b] (daysAgo 30 0) sampleNow) /\
  mttr (summarizeDependabot [b] (daysAgo 30 0) sampleNow) = Some 6.
Proof.
  cbn zeta. split; [reflexivity|]. split; [|reflexivity].
  exact (proj1 (proj2 (proj2 (proj2 (proj2
    (mttr_ignores_clock_skew
       [alertAt "dismissed" (daysAgo 10 0) (Some (daysAgo 4 0)) "medium"] []
       (alertAt "dismissed" (daysAgo 2 0) (Some (daysAgo 9 0)) "low")
       (daysAgo 30 0) sampleNow))))) eq_refl).
Defined.

(** ** Order of the alerts *)

Lemma foldl_comm_perm {A B} (f : A -> B -> A) :
  (forall a x y, f (f a x) y = f (f a y) x) ->
  forall l1 l2, l1 ≡ₚ l2 -> forall a, foldl f a l1 = foldl f a l2.
Proof.
  intros Hcomm l1 l2 Hp.
  induction Hp as [|x l1 l2 _ IH|x y l|l1 l2 l3 _ IH1 _ IH2]; intros a; cbn [foldl].
  - done.
  - apply IH.
  - by rewrite Hcomm.
  - by rewrite IH1.
Qed.

Lemma filter_perm {A} (f : A -> bool) l1 l2 :
  l1 ≡ₚ l2 -> List.filter f l1 ≡ₚ List.filter f l2.
Proof.
  induction 1 as [|x l1 l2 _ IH|x y l|l1 l2 l3 _ IH1 _ IH2]; cbn [List.filter].
  - done.
  - destruct (f x); [by constructor | done].
  - destruct (f x), (f y); try done. apply perm_swap.
  - by etrans.
Qed.

Lemma incr_comm k1 k2 (m : gmap string Z) :
  incr k1 (incr k2 m) = incr k2 (incr k1 m).
Proof.
  apply map_eq. intros i. unfold incr. rewrite !lookup_alter.
  repeat case_decide; subst; rewrite ?lookup_alter_eq, ?lookup_alter_ne by done;
    done.
Qed.

Lemma agingStep_comm now acc x y :
  agingStep now (agingStep now acc x) y = agingStep now (agingStep now acc y) x.
Proof.
  unfold agingStep.
  destruct (created_at x) as [cx|], (created_at y) as [cy|]; cbn; try done.
  f_equal; [lia | lia | apply incr_comm].
Qed.

Lemma deltaStep_comm label closing t30 acc x y :
  deltaStep label closing t30 (deltaStep label closing t30 acc x) y =
  deltaStep label closing t30 (deltaStep label closing t30 acc y) x.
Proof.
  unfold deltaStep. cbn [fst snd]. f_equal.
  - destruct (created_at x) as [cx|], (created_at y) as [cy|]; try done.
    destruct (t30 <=? cx), (t30 <=? cy); try done. apply incr_comm.
  - destruct (closing x) as [cx|], (closing y) as [cy|]; try done.
    destruct (t30 <=? cx), (t30 <=? cy); try done. apply incr_comm.
Qed.

Lemma mttrStep_comm closing acc x y :
  mttrStep closing (mttrStep closing acc x) y =
  mttrStep closing (mttrStep closing acc y) x.
Proof.
  unfold mttrStep. destruct acc as [t n].
  destruct (created_at x) as [cx|], (closing x) as [dx|],
           (created_at y) as [cy|], (closing y) as [dy|]; try done;
    repeat match goal with
           | |- context [0 <=? ?d] => destruct (0 <=? d)
           end; cbn [fst snd]; try done; f_equal; lia.
Qed.

Lemma secretDeltaStep_comm t30 acc x y :
  secretDeltaStep t30 (secretDeltaStep t30 acc x) y =
  secretDeltaStep t30 (secretDeltaStep t30 acc y) x.
Proof.
  unfold secretDeltaStep. destruct acc as [o c]. cbn [fst snd]. f_equal.
  - destruct (created_at x) as [cx|], (created_at y) as [cy|]; try done.
    destruct (t30 <=? cx), (t30 <=? cy); lia.
  - destruct (resolved_at x) as [cx|], (resolved_at y) as [cy|]; try done.
    destruct (t30 <=? cx), (t30 <=? cy); lia.
Qed.

Lemma len_filter_perm {A} (f : A -> bool) l1 l2 :
  l1 ≡ₚ l2 -> len (List.filter f l1) = len (List.filter f l2).
Proof.
  intros Hp. unfold len. by rewrite (Permutation_length (filter_perm f _ _ Hp)).
Qed.

Lemma secretTypes_perm l1 l2 :
  l1 ≡ₚ l2 -> foldl addSecretType ∅ l1 = foldl addSecretType ∅ l2.
Proof.
  intros Hp. apply map_eq. intros t. rewrite !secretTypes_fold.
  by rewrite (len_filter_perm (secretTyped t) _ _ Hp).
Qed.

Lemma agingOf_perm now l1 l2 : l1 ≡ₚ l2 -> agingOf now l1 = agingOf now l2.
Proof.
  intros Hp. unfold agingOf, len.
  rewrite (foldl_comm_perm _ (agingStep_comm now) _ _ Hp).
  by rewrite (Permutation_length Hp).
Qed.

Lemma mttrOf_perm closing l1 l2 :
  l1 ≡ₚ l2 -> mttrOf closing l1 = mttrOf closing l2.
Proof.
  intros Hp. unfold mttrOf.
  by rewrite (foldl_comm_perm _ (mttrStep_comm closing) _ _ Hp).
Qed.

Lemma openSeverityCounts_perm label l1 l2 :
  l1 ≡ₚ l2 -> openSeverityCounts label l1 = openSeverityCounts label l2.
Proof.
  intros Hp. unfold openSeverityCounts, countSeverity.
  by rewrite !(len_filter_perm _ _ _ Hp).
Qed.

(** X10. The numbers of a summary do not depend on the order in which the
    alerts were collected: two lists with the same alerts in different
    orders give summaries that agree on every field except [lastUpdated]
    (taken from the first alert) and the order of [ecosystems]. *)
Theorem summary_numbers_ignore_order :
  forall (alerts alerts' : list Alert) (thirtyDaysAgo now : Z),
    alerts ≡ₚ alerts' ->
    sameNumbers (summarizeCodeScanning alerts thirtyDaysAgo now)
                (summarizeCodeScanning alerts' thirtyDaysAgo now) /\
    sameNumbers (summarizeDependabot alerts thirtyDaysAgo now)
                (summarizeDependabot alerts' thirtyDaysAgo now) /\
    sameNumbers (summarizeSecretScanning alerts thirtyDaysAgo now)
                (summarizeSecretScanning alerts' thirtyDaysAgo now).
Proof.
  intros alerts alerts' thirtyDaysAgo now Hp.
  pose proof (fun f => filter_perm f _ _ Hp) as Hf.
  unfold sameNumbers, summarizeCodeScanning, summarizeDependabot,
    summarizeSecretScanning; cbn.
  rewrite !(foldl_comm_perm _ (deltaStep_comm _ _ thirtyDaysAgo) _ _ Hp).
  rewrite !(foldl_comm_perm _ (secretDeltaStep_comm thirtyDaysAgo) _ _ Hp).
  rewrite !(agingOf_perm now _ _ (Hf _)).
  rewrite !(openSeverityCounts_perm _ _ _ (Hf _)).
  rewrite (secretTypes_perm _ _ (Hf (stateIs "open"))).
  rewrite (mttrOf_perm codeScanningClosing _ _ (Hf _)).
  rewrite (mttrOf_perm dependabotClosing _ _ (Hf _)).
  rewrite (mttrOf_perm resolved_at _ _ (Hf _)).
  rewrite !(len_filter_perm _ _ _ Hp).
  by split_and!.
Qed.

Lemma summary_numbers_ignore_order_witness :
  [unlabelledAlert; warningAlert] ≡ₚ [warningAlert; unlabelledAlert] /\
  sameNumbers (summarizeDependabot [unlabelledAlert; warningAlert] 0 0)
              (summarizeDependabot [warningAlert; unlabelledAlert] 0 0).
Proof.
  assert (Hp : [unlabelledAlert; warningAlert] ≡ₚ [warningAlert; unlabelledAlert])
    by apply perm_swap.
  split; [exact Hp|].
  exact (proj1 (proj2 (summary_numbers_ignore_order _ _ 0 0 Hp))).
Defined.

(** ** The counters of a run *)

Lemma enrichStep_stats fuel t30 now acc entry r1 :
  enrichStep fuel t30 now acc entry = Resolved r1 ->
  exists r0, acc = Resolved r0 /\
    errors (stats r1) = errors (stats r0) /\
    updated (stats r1) + skipped (stats r1) =
      updated (stats r0) + skipped (stats r0) + 1 /\
    len (repos r1) - updated (stats r1) = len (repos r0) - updated (stats r0).
Proof.
  unfold enrichStep. destruct acc as [r0|?|]; cbn; [|done|done].
  destruct (enrichRepository _ _ _ _ _) as [[fresh|]|e|] eqn:He; [| | |done].
  - intros [= <-]. exists r0. cbn. split_and!; try done; [lia|].
    unfold len. rewrite length_app. cbn [length]. lia.
  - intros [= <-]. exists r0. cbn. split_and!; try done; lia.
  - by apply enrichRepository_not_rejected in He.
Qed.

Lemma enrich_fold_stats fuel t30 now entries : forall acc result,
  foldl (enrichStep fuel t30 now) acc entries = Resolved result ->
  exists r0, acc = Resolved r0 /\
    errors (stats result) = errors (stats r0) /\
    updated (stats result) + skipped (stats result) =
      updated (stats r0) + skipped (stats r0) + len entries /\
    len (repos result) - updated (stats result) =
      len (repos r0) - updated (stats r0).
Proof.
  induction entries as [|entry entries IH]; intros acc result; cbn [foldl].
  - intros ->. exists result. unfold len; cbn [length]. split_and!; try done; lia.
  - intros H. apply IH in H as (r1 & Hstep & He & Hus & Hl).
    apply enrichStep_stats in Hstep as (r0 & -> & He' & Hus' & Hl').
    exists r0. unfold len in *. cbn [length]. split_and!; try done; lia.
Qed.

(** X11. When the synchronisation of an organization resolves, its
    [errors] counter is 0 whatever happened to the individual
    repositories, every listed repository was counted once as updated or
    as skipped, and the records collected are as many as [updated]. *)
Theorem organization_counters :
  forall (fuel : nat) (orgConfig : OrgApi) (thirtyDaysAgo now : Z)
         (result : OrgResult),
    syncSingleOrganization fuel orgConfig thirtyDaysAgo now = Resolved result ->
    exists entries,
      listing orgConfig = inr entries /\
      errors (stats result) = 0 /\
      updated (stats result) + skipped (stats result) = len entries /\
      len (repos result) = updated (stats result).
Proof.
  intros fuel orgConfig thirtyDaysAgo now result.
  unfold syncSingleOrganization.
  destruct (listing orgConfig) as [e|entries]; cbn; [done|].
  intros H. apply enrich_fold_stats in H as (r0 & [= <-] & He & Hus & Hl).
  exists entries. cbn in *. unfold len in *. cbn [length] in *.
  split_and!; try done; lia.
Qed.

Lemma organization_counters_witness :
  exists result,
    syncSingleOrganization 1
      {| org_name := "engineering";
         listing := inr [(sampleRepo, apiSample (inr (detailedSample false)) noAlerts);
                         (sampleRepo, apiSample (inl (httpError 500)) noAlerts);
                         (sampleRepo, apiSample (inr (detailedSample true)) noAlerts)] |}
      0 0 = Resolved result /\
    errors (stats result) = 0 /\
    updated (stats result) = 1 /\ skipped (stats result) = 2 /\
    len (repos result) = 1.
Proof.
  eexists. split; [reflexivity|].
  destruct (organization_counters 1
    {| org_name := "engineering";
       listing := inr [(sampleRepo, apiSample (inr (detailedSample false)) noAlerts);
                       (sampleRepo, apiSample (inl (httpError 500)) noAlerts);
                       (sampleRepo, apiSample (inr (detailedSample true)) noAlerts)] |}
    0 0 _ eq_refl) as (entries & _ & He & _ & Hl).
  split; [exact He|]. split; [reflexivity|]. split; [reflexivity|]. exact Hl.
Defined.

Lemma orgStep_shift fuel t30 now orgConfigs : forall R S,
  foldl (orgStep fuel t30 now) (Resolved (R, S)) orgConfigs =
  match foldl (orgStep fuel t30 now) (Resolved ([], [])) orgConfigs with
  | Resolved a => Resolved ((R ++ fst a)%list, (S ++ snd a)%list)
  | Rejected e => Rejected e
  | Pending => Pending
  end.
Proof.
  assert (Hstuck : forall l,
    foldl (orgStep fuel t30 now) Pending l = Pending).
  { induction l as [|o l IH]; cbn [foldl]; [done|]. exact IH. }
  induction orgConfigs as [|o l IH]; intros R S; cbn [foldl].
  - cbn. by rewrite !app_nil_r.
  - unfold orgStep at 2 4. cbn [await fst snd].
    destruct (syncSingleOrganization fuel o t30 now) as [result|e|].
    + rewrite (IH (R ++ repos result)%list (S ++ [stats result])%list).
      rewrite (IH ([] ++ repos result)%list ([] ++ [stats result])%list).
      destruct (foldl _ (Resolved ([], [])) l) as [[R' S']| |]; cbn; try done.
      by rewrite <- !app_assoc.
    + rewrite (IH R (S ++ [_])%list), (IH [] ([] ++ [_])%list).
      destruct (foldl _ (Resolved ([], [])) l) as [[R' S']| |]; cbn; try done.
      by rewrite <- !app_assoc.
    + by rewrite Hstuck.
Qed.

Lemma sumStats_app f l1 l2 : sumStats f (l1 ++ l2) = sumStats f l1 + sumStats f l2.
Proof.
  unfold sumStats. rewrite foldl_app.
  generalize (foldl (fun acc st => acc + f st) 0 l1). intros z.
  revert z. induction l2 as [|x l2 IH]; intros z; cbn [foldl]; [lia|].
  rewrite IH, (IH (0 + f x)). lia.
Qed.

Lemma orgFold_app fuel t30 now l1 l2 :
  foldl (orgStep fuel t30 now) (Resolved ([], [])) (l1 ++ l2) =
  match foldl (orgStep fuel t30 now) (Resolved ([], [])) l1 with
  | Resolved a =>
      match foldl (orgStep fuel t30 now) (Resolved ([], [])) l2 with
      | Resolved b => Resolved ((fst a ++ fst b)%list, (snd a ++ snd b)%list)
      | Rejected e => Rejected e
      | Pending => Pending
      end
  | Rejected e => Rejected e
  | Pending => Pending
  end.
Proof.
  rewrite foldl_app.
  destruct (foldl _ (Resolved ([], [])) l1) as [[R S]|e|].
  - apply orgStep_shift.
  - induction l2 as [|o l IH]; cbn [foldl]; [done|]. exact IH.
  - induction l2 as [|o l IH]; cbn [foldl]; [done|]. exact IH.
Qed.

Lemma orgFold_not_rejected fuel t30 now orgConfigs e :
  foldl (orgStep fuel t30 now) (Resolved ([], [])) orgConfigs <> Rejected e.
Proof.
  induction orgConfigs as [|o l IH] using rev_ind; cbn [foldl]; [done|].
  rewrite foldl_app. cbn [foldl].
  destruct (foldl _ (Resolved ([], [])) l) as [a| |]; [| done | done].
  unfold orgStep; cbn [await].
  by destruct (syncSingleOrganization fuel o t30 now).
Qed.

Lemma orgStep_failing fuel t30 now bad e R S :
  listing bad = inl e ->
  orgStep fuel t30 now (Resolved (R, S)) bad =
  Resolved (R, (S ++ [{| updated := 0; skipped := 0; errors := 1 |}])%list).
Proof.
  intros Hbad. unfold orgStep, syncSingleOrganization.
  rewrite Hbad. reflexivity.
Qed.

(** X12. An organization whose authentication or listing fails does not
    stop the run and does not touch the other organizations' data: the run
    with it persists the same repositories and reports the same updated
    and skipped totals as the run without it, and one more error. *)
Theorem failing_organization_contained :
  forall (fuel : nat) (before after : list OrgApi) (bad : OrgApi) (e : HttpError)
         (existingRepos : list RepositoryRecord) (thirtyDaysAgo now : Z)
         (out : SyncOutput),
    listing bad = inl e ->
    syncRepositories fuel (before ++ after) existingRepos thirtyDaysAgo now
      = Resolved out ->
    exists out',
      syncRepositories fuel (before ++ bad :: after) existingRepos thirtyDaysAgo now
        = Resolved out' /\
      repositories out' = repositories out /\
      totalRepos out' = totalRepos out /\
      totalUpdated out' = totalUpdated out /\
      totalSkipped out' = totalSkipped out /\
      totalErrors out' = totalErrors out + 1.
Proof.
  intros fuel before after bad e existingRepos thirtyDaysAgo now out Hbad.
  unfold syncRepositories.
  rewrite (orgFold_app _ _ _ before after).
  rewrite (orgFold_app _ _ _ before (bad :: after)).
  destruct (foldl _ (Resolved ([], [])) before) as [[R1 S1]| |]; [|done|done].
  cbn [foldl]. rewrite (orgStep_failing _ _ _ _ _ _ _ Hbad).
  cbn [app]. rewrite (orgStep_shift _ _ _ after [] [_]).
  destruct (foldl _ (Resolved ([], [])) after) as [[R2 S2]| |]; [|done|done].
  cbn [await fst snd]. intros [= <-]. eexists. split; [reflexivity|].
  cbn [repositories totalRepos totalUpdated totalSkipped totalErrors].
  change (?x :: S2) with ([x] ++ S2)%list.
  rewrite !sumStats_app.
  change (sumStats ?f [?x]) with (0 + f x). cbn [updated skipped errors].
  split_and!; try done; try lia.
Qed.

Lemma failing_organization_contained_witness :
  exists out',
    syncRepositories 1 ([orgSample (apiSample (inr (detailedSample false)) noAlerts)] ++
       failingOrg (httpError 401) ::
       [orgSample (apiSample (inl (httpError 500)) noAlerts)])
      [priorRecord] 0 0 = Resolved out' /\
    totalErrors out' = 1.
Proof.
  destruct (failing_organization_contained 1
    [orgSample (apiSample (inr (detailedSample false)) noAlerts)]
    [orgSample (apiSample (inl (httpError 500)) noAlerts)]
    (failingOrg (httpError 401)) (httpError 401) [priorRecord] 0 0 _
    eq_refl eq_refl) as (out' & Hrun & _ & _ & _ & _ & He).
  exists out'. split; [exact Hrun | exact He].
Defined.

(** X13. No rejected request, of an organization's listing or of any
    repository, makes the run reject before its output is built: the loop
    over the organizations catches both. *)
Theorem run_survives_failed_requests :
  forall (fuel : nat) (orgConfigs : list OrgApi)
         (existingRepos : list RepositoryRecord) (thirtyDaysAgo now : Z)
         (e : HttpError),
    syncRepositories fuel orgConfigs existingRepos thirtyDaysAgo now
      <> Rejected e.
Proof.
  intros fuel orgConfigs existingRepos thirtyDaysAgo now e.
  unfold syncRepositories.
  pose proof (orgFold_not_rejected fuel thirtyDaysAgo now orgConfigs) as Hn.
  destruct (foldl _ (Resolved ([], [])) orgConfigs) as [a|e0|]; cbn; try done.
  by specialize (Hn e0).
Qed.

(** ** Pod and vertical *)


Lemma split_on_nonempty sep s : split_on sep s <> [].
Proof.
  destruct s as [|c s]; cbn; [done|].
  destruct (Ascii.eqb c sep); [done|]. by destruct (split_on sep s).
Qed.











(** ** De-duplication *)

Lemma setKey_fold_NoDup kl : forall ks,
  NoDup ks -> NoDup (foldl (fun ks k => setKey k ks) ks kl).
Proof.
  induction kl as [|k kl IH]; intros ks Hnd; cbn [foldl]; [done|].
  by apply IH, setKey_NoDup.
Qed.

Lemma storeOf_last l k v : (k, v) ∈ storeOf l -> lastByKey k l = Some v.
Proof.
  intros Hin. unfold storeOf in Hin.
  apply store_fold_elem in Hin as [?|[_ []%elem_of_nil]];
    [done | apply NoDup_nil_2].
Qed.

Lemma storeOf_keys l : map repoKey (map snd (storeOf l)) = map fst (storeOf l).
Proof.
  rewrite map_map. apply map_ext_in. intros [k v] Hin. cbn.
  apply list_elem_of_In, storeOf_last, lastByKey_Some in Hin. tauto.
Qed.

Lemma uniqueReposOf_keys l :
  map repoKey (uniqueReposOf l) =
  foldl (fun ks k => setKey k ks) [] (map repoKey l).
Proof.
  unfold uniqueReposOf. fold (storeOf l). rewrite storeOf_keys.
  unfold storeOf. by rewrite store_fold_keys.
Qed.

Lemma uniqueReposOf_elem l r :
  r ∈ uniqueReposOf l <-> lastByKey (repoKey r) l = Some r.
Proof.
  unfold uniqueReposOf. fold (storeOf l). split.
  - intros Hin. apply list_elem_of_In, in_map_iff in Hin as ([k v] & Hv & Hin).
    cbn in Hv. subst v. apply list_elem_of_In, storeOf_last in Hin.
    destruct (lastByKey_Some _ _ _ Hin) as [<- _]. done.
  - intros Hlast. destruct (lastByKey_Some _ _ _ Hlast) as [_ Hin].
    assert (Hkey : repoKey r ∈ map fst (storeOf l)).
    { unfold storeOf. rewrite store_fold_keys, setKey_fold_elem. right.
      apply list_elem_of_In, in_map, list_elem_of_In, Hin. }
    apply list_elem_of_In, in_map_iff in Hkey as ([k v] & Hk & Hv).
    cbn in Hk. subst k. apply list_elem_of_In in Hv.
    pose proof (storeOf_last _ _ _ Hv) as Hl. rewrite Hlast in Hl.
    injection Hl as <-.
    apply list_elem_of_In, in_map_iff. exists (repoKey r, r).
    split; [done | by apply list_elem_of_In].
Qed.

(** X15. De-duplication keeps exactly one record for each key
    organization/repository: no two records of the result share a key,
    and a record is in the result if and only if it is the last record of
    the input with its key. *)
Theorem dedup_keeps_last_record_of_each_key :
  forall (mergedRepos : list RepositoryRecord),
    NoDup (map repoKey (uniqueReposOf mergedRepos)) /\
    (forall r, r ∈ uniqueReposOf mergedRepos <->
               lastByKey (repoKey r) mergedRepos = Some r) /\
    (forall k, k ∈ map repoKey (uniqueReposOf mergedRepos) <->
               k ∈ map repoKey mergedRepos).
Proof.
  intros l. split; [|split].
  - rewrite uniqueReposOf_keys. apply setKey_fold_NoDup, NoDup_nil_2.
  - apply uniqueReposOf_elem.
  - intros k. rewrite uniqueReposOf_keys, setKey_fold_elem, elem_of_nil. tauto.
Qed.

Lemma setKey_present k ks : k ∈ ks -> setKey k ks = ks.
Proof.
  induction ks as [|k' ks IH]; cbn [setKey]; [by intros ?%elem_of_nil|].
  destruct (String.eqb_spec k' k) as [->|Hne]; [done|].
  intros [->|Hin]%elem_of_cons; [done|]. by rewrite IH.
Qed.

Lemma setKey_absent k ks : k ∉ ks -> setKey k ks = (ks ++ [k])%list.
Proof.
  induction ks as [|k' ks IH]; cbn [setKey app]; [done|].
  intros Hnin. apply not_elem_of_cons in Hnin as [Hne Hnin].
  destruct (String.eqb_spec k' k) as [->|_]; [done|]. by rewrite IH.
Qed.

Lemma remove_dups_snoc (l : list string) k :
  remove_dups (l ++ [k]) = (remove_dups (filter (fun x => x <> k) l) ++ [k])%list.
Proof.
  induction l as [|x l IH]; [done|].
  cbn [app remove_dups]. rewrite filter_cons.
  destruct (decide (x = k)) as [->|Hne].
  - rewrite decide_False by tauto.
    destruct (decide_rel elem_of k (l ++ [k])%list) as [_|Hnin]; [apply IH|].
    exfalso. apply Hnin, elem_of_app. right. by apply list_elem_of_singleton.
  - rewrite decide_True by done. cbn [remove_dups].
    destruct (decide_rel elem_of x (l ++ [k])%list) as [Hin|Hnin];
      destruct (decide_rel elem_of x (filter (fun y => y <> k) l)) as [Hin'|Hnin'].
    + apply IH.
    + exfalso. apply Hnin'.
      apply elem_of_app in Hin as [Hin|Hin%list_elem_of_singleton]; [|done].
      by apply list_elem_of_filter.
    + exfalso. apply list_elem_of_filter in Hin' as [_ Hin'].
      apply Hnin, elem_of_app. by left.
    + by rewrite IH.
Qed.

Lemma setKey_fold_order kl : forall ks,
  foldl (fun ks k => setKey k ks) ks kl =
  (ks ++ reverse (remove_dups (reverse (filter (fun k => k ∉ ks) kl))))%list.
Proof.
  induction kl as [|k kl IH]; intros ks; cbn [foldl].
  - by rewrite app_nil_r.
  - rewrite IH, filter_cons. destruct (decide (k ∈ ks)) as [Hin|Hnin].
    + rewrite decide_False by tauto. by rewrite setKey_present.
    + rewrite decide_True by done. rewrite setKey_absent by done.
      rewrite reverse_cons, remove_dups_snoc, reverse_app, reverse_singleton.
      rewrite <- app_assoc. cbn [app]. do 4 f_equal.
      rewrite filter_reverse, list_filter_filter. f_equal.
      apply list_filter_iff. intros x. rewrite elem_of_app, list_elem_of_singleton.
      tauto.
Qed.

(** X16. The records come out of de-duplication in the order in which
    their keys first occur in the input: the keys of the result are the
    keys of the input with every occurrence after the first removed. *)
Theorem dedup_orders_by_first_occurrence :
  forall (mergedRepos : list RepositoryRecord),
    map repoKey (uniqueReposOf mergedRepos) =
    reverse (remove_dups (reverse (map repoKey mergedRepos))).
Proof.
  intros l. rewrite uniqueReposOf_keys, setKey_fold_order. cbn [app].
  do 3 f_equal. induction (map repoKey l) as [|k kl IH]; [done|].
  rewrite filter_cons, decide_True by apply not_elem_of_nil. by rewrite IH.
Qed.

Lemma keys_identify l r1 r2 :
  NoDup (map repoKey l) -> r1 ∈ l -> r2 ∈ l -> repoKey r1 = repoKey r2 -> r1 = r2.
Proof.
  induction l as [|r l IH]; cbn [map]; [by intros _ ?%elem_of_nil|].
  intros [Hnin Hnd]%NoDup_cons.
  assert (Hk : forall x, x ∈ l -> repoKey x <> repoKey r).
  { intros x Hx Heq. apply Hnin. rewrite <- Heq.
    apply list_elem_of_In, in_map, list_elem_of_In, Hx. }
  intros [->|H1]%elem_of_cons [->|H2]%elem_of_cons Heq; try done.
  - by apply Hk in H2.
  - by apply Hk in H1.
  - by apply IH.
Qed.

Lemma filter_unseen (kl : list string) : filter (fun k => k ∉ []) kl = kl.
Proof.
  induction kl as [|k kl IH]; [done|].
  rewrite filter_cons, decide_True by apply not_elem_of_nil. by rewrite IH.
Qed.

Lemma remove_dups_distinct (l : list string) : NoDup l -> remove_dups l = l.
Proof.
  induction l as [|x l IH]; [done|].
  intros [Hnin Hnd]%NoDup_cons. cbn [remove_dups].
  destruct (decide_rel elem_of x l) as [Hin|_]; [done|]. by rewrite IH.
Qed.

Lemma uniqueReposOf_distinct l : NoDup (map repoKey l) -> uniqueReposOf l = l.
Proof.
  intros Hnd. unfold uniqueReposOf. fold (storeOf l).
  assert (Hstore : storeOf l = map (fun r => (repoKey r, r)) l).
  { apply assoc_eq.
    - unfold storeOf. rewrite store_fold_keys, setKey_fold_order, map_map.
      cbn [app map fst].
      rewrite filter_unseen, remove_dups_distinct
        by by rewrite reverse_Permutation.
      by rewrite reverse_involutive.
    - intros k v v' Hv Hv'. apply storeOf_last, lastByKey_Some in Hv as [Hk Hv].
      apply list_elem_of_In, in_map_iff in Hv' as (r & [= <- <-] & Hr).
      apply list_elem_of_In in Hr. by apply (keys_identify l). }
  rewrite Hstore, map_map. cbn [snd]. apply map_id.
Qed.

(** X17. De-duplication changes nothing in a list whose records have
    distinct keys, so running it on its own result changes nothing. *)
Theorem dedup_is_idempotent :
  forall (mergedRepos : list RepositoryRecord),
    (NoDup (map repoKey mergedRepos) -> uniqueReposOf mergedRepos = mergedRepos) /\
    uniqueReposOf (uniqueReposOf mergedRepos) = uniqueReposOf mergedRepos.
Proof.
  intros l. split; [apply uniqueReposOf_distinct|].
  apply uniqueReposOf_distinct.
  rewrite uniqueReposOf_keys. apply setKey_fold_NoDup, NoDup_nil_2.
Qed.

Lemma dedup_is_idempotent_witness :
  uniqueReposOf [priorRecord] = [priorRecord].
Proof.
  apply (proj1 (dedup_is_idempotent [priorRecord])).
  apply NoDup_singleton.
Defined.

(** ** What a run persists *)

Lemma mergeWithOwnership_keys fresh prior :
  map repoKey (mergeWithOwnership fresh prior) = map repoKey fresh.
Proof.
  unfold mergeWithOwnership. rewrite map_map.
  apply map_ext. intros r. apply mergeOne_key.
Qed.

Lemma orgFold_source fuel t30 now orgConfigs : forall R S R' S',
  foldl (orgStep fuel t30 now) (Resolved (R, S)) orgConfigs = Resolved (R', S') ->
  forall r, r ∈ R' ->
    r ∈ R \/
    exists orgConfig result,
      orgConfig ∈ orgConfigs /\
      syncSingleOrganization fuel orgConfig t30 now = Resolved result /\
      r ∈ repos result.
Proof.
  induction orgConfigs as [|o l IH]; intros R S R' S'; cbn [foldl].
  - intros [= <- <-] r Hr. by left.
  - unfold orgStep at 2. cbn [await fst snd].
    destruct (syncSingleOrganization fuel o t30 now) as [result|e|] eqn:Ho.
    + intros H r Hr. destruct (IH _ _ _ _ H r Hr) as [Hin|(o' & res & Ho' & Hs & Hin)].
      * apply elem_of_app in Hin as [Hin|Hin]; [by left|].
        right. exists o, result. split; [by left | done].
      * right. exists o', res. split; [by right | done].
    + intros H r Hr. destruct (IH _ _ _ _ H r Hr) as [Hin|(o' & res & Ho' & Hs & Hin)].
      * by left.
      * right. exists o', res. split; [by right | done].
    + intros H. exfalso. revert H. clear.
      induction l as [|o' l IH]; cbn [foldl]; [done | exact IH].
Qed.

(** X18. In the output of a run no two repositories share the key
    organization/repository, [totalRepos] is the number of repositories
    written, and every repository written has the key of a record that
    the enrichment of some configured organization produced in this run. *)
Theorem run_output_has_distinct_keys :
  forall (fuel : nat) (orgConfigs : list OrgApi)
         (existingRepos : list RepositoryRecord) (thirtyDaysAgo now : Z)
         (out : SyncOutput),
    syncRepositories fuel orgConfigs existingRepos thirtyDaysAgo now
      = Resolved out ->
    NoDup (map repoKey (repositories out)) /\
    totalRepos out = len (repositories out) /\
    length (orgStats out) = length orgConfigs /\
    forall r, r ∈ repositories out ->
      exists orgConfig result fresh,
        orgConfig ∈ orgConfigs /\
        syncSingleOrganization fuel orgConfig thirtyDaysAgo now = Resolved result /\
        fresh ∈ repos result /\ repoKey fresh = repoKey r.
Proof.
  intros fuel orgConfigs existingRepos thirtyDaysAgo now out.
  unfold syncRepositories.
  destruct (foldl _ (Resolved ([], [])) orgConfigs) as [[R S]|e|] eqn:Hfold;
    cbn [await fst snd]; [|done|done].
  intros [= <-]. cbn [repositories totalRepos orgStats].
  split_and!.
  - rewrite uniqueReposOf_keys. apply setKey_fold_NoDup, NoDup_nil_2.
  - done.
  - revert Hfold. clear.
    assert (H : forall l S0 R0,
      foldl (orgStep fuel thirtyDaysAgo now) (Resolved (R0, S0)) l = Resolved (R, S) ->
      length S = (length S0 + length l)%nat).
    { induction l as [|o l IH]; intros S0 R0; cbn [foldl].
      - intros [= _ <-]. cbn [length]. lia.
      - unfold orgStep at 2. cbn [await fst snd].
        destruct (syncSingleOrganization fuel o thirtyDaysAgo now).
        + intros H%IH. rewrite length_app in H. cbn [length] in *. lia.
        + intros H%IH. rewrite length_app in H. cbn [length] in *. lia.
        + intros H. exfalso. revert H. clear.
          induction l as [|o' l IH]; cbn [foldl]; [done | exact IH]. }
    intros Hfold. apply H in Hfold. cbn [length] in Hfold. lia.
  - intros r Hr.
    assert (Hk : repoKey r ∈ map repoKey R).
    { assert (Hin : repoKey r ∈ map repoKey
                (uniqueReposOf (mergeWithOwnership R existingRepos)))
        by apply list_elem_of_In, in_map, list_elem_of_In, Hr.
      rewrite uniqueReposOf_keys, setKey_fold_elem, elem_of_nil,
        mergeWithOwnership_keys in Hin.
      by destruct Hin as [[]|Hin]. }
    apply list_elem_of_In, in_map_iff in Hk as (fresh & Hkey & Hfresh).
    apply list_elem_of_In in Hfresh.
    destruct (orgFold_source _ _ _ _ _ _ _ _ Hfold fresh Hfresh)
      as [[]%elem_of_nil|(o & res & Ho & Hs & Hin)].
    exists o, res, fresh. done.
Qed.

Lemma run_output_has_distinct_keys_witness :
  exists out,
    syncRepositories 1
      [orgSample (apiSample (inr (detailedSample false)) noAlerts);
       orgSample (apiSample (inr (detailedSample false)) noAlerts)]
      [priorRecord] 0 0 = Resolved out /\
    NoDup (map repoKey (repositories out)) /\
    totalRepos out = 1.
Proof.
  eexists. split; [reflexivity|].
  destruct (run_output_has_distinct_keys 1
    [orgSample (apiSample (inr (detailedSample false)) noAlerts);
     orgSample (apiSample (inr (detailedSample false)) noAlerts)]
    [priorRecord] 0 0 _ eq_refl) as (Hnd & Htotal & _).
  split; [exact Hnd | exact Htotal].
Defined.

(** ** What the merge writes *)




(** X20. A pod found on GitHub replaces the persisted one: when the fresh
    record names a pod other than the default text, the merged record has
    that pod whatever the persisted record says.  When the fresh record
    has the default text, the merged record has the persisted pod if that
    is a non-empty string, and the default text otherwise. *)
Theorem github_pod_replaces_persisted_pod :
  forall (existingRepos : list RepositoryRecord) (fresh : RepositoryRecord)
         (p : string),
    pod fresh = val p -> p <> "" ->
    pod (mergeOne (existingMapOf existingRepos) fresh) =
    if String.eqb p NO_POD
    then match lastByKey (repoKey fresh) existingRepos with
         | Some prior => val (jsor_default (pod prior) NO_POD)
         | None => val NO_POD
         end
    else val p.
Proof.
  intros existingRepos fresh p Hp Hne.
  unfold mergeOne. rewrite existingMapOf_lookup.
  assert (Ht : truthy p = true).
  { unfold truthy, string_truthy. by destruct (String.eqb_spec p ""). }
  destruct (lastByKey (repoKey fresh) existingRepos) as [prior|].
  - unfold mergeExisting. cbn [pod]. rewrite Hp. cbn [js_truthy js_differs].
    rewrite Ht. cbn [andb]. by destruct (String.eqb p NO_POD).
  - unfold mergeNew. cbn [pod]. rewrite Hp. cbn [jsor_default]. rewrite Ht.
    destruct (String.eqb_spec p NO_POD) as [->|]; done.
Qed.

Lemma github_pod_replaces_persisted_pod_witness :
  pod (mergeOne (existingMapOf [priorRecord]) freshAssigned) = val "Core-Backend".
Proof.
  exact (github_pod_replaces_persisted_pod [priorRecord] freshAssigned
           "Core-Backend" eq_refl ltac:(discriminate)).
Defined.

(** X21. The merge reads the persisted data only through the last
    persisted record of each fresh record's key: two persisted lists that
    agree on those give the same merge.  In particular persisted records
    whose key no fresh record has do not influence the result and do not
    appear in it. *)
Theorem merge_reads_last_persisted_record :
  forall (githubData existingRepos existingRepos' : list RepositoryRecord),
    (forall r, r ∈ githubData ->
       lastByKey (repoKey r) existingRepos = lastByKey (repoKey r) existingRepos') ->
    mergeWithOwnership githubData existingRepos =
      mergeWithOwnership githubData existingRepos' /\
    forall old, old ∈ existingRepos ->
      repoKey old ∉ map repoKey githubData ->
      repoKey old ∉ map repoKey (mergeWithOwnership githubData existingRepos).
Proof.
  intros githubData existingRepos existingRepos' Hagree. split.
  - unfold mergeWithOwnership. apply map_ext_in. intros r Hr%list_elem_of_In.
    unfold mergeOne. by rewrite !existingMapOf_lookup, Hagree.
  - intros old _ Hnin. by rewrite mergeWithOwnership_keys.
Qed.

Lemma merge_reads_last_persisted_record_witness :
  mergeWithOwnership [freshAssigned] [priorRecord; priorRecord] =
  mergeWithOwnership [freshAssigned] [priorRecord].
Proof.
  apply (merge_reads_last_persisted_record [freshAssigned]
           [priorRecord; priorRecord] [priorRecord]).
  intros r Hr. apply list_elem_of_singleton in Hr. subst r. reflexivity.
Defined.

(** ** The dashboard's average age *)

Lemma sum_fold_bounds lo hi ages : forall acc,
  Forall (fun a => lo <= a <= hi) ages ->
  acc + len ages * lo <= foldl Z.add acc ages <= acc + len ages * hi.
Proof.
  induction ages as [|a ages IH]; intros acc Hall; cbn [foldl].
  - unfold len; cbn [length]. lia.
  - apply Forall_cons in Hall as [Ha Hall]. specialize (IH (acc + a) Hall).
    unfold len in *. cbn [length]. nia.
Qed.

Lemma round_div_bounds lo hi p q :
  0 < q -> q * lo <= p <= q * hi -> lo <= round_div p q <= hi.
Proof.
  intros Hq Hp. unfold round_div. split.
  - apply Z.div_le_lower_bound; nia.
  - apply Z.lt_succ_r, Z.div_lt_upper_bound; nia.
Qed.

Lemma pushAge_bounds lo hi summary ages :
  (averageAgeOf summary <> 0 -> lo <= averageAgeOf summary <= hi) ->
  Forall (fun a => lo <= a <= hi) ages ->
  Forall (fun a => lo <= a <= hi) (pushAge summary ages).
Proof.
  intros Hs Hall. unfold pushAge, truthy, Z_truthy.
  destruct (Z.eqb_spec (averageAgeOf summary) 0) as [|Hne]; cbn [negb]; [done|].
  apply Forall_app. split; [done|]. apply Forall_singleton. by apply Hs.
Qed.

Lemma pushAge_nil summary ages :
  pushAge summary ages = [] <-> averageAgeOf summary = 0 /\ ages = [].
Proof.
  unfold pushAge, truthy, Z_truthy.
  destruct (Z.eqb_spec (averageAgeOf summary) 0) as [He|Hne]; cbn [negb].
  - tauto.
  - split; [intros [_ [=]]%app_eq_nil | tauto].
Qed.

(** X22. The average age shown for a repository is absent exactly when
    the record has no alert data or none of its three summaries records
    an average age other than 0.  Otherwise it lies between any two
    bounds that hold for the recorded non-zero average ages: it is at
    least the smallest and at most the largest of them. *)
Theorem average_age_between_recorded_ages :
  forall (repo : RepositoryRecord),
    (calculateAverageAge repo = null <->
       forall vulns, vulnerabilities repo = val vulns ->
         averageAgeOf (codeScanning vulns) = 0 /\
         averageAgeOf (dependabot vulns) = 0 /\
         averageAgeOf (secretScanning vulns) = 0) /\
    (forall vulns lo hi a,
       vulnerabilities repo = val vulns ->
       (forall kind, kind ∈ [codeScanning; dependabot; secretScanning] ->
          averageAgeOf (kind vulns) <> 0 ->
          lo <= averageAgeOf (kind vulns) <= hi) ->
       calculateAverageAge repo = val a ->
       lo <= a <= hi) /\
    calculateAverageAge repo <> undefined.
Proof.
  intros repo. unfold calculateAverageAge.
  destruct (vulnerabilities repo) as [| |vulns] eqn:Hv.
  1,2: split_and!; [split; [by intros _ ? | done] | by intros | done].
  cbn zeta.
  assert (Hlen : (len (agesOf vulns) =? 0) = true <-> agesOf vulns = []).
  { rewrite Z.eqb_eq. unfold len.
    destruct (agesOf vulns); cbn [length]; split; try done; lia. }
  split_and!.
  - destruct (len (agesOf vulns) =? 0) eqn:E.
    + pose proof (proj1 Hlen eq_refl) as E'. unfold agesOf in E'.
      apply pushAge_nil in E' as (H3 & E'). apply pushAge_nil in E' as (H2 & E').
      apply pushAge_nil in E' as (H1 & _).
      split; [|done]. intros _ ? [= <-]. done.
    + split; [done|]. intros H. destruct (H vulns eq_refl) as (H1 & H2 & H3).
      assert (agesOf vulns = []) as Hnil.
      { unfold agesOf. apply pushAge_nil. split; [done|].
        apply pushAge_nil. split; [done|]. by apply pushAge_nil. }
      by apply Hlen in Hnil.
  - intros ? lo hi a [= <-] Hb.
    assert (Hall : Forall (fun x => lo <= x <= hi) (agesOf vulns)).
    { unfold agesOf.
      repeat apply pushAge_bounds; try apply Forall_nil_2;
        apply Hb; rewrite !elem_of_cons; tauto. }
    destruct (len (agesOf vulns) =? 0) eqn:E; [done|]. intros [= <-].
    pose proof (sum_fold_bounds lo hi (agesOf vulns) 0 Hall) as Hsum.
    apply round_div_bounds; unfold sumAges.
    + unfold len in *. lia.
    + lia.
  - by destruct (len (agesOf vulns) =? 0).
Qed.

Lemma average_age_between_recorded_ages_witness :
  exists a, calculateAverageAge priorRecord = val a /\ 40 <= a <= 40.
Proof.
  exists 40. split; [reflexivity|].
  apply (proj1 (proj2 (average_age_between_recorded_ages priorRecord))
           priorBundle 40 40 40 eq_refl); [|reflexivity].
  intros kind Hk Hne. rewrite !elem_of_cons, elem_of_nil in Hk.
  destruct Hk as [->|[->|[->|[]]]]; cbn in *; lia.
Defined.

(** X23. When every recorded average age is non-negative, the average
    age the dashboard shows is at least 1 and at most the largest
    recorded average age, the age from which the risk score computes its
    multiplier: a shown average is never 0. *)
Theorem average_age_at_most_risk_age :
  forall (repo : RepositoryRecord) (vulns : VulnerabilityBundle) (a : Z),
    vulnerabilities repo = val vulns ->
    0 <= averageAgeOf (codeScanning vulns) ->
    0 <= averageAgeOf (dependabot vulns) ->
    0 <= averageAgeOf (secretScanning vulns) ->
    calculateAverageAge repo = val a ->
    1 <= a <= maxAgeOf vulns.
Proof.
  intros repo vulns a Hv H1 H2 H3 Ha.
  unfold calculateAverageAge in Ha. rewrite Hv in Ha. cbn zeta in Ha.
  destruct (len (agesOf vulns) =? 0) eqn:E; [done|]. injection Ha as <-.
  assert (Hall : Forall (fun x => 1 <= x <= maxAgeOf vulns) (agesOf vulns)).
  { unfold agesOf, maxAgeOf.
    repeat apply pushAge_bounds; try apply Forall_nil_2; lia. }
  pose proof (sum_fold_bounds 1 (maxAgeOf vulns) (agesOf vulns) 0 Hall) as Hsum.
  apply round_div_bounds; unfold sumAges.
  - unfold len in *. lia.
  - lia.
Qed.

Lemma average_age_at_most_risk_age_witness :
  1 <= 40 <= maxAgeOf priorBundle.
Proof.
  apply (average_age_at_most_risk_age priorRecord priorBundle 40 eq_refl);
    [cbn; lia | cbn; lia | cbn; lia | reflexivity].
Defined.

(** ** The dashboard's security filters *)

Lemma keepIf_filter on p l :
  keepIf on p l = List.filter (fun r => implb on (p r)) l.
Proof.
  unfold keepIf. destruct on; cbn [implb]; [done|].
  induction l as [|r l IH]; cbn [List.filter]; [done|]. by rewrite <- IH.
Qed.

Lemma filter_and (p q : RepositoryRecord -> bool) l :
  List.filter q (List.filter p l) = List.filter (fun r => p r && q r) l.
Proof.
  induction l as [|r l IH]; cbn [List.filter]; [done|].
  destruct (p r); cbn [List.filter andb]; [|done].
  destruct (q r); by rewrite IH.
Qed.

Lemma filter_none (p : RepositoryRecord -> bool) l :
  (forall r, p r = false) -> List.filter p l = [].
Proof.
  intros Hp. induction l as [|r l IH]; cbn [List.filter]; [done|].
  by rewrite Hp.
Qed.

Lemma secure_has_no_alerts kind r :
  kind ∈ [codeScanning; dependabot; secretScanning] ->
  hasAlerts kind r && isSecure r = false.
Proof.
  rewrite !elem_of_cons, elem_of_nil. unfold hasAlerts, isSecure.
  destruct (vulnerabilities r) as [| |vulns]; [done|done|].
  intros [->|[->|[->|[]]]];
    match goal with
    | |- context [js_truthy ?x] => destruct (js_truthy x); cbn [andb]; [|done]
    end;
    match goal with
    | |- (0 <? ?t) && _ = false =>
        destruct (Z.ltb_spec 0 t); cbn [andb]; [|done];
        destruct (Z.eqb_spec t 0); [lia|]
    end;
    cbn [andb]; try done; by rewrite ?andb_false_r.
Qed.

(** X24. The security filters act as one filter: a repository is kept
    exactly when it passes every filter that is switched on, and the
    repositories kept stay in their order.  With [secure] switched on
    together with [codeql], [dependabot] or [secrets], nothing is kept,
    whatever the data. *)
Theorem security_filters_conjunction :
  forall (f : Filters.t) (filtered : list RepositoryRecord),
    applySecurityFilters f filtered = List.filter (passes f) filtered /\
    (Filters.secure f = true ->
     Filters.codeql f || Filters.dependabot f || Filters.secrets f = true ->
     applySecurityFilters f filtered = []).
Proof.
  intros f filtered.
  assert (Hconj : applySecurityFilters f filtered = List.filter (passes f) filtered).
  { unfold applySecurityFilters. cbn zeta.
    rewrite !keepIf_filter, !filter_and. apply List.filter_ext. intros r.
    unfold passes. by rewrite !andb_assoc. }
  split; [exact Hconj|].
  intros Hsecure Hkind. rewrite Hconj. apply filter_none. intros r.
  unfold passes. rewrite Hsecure. cbn [implb].
  assert (H1 := secure_has_no_alerts codeScanning r).
  assert (H2 := secure_has_no_alerts dependabot r).
  assert (H3 := secure_has_no_alerts secretScanning r).
  rewrite !elem_of_cons in H1, H2, H3.
  specialize (H1 ltac:(tauto)). specialize (H2 ltac:(tauto)).
  specialize (H3 ltac:(tauto)).
  destruct (isSecure r); [|by rewrite andb_false_r].
  rewrite andb_true_r in H1, H2, H3. rewrite H1, H2, H3.
  destruct (Filters.codeql f), (Filters.dependabot f), (Filters.secrets f);
    cbn in Hkind |- *; try done; by rewrite ?andb_false_r.
Qed.

Lemma security_filters_conjunction_witness :
  applySecurityFilters codeqlAndSecure [priorRecord; skewedRecord] = [].
Proof.
  apply (proj2 (security_filters_conjunction codeqlAndSecure
                  [priorRecord; skewedRecord])); reflexivity.
Defined.

(** ** The synchronised data under the filters *)

Lemma countSeverity_within label w l : 0 <= countSeverity label w l <= len l.
Proof.
  unfold countSeverity, len.
  pose proof (filter_length_le
    (fun a => String.eqb (toLowerCase (jsor_default (label a) "")) w) l).
  lia.
Qed.

Lemma openSeverityCounts_within label l :
  forall k, 0 <= default 0 (openSeverityCounts label l !! k) <= len l.
Proof.
  intros k. unfold openSeverityCounts.
  repeat (rewrite lookup_insert; case_decide;
          [cbn [default]; apply countSeverity_within|]).
  rewrite lookup_empty. cbn [default]. unfold len. lia.
Qed.

Lemma zeroOpenCounts_zero k : default 0 (zeroOpenCounts !! k) = 0.
Proof.
  unfold zeroOpenCounts.
  repeat (rewrite lookup_insert; case_decide; [done|]).
  by rewrite lookup_empty.
Qed.

Lemma codeScanning_fetched fuel endpoint t30 now s :
  orFallback (fetchCodeScanningAlerts fuel endpoint t30 now) disabledCodeScanning
    = Resolved s ->
  countsWithinTotal s.
Proof.
  unfold orFallback, fetchCodeScanningAlerts.
  destruct (fetchStates _ _ _ _) as [alerts|e|]; cbn [await try_catch].
  - intros [= <-] k. apply openSeverityCounts_within.
  - unfold onStatusDisabled. destruct (is_403_or_404 e); cbn [try_catch];
      intros [= <-] k; cbn [severityCount severity total disabledCodeScanning];
      rewrite zeroOpenCounts_zero; lia.
  - done.
Qed.

Lemma dependabot_fetched fuel endpoint t30 now s :
  orFallback (fetchDependabotAlerts fuel endpoint t30 now) disabledDependabot
    = Resolved s ->
  countsWithinTotal s.
Proof.
  unfold orFallback, fetchDependabotAlerts.
  destruct (fetchStates _ _ _ _) as [alerts|e|]; cbn [await try_catch].
  - intros [= <-] k. apply openSeverityCounts_within.
  - unfold onStatusDisabled. destruct (is_403_or_404 e); cbn [try_catch];
      intros [= <-] k; cbn [severityCount severity total disabledDependabot];
      rewrite zeroOpenCounts_zero; lia.
  - done.
Qed.

Lemma merged_vulnerabilities M fresh b :
  vulnerabilities fresh = val b -> vulnerabilities (mergeOne M fresh) = val b.
Proof.
  intros Hb. unfold mergeOne. destruct (M !! repoKey fresh) as [existing|].
  - unfold mergeExisting. cbn [vulnerabilities]. by rewrite Hb.
  - unfold mergeNew. cbn [vulnerabilities]. by rewrite Hb.
Qed.

(** X25. A repository synchronised in this run that the dashboard keeps
    under the filter [critical], [high] or [medium] is never kept under
    [secure], and is kept under [codeql] or under [dependabot]: in the
    summaries the fetchers build, no severity count is negative or larger
    than the total. *)
Theorem flagged_repository_is_not_secure :
  forall (fuel : nat) (repo : GithubRepo) (api : RepoApi) (thirtyDaysAgo now : Z)
         (fresh : RepositoryRecord) (existingRepos : list RepositoryRecord)
         (k : string),
    enrichRepository fuel repo api thirtyDaysAgo now = Resolved (Some fresh) ->
    hasSeverity k (mergeOne (existingMapOf existingRepos) fresh) = true ->
    isSecure (mergeOne (existingMapOf existingRepos) fresh) = false /\
    hasAlerts codeScanning (mergeOne (existingMapOf existingRepos) fresh) ||
      hasAlerts dependabot (mergeOne (existingMapOf existingRepos) fresh) = true.
Proof.
  intros fuel repo api thirtyDaysAgo now fresh existingRepos k Henrich.
  apply enrichRepository_Some in Henrich
    as (d & cs & dep & sec & _ & _ & Hcs & Hdep & _ & _ & _ & _ & _ & Hv & _).
  apply codeScanning_fetched in Hcs. apply dependabot_fetched in Hdep.
  apply (merged_vulnerabilities (existingMapOf existingRepos)) in Hv.
  unfold hasSeverity, isSecure, hasAlerts. rewrite Hv.
  cbn [codeScanning dependabot secretScanning js_truthy truthy summary_truthy].
  specialize (Hcs k). specialize (Hdep k).
  cbn [totalOf]. intros Hk%Z.ltb_lt.
  destruct (Z.eqb_spec (total cs) 0), (Z.eqb_spec (total dep) 0),
    (Z.ltb_spec 0 (total cs)), (Z.ltb_spec 0 (total dep));
    cbn [andb orb]; split; try done; lia.
Qed.

Lemma flagged_repository_is_not_secure_witness :
  exists fresh,
    enrichRepository 1 sampleRepo
      (apiSample (inr (detailedSample false))
         (serving (openOnly [alertAt "open" (daysAgo 3 0) None "high"])))
      0 sampleNow = Resolved (Some fresh) /\
    isSecure (mergeOne (existingMapOf []) fresh) = false.
Proof.
  eexists. split; [reflexivity|].
  apply (flagged_repository_is_not_secure 1 sampleRepo
    (apiSample (inr (detailedSample false))
       (serving (openOnly [alertAt "open" (daysAgo 3 0) None "high"])))
    0 sampleNow _ [] "high" eq_refl).
  reflexivity.
Defined.

(** ** The listing of an organization *)

Lemma listing_prefix {A} (request : nat -> string + ListingBody A) fuel
    (pages : list (list A)) : forall start acc,
  (forall i items, pages !! i = Some items ->
     exists link, request (start + i)%nat = inr (ReposPage items link) /\
                  includes_str REL_NEXT (jsor_default link "") = true) ->
  fetchOrganizationRepos (length pages + fuel) request start acc =
  fetchOrganizationRepos fuel request (start + length pages)
    (acc ++ concat pages).
Proof.
  induction pages as [|items pages IH]; intros start acc Hpages.
  - cbn [length concat Nat.add]. by rewrite Nat.add_0_r, app_nil_r.
  - destruct (Hpages 0%nat items eq_refl) as (link & Hreq & Hnext).
    rewrite Nat.add_0_r in Hreq.
    cbn [length Nat.add fetchOrganizationRepos]. rewrite Hreq, Hnext.
    rewrite IH.
    + cbn [concat]. rewrite app_assoc. f_equal. lia.
    + intros i items' Hi. destruct (Hpages (S i) items' Hi) as (l & Hr & Hn).
      exists l. split; [|done]. rewrite <- Hr. f_equal. lia.
Qed.

(** X26. The listing of an organization follows the next links: when the
    pages from page 1 on each carry a link to the next and the page after
    them carries none, the loop returns the repositories of all these
    pages in order, provided the fuel covers the requests. *)
Theorem listing_follows_next_links :
  forall (A : Type) (fuel : nat) (request : nat -> string + ListingBody A)
         (pages : list (list A)) (lastPage : list A) (link : js string),
    (length pages < fuel)%nat ->
    (forall i items, pages !! i = Some items ->
       exists l, request (1 + i)%nat = inr (ReposPage items l) /\
                 includes_str REL_NEXT (jsor_default l "") = true) ->
    request (1 + length pages)%nat = inr (ReposPage lastPage link) ->
    includes_str REL_NEXT (jsor_default link "") = false ->
    fetchOrganizationRepos fuel request 1 [] =
      Resolved (concat pages ++ lastPage)%list.
Proof.
  intros A fuel request pages lastPage link Hfuel Hpages Hlast Hnone.
  replace fuel with (length pages + S (fuel - length pages - 1))%nat by lia.
  rewrite (listing_prefix request _ pages 1 [] Hpages).
  cbn [fetchOrganizationRepos app]. by rewrite Hlast, Hnone.
Qed.

Lemma listing_follows_next_links_witness :
  fetchOrganizationRepos 3
    (listingOf 1 [[sampleRepo; sampleRepo]; [sampleRepo]]
       (inr (ReposPage [sampleRepo] undefined))) 1 [] =
  Resolved [sampleRepo; sampleRepo; sampleRepo; sampleRepo].
Proof.
  apply (listing_follows_next_links GithubRepo 3
    (listingOf 1 [[sampleRepo; sampleRepo]; [sampleRepo]]
       (inr (ReposPage [sampleRepo] undefined)))
    [[sampleRepo; sampleRepo]; [sampleRepo]] [sampleRepo] undefined).
  - cbn. lia.
  - intros i items Hi. exists (val REL_NEXT).
    destruct i as [|[|i]]; cbn in Hi; [| |done]; injection Hi as <-;
      split; reflexivity.
  - reflexivity.
  - reflexivity.
Defined.

(** X27. A failed page request ends the listing in one of two ways.  An
    error whose message contains 404 is swallowed: the loop resolves with
    the repositories of the pages before it, an empty list when the first
    page fails, and no error reaches the caller.  Any other error rejects
    the listing with that message, and the pages fetched before are
    lost. *)
Theorem listing_error_truncates_or_rejects :
  forall (A : Type) (fuel : nat) (request : nat -> string + ListingBody A)
         (pages : list (list A)) (msg : string),
    (length pages < fuel)%nat ->
    (forall i items, pages !! i = Some items ->
       exists l, request (1 + i)%nat = inr (ReposPage items l) /\
                 includes_str REL_NEXT (jsor_default l "") = true) ->
    request (1 + length pages)%nat = inl msg ->
    fetchOrganizationRepos fuel request 1 [] =
      if includes_str "404" msg then Resolved (concat pages)
      else Rejected {| statusCode := None; message := msg |}.
Proof.
  intros A fuel request pages msg Hfuel Hpages Hlast.
  replace fuel with (length pages + S (fuel - length pages - 1))%nat by lia.
  rewrite (listing_prefix request _ pages 1 [] Hpages).
  cbn [fetchOrganizationRepos app]. by rewrite Hlast.
Qed.

Lemma listing_error_truncates_or_rejects_witness :
  fetchOrganizationRepos 2
    (listingOf 1 [[sampleRepo]] (inl "GitHub API error: 404")) 1 [] =
  Resolved [sampleRepo].
Proof.
  apply (listing_error_truncates_or_rejects GithubRepo 2
    (listingOf 1 [[sampleRepo]] (inl "GitHub API error: 404"))
    [[sampleRepo]] "GitHub API error: 404").
  - cbn. lia.
  - intros i items Hi. exists (val REL_NEXT).
    destruct i as [|i]; cbn in Hi; [|done]. injection Hi as <-.
    split; reflexivity.
  - reflexivity.
Defined.

(** ** The pause before a request *)

(** X28. With a clock that has not gone back since the last request, a
    call of [waitForRateLimit] never waits for the per-minute limit,
    however many requests were counted: it sleeps at most once, for what
    is missing to 200 ms since the last request, and it resets the
    counter only after a gap of more than a minute.  When the clock read
    at the end has advanced by what was slept, successive requests are at
    least 200 ms apart. *)
Theorem rate_limit_only_spaces_requests :
  forall (st : RateLimitState) (now later : Z),
    lastRequestTime st <= now ->
    let sleeps := fst (waitForRateLimit st now later) in
    let st' := snd (waitForRateLimit st now later) in
    sleeps =
      (if now - lastRequestTime st <? minDelayBetweenRequests
       then [minDelayBetweenRequests - (now - lastRequestTime st)] else []) /\
    Forall (fun ms => 0 < ms <= minDelayBetweenRequests) sleeps /\
    requestsThisMinute st' =
      (if 60000 <? now - lastRequestTime st then 0 else requestsThisMinute st) + 1 /\
    (now + foldl Z.add 0 sleeps <= later ->
     lastRequestTime st + minDelayBetweenRequests <= lastRequestTime st').
Proof.
  intros st now later Hclock. cbn zeta. unfold waitForRateLimit.
  cbn [fst snd requestsThisMinute lastRequestTime].
  assert (Hw : (0 <? 60000 - (now - (lastRequestTime st - 60000))) = false)
    by (apply Z.ltb_ge; lia).
  rewrite Hw, andb_false_r. cbn [app].
  unfold minDelayBetweenRequests.
  split; [done|].
  destruct (Z.ltb_spec (now - lastRequestTime st) 200) as [Hlt|Hge].
  - split; [apply Forall_singleton; lia|]. split; [done|].
    cbn [foldl]. lia.
  - split; [apply Forall_nil_2|]. split; [done|]. cbn [foldl]. lia.
Qed.

Lemma rate_limit_only_spaces_requests_witness :
  fst (waitForRateLimit
         {| remaining := 5000; resetAt := 3600000;
            requestsThisMinute := 500; lastRequestTime := 1000 |}
         1100 1200) = [100].
Proof.
  apply (proj1 (rate_limit_only_spaces_requests
    {| remaining := 5000; resetAt := 3600000;
       requestsThisMinute := 500; lastRequestTime := 1000 |}
    1100 1200 ltac:(cbn; lia))).
Defined.

(** ** Pod resolution and last activity *)

Lemma enrichRepository_sources fuel repo api t30 now fresh :
  enrichRepository fuel repo api t30 now = Resolved (Some fresh) ->
  exists d,
    details api = inr d /\
    lastActivity fresh = lastActivityOf (repo_updated_at d) /\
    codeowners fresh = val (existsb (contents api) codeownersPaths) /\
    pod fresh =
      val (jsor_default
             (fst (resolvePod (customPropertiesOf (properties api)) d
                     match repo_topics d with val ts => ts | _ => [] end))
             NO_POD).
Proof.
  unfold enrichRepository.
  destruct (details api) as [err|d]; cbn; [done|].
  destruct (archived d) eqn:Harch; cbn; [done|].
  destruct (orFallback (fetchCodeScanningAlerts _ _ _ _) _) as [cs|?|]; cbn;
    [|done|done].
  destruct (orFallback (fetchDependabotAlerts _ _ _ _) _) as [dep|?|]; cbn;
    [|done|done].
  destruct (orFallback (fetchSecretScanningAlerts _ _ _ _) _) as [sec|?|]; cbn;
    [|done|done].
  intros [= <-]. exists d. cbn. split_and!; reflexivity.
Qed.

Lemma split_first sep s :
  exists rest,
    s = String.append (nth 0 (split_on sep s) "") rest /\
    (rest = "" \/ exists r, rest = String sep r) /\
    includes_char sep (nth 0 (split_on sep s) "") = false.
Proof.
  induction s as [|c s IH]; cbn [split_on].
  - exists "". cbn. tauto.
  - destruct (Ascii.eqb c sep) eqn:Hc.
    + apply Ascii.eqb_eq in Hc as ->. exists (String sep s). cbn.
      split; [done|]. split; [right; by eexists | done].
    + destruct IH as (rest & Hs & Hrest & Hfree).
      pose proof (split_on_nonempty sep s) as Hne.
      destruct (split_on sep s) as [|p ps]; [done|].
      cbn [nth] in *. exists rest. split_and!; [|done|].
      * change (String c s = String c (String.append p rest)). by f_equal.
      * cbn [includes_char]. by rewrite Hc, Hfree.
Qed.

(** X29. The last activity of an enriched record is the part of the
    repository's [updated_at] before its first T, the date of an ISO
    timestamp: it contains no T, and [updated_at] is this part followed
    by nothing or by a T and the rest.  Without an [updated_at] the last
    activity is null. *)
Theorem last_activity_is_date_part :
  forall (fuel : nat) (repo : GithubRepo) (api : RepoApi)
         (thirtyDaysAgo now : Z) (fresh : RepositoryRecord),
    enrichRepository fuel repo api thirtyDaysAgo now = Resolved (Some fresh) ->
    exists d,
      details api = inr d /\
      if js_truthy (repo_updated_at d)
      then exists u day rest,
             repo_updated_at d = val u /\
             lastActivity fresh = val day /\
             u = String.append day rest /\
             (rest = "" \/ exists r, rest = String "T" r) /\
             includes_char "T" day = false
      else lastActivity fresh = null.
Proof.
  intros fuel repo api thirtyDaysAgo now fresh H.
  apply enrichRepository_sources in H as (d & Hd & Hl & _).
  exists d. split; [done|]. rewrite Hl. unfold lastActivityOf.
  destruct (repo_updated_at d) as [| |u]; cbn [js_truthy]; [done|done|].
  destruct (truthy u); [|done].
  destruct (split_first "T" u) as (rest & Hu & Hrest & Hfree).
  exists u, (nth 0 (split_on "T" u) ""), rest. done.
Qed.

Lemma last_activity_is_date_part_witness :
  exists fresh,
    enrichRepository 1 sampleRepo
      (apiSample (inr (detailedSample false)) noAlerts) 0 0
      = Resolved (Some fresh) /\
    lastActivity fresh = val "2024-01-15".
Proof.
  eexists. split; [reflexivity|].
  destruct (last_activity_is_date_part 1 sampleRepo
    (apiSample (inr (detailedSample false)) noAlerts) 0 0 _ eq_refl)
    as (d & Hd & _).
  reflexivity.
Defined.

Lemma jsor_truthy_l {A} `{Truthy A} (x y : js A) :
  js_truthy x = true -> jsor x y = x.
Proof. unfold jsor. by intros ->. Qed.

(** X30. Topics decide the pod only when no custom property names one,
    and never the environment type: the environment type is the same for
    any topics, and when the custom properties give a pod the topics are
    not read.  A property [Pod] answered by the custom-properties request
    beats the repository's embedded properties and the topics.  When no
    property gives a pod, the first topic that looks like a pod does. *)
Theorem pod_sources_priority :
  forall (customProperties : option (gmap string string))
         (detailedRepo : DetailedRepo) (topicList : list string),
    snd (resolvePod customProperties detailedRepo topicList) =
      snd (resolvePod customProperties detailedRepo []) /\
    (js_truthy (fst (resolvePod customProperties detailedRepo [])) = true ->
     resolvePod customProperties detailedRepo topicList =
       resolvePod customProperties detailedRepo []) /\
    (forall cp p,
       customProperties = Some cp -> cp !! "Pod" = Some p -> p <> "" ->
       fst (resolvePod customProperties detailedRepo topicList) = val p) /\
    (forall podTopic,
       js_truthy (fst (resolvePod customProperties detailedRepo [])) = false ->
       List.find isPodTopic topicList = Some podTopic -> podTopic <> "" ->
       fst (resolvePod customProperties detailedRepo topicList) =
         val (podOfTopic podTopic)).
Proof.
  intros customProperties detailedRepo topicList.
  unfold resolvePod. cbn zeta. cbn [List.find].
  set (m1 := match customProperties with
             | Some cp => _
             | None => (null, null)
             end).
  set (m1b := match custom_properties detailedRepo with
              | val cp => _
              | _ => m1
              end).
  assert (Htr : forall s : string, s <> "" -> truthy s = true).
  { intros s Hs. unfold truthy, string_truthy. by destruct (String.eqb_spec s ""). }
  assert (Hsame : (if negb (js_truthy m1b.1) then m1b else m1b) = m1b)
    by (destruct (negb (js_truthy m1b.1)); reflexivity).
  rewrite !Hsame.
  split_and!.
  - destruct (negb (js_truthy m1b.1)); [|done].
    destruct (List.find isPodTopic topicList) as [t|]; [|done].
    by destruct (truthy t).
  - by intros ->.
  - intros cp p -> Hp Hne.
    assert (Hm1 : m1.1 = val p).
    { unfold m1. cbn [fst]. unfold prop at 1. rewrite Hp.
      rewrite !(jsor_truthy_l (val p)); [done|..]; cbn [js_truthy]; by apply Htr. }
    assert (Hm1b : m1b.1 = val p).
    { unfold m1b. destruct (custom_properties detailedRepo); try done.
      rewrite Hm1. cbn [js_truthy]. by rewrite Htr. }
    rewrite Hm1b. cbn [js_truthy]. by rewrite Htr.
  - intros podTopic -> Hfind Hne. cbn [negb].
    rewrite Hfind, Htr by done. done.
Qed.

Lemma pod_sources_priority_witness :
  fst (resolvePod (Some (<["Pod" := "Core-Backend"]> ∅)) (detailedSample false)
         ["pod:payments-team"]) = val "Core-Backend".
Proof.
  apply (proj1 (proj2 (proj2 (pod_sources_priority
    (Some (<["Pod" := "Core-Backend"]> ∅)) (detailedSample false)
    ["pod:payments-team"])))
    (<["Pod" := "Core-Backend"]> ∅) "Core-Backend" eq_refl);
    [reflexivity | discriminate].
Defined.
